(** * The stories module of the manager API: hierarchy building and navigation

    A shallow embedding of [lib/api/src/modules/stories] (the module that
    exports [initStoriesApi]): the deep merge with array union, the path
    splitter, [setStories], [selectStory], [jumpToStory], [jumpToComponent],
    [getData] and [getParameters], followed by the properties of the
    specification that concern them and by further properties of the code.

    Conventions of the embedding.
    - JavaScript values are the inductive type [value]; an object is the
      list of its own enumerable properties in [Object.keys] order.
      Objects are plain objects, with [Object.prototype] as prototype.
      Property reads and writes see own properties only: what a plain
      object inherits from [Object.prototype] is not modelled.  The
      names of its members are listed as [objectPrototypeNames]; a
      statement about a key that need not be an own key assumes that
      the key is none of them ([inherited]), and a statement about the
      keys a batch writes assumes that none is ["__proto__"], whose
      assignment sets the prototype instead of a property
      ([plainKeys]).
    - The lodash functions neither throw nor touch a prototype in the
      embedding; the statements on [merge] are about the values on
      which this is exact ([plainValue]).
    - Strings are [string]; a character stands for a code unit.
    - Numbers are the integral ones, as [Z]; arrays are dense.
    - A regular expression is its text together with its matching
      behaviour, so that statements about every separator pattern
      quantify over every such behaviour.
    - The store and the calls to the external [navigate] are threaded
      through the monad [M]; a thrown [TypeError] is its [Throw] outcome.
    - [sanitize] and [toId], imported from [../lib/id], are parameters. *)

From Stdlib Require Import List String Ascii ZArith NArith Bool Arith Lia Permutation.
Import ListNotations.
Local Open Scope string_scope.
Local Open Scope list_scope.
Set Warnings "-register-all".

(** ** JavaScript values *)

(** A regular expression, as far as this module observes one: its text
    (the [source], used by deep equality and by string conversion) and its
    behaviour as a separator: [exec_at S q] is the sticky match of the
    expression in [S] at position [q], giving the length of the match and
    the captures ([None] for a group that did not take part). *)
Record RegExp : Type := mkRegExp {
  source : string;
  exec_at : string -> nat -> option (nat * list (option string))
}.

Inductive value : Type :=
| VUndefined
| VNull
| VBool (b : bool)
| VNum (n : Z)
| VStr (s : string)
| VArr (xs : list value)
| VObj (fs : list (string * value))
| VRegExp (r : RegExp).

Definition obj : Type := list (string * value).

(** ToBoolean. *)
Definition truthy (v : value) : bool :=
  match v with
  | VUndefined | VNull => false
  | VBool b => b
  | VNum n => negb (n =? 0)%Z
  | VStr s => negb (s =? "")
  | VArr _ | VObj _ | VRegExp _ => true
  end.

(** Truthiness of a string that may be [undefined]. *)
Definition truthy_str (s : option string) : bool :=
  match s with
  | Some s => negb (s =? "")
  | None => false
  end.

Definition isArray (v : value) : bool :=
  match v with VArr _ => true | _ => false end.

(** lodash [isObject]: the language type Object. *)
Definition isObject (v : value) : bool :=
  match v with VArr _ | VObj _ | VRegExp _ => true | _ => false end.

Definition is_undefined (v : value) : bool :=
  match v with VUndefined => true | _ => false end.

(** *** Property keys *)

Definition is_digit (c : ascii) : bool :=
  let n := nat_of_ascii c in ((48 <=? n) && (n <=? 57))%nat.

Fixpoint digits_value (cs : list ascii) (acc : N) : N :=
  match cs with
  | [] => acc
  | c :: r => digits_value r (acc * 10 + N.of_nat (nat_of_ascii c - 48))%N
  end.

(** An array index is a canonical numeric string below 2^32 - 1. *)
Definition array_index (k : string) : option N :=
  let cs := list_ascii_of_string k in
  match cs with
  | [] => None
  | c :: r =>
      if forallb is_digit cs && (negb (Ascii.eqb c "0"%char) || (List.length r =? 0)%nat)
         && (List.length cs <=? 10)%nat
      then let n := digits_value cs 0%N in
           if (n <? 4294967295)%N then Some n else None
      else None
  end.

Fixpoint lookup (k : string) (o : obj) : option value :=
  match o with
  | [] => None
  | (k', v) :: r => if k =? k' then Some v else lookup k r
  end.

Definition has (k : string) (o : obj) : bool :=
  match lookup k o with Some _ => true | None => false end.

Definition keys (o : obj) : list string := map fst o.
Definition values (o : obj) : list value := map snd o.

(** [o[k]] on an object: the own property or [undefined]. *)
Definition prop (o : obj) (k : string) : value :=
  match lookup k o with Some v => v | None => VUndefined end.

Fixpoint replace_prop (k : string) (v : value) (o : obj) : obj :=
  match o with
  | [] => []
  | (k', v') :: r =>
      if k =? k' then (k', v) :: r else (k', v') :: replace_prop k v r
  end.

(** A new array-index key goes before the first key that is not an
    array index or is a greater one. *)
Fixpoint insert_index (n : N) (k : string) (v : value) (o : obj) : obj :=
  match o with
  | [] => [(k, v)]
  | (k', v') :: r =>
      match array_index k' with
      | Some n' => if (n' <? n)%N then (k', v') :: insert_index n k v r
                   else (k, v) :: o
      | None => (k, v) :: o
      end
  end.

(** [o[k] = v]: an existing key keeps its place; a new key is ordered as
    [Object.keys] lists it, array indices first in ascending order, then
    the other keys in order of creation. *)
Definition obj_set (k : string) (v : value) (o : obj) : obj :=
  if has k o then replace_prop k v o
  else match array_index k with
       | Some n => insert_index n k v o
       | None => o ++ [(k, v)]
       end.

(** An object literal or spread [{...o, k1: v1, ...}]: the properties are
    defined from left to right. *)
Definition obj_assign (o : obj) (ps : list (string * value)) : obj :=
  fold_left (fun acc p => obj_set (fst p) (snd p) acc) ps o.

(** *** Decimal text of a number, and ToString *)

Fixpoint decimal_of_pos (fuel : nat) (n : N) (acc : string) : string :=
  match fuel with
  | O => acc
  | S fuel' =>
      let d := String (ascii_of_N (48 + n mod 10)%N) acc in
      if (n / 10 =? 0)%N then d else decimal_of_pos fuel' (n / 10)%N d
  end.

Definition decimal_of_N (n : N) : string :=
  decimal_of_pos (S (N.to_nat (N.log2 n))) n "".

Definition decimal_of_Z (z : Z) : string :=
  match z with
  | Z0 => "0"
  | Zpos p => decimal_of_N (Npos p)
  | Zneg p => "-" ++ decimal_of_N (Npos p)
  end.

Fixpoint join_with (sep : string) (ss : list string) : string :=
  match ss with
  | [] => ""
  | [s] => s
  | s :: r => s ++ sep ++ join_with sep r
  end.

(** ToString, as a template literal applies it. *)
Fixpoint toString (v : value) : string :=
  match v with
  | VUndefined => "undefined"
  | VNull => "null"
  | VBool true => "true"
  | VBool false => "false"
  | VNum n => decimal_of_Z n
  | VStr s => s
  | VArr xs =>
      join_with ","
        (map (fun x => match x with
                       | VUndefined | VNull => ""
                       | _ => toString x
                       end) xs)
  | VObj _ => "[object Object]"
  | VRegExp r => source r
  end.

(** The key of index [i]. *)
Definition index_key (i : nat) : string := decimal_of_N (N.of_nat i).

Fixpoint chars_of (s : string) : list value :=
  match s with
  | EmptyString => []
  | String c r => VStr (String c EmptyString) :: chars_of r
  end.

(** Property read [v[k]] on a value that is neither [undefined] nor
    [null]: own properties of objects, elements and [length] of arrays
    and strings. *)
Definition get (v : value) (k : string) : value :=
  match v with
  | VObj fs => prop fs k
  | VArr xs =>
      match array_index k with
      | Some i => nth (N.to_nat i) xs VUndefined
      | None => if k =? "length" then VNum (Z.of_nat (List.length xs)) else VUndefined
      end
  | VStr s =>
      match array_index k with
      | Some i => nth (N.to_nat i) (chars_of s) VUndefined
      | None => if k =? "length" then VNum (Z.of_nat (String.length s)) else VUndefined
      end
  | _ => VUndefined
  end.

(** ** The merge utility: lodash [isEqual] and [mergeWith] *)

(** Deep equality.  Objects are equal when they have the same keys with
    equal values, whatever the order; regular expressions when their
    texts agree. *)
Fixpoint isEqual (a b : value) {struct a} : bool :=
  match a, b with
  | VUndefined, VUndefined => true
  | VNull, VNull => true
  | VBool x, VBool y => Bool.eqb x y
  | VNum x, VNum y => (x =? y)%Z
  | VStr x, VStr y => x =? y
  | VArr xs, VArr ys =>
      (fix go (xs ys : list value) : bool :=
         match xs, ys with
         | [], [] => true
         | x :: xr, y :: yr => isEqual x y && go xr yr
         | _, _ => false
         end) xs ys
  | VObj fs, VObj gs =>
      (List.length fs =? List.length gs)%nat &&
      (fix go (fs : list (string * value)) : bool :=
         match fs with
         | [] => true
         | (k, v) :: r =>
             match lookup k gs with
             | Some w => isEqual v w
             | None => false
             end && go r
         end) fs
  | VRegExp r, VRegExp s => source r =? source s
  | _, _ => false
  end.

(** One round of the [forEach] in the customizer: [s] is pushed unless
    [find] returns a truthy element equal to it. *)
Definition push_missing (objValue : list value) (s : value) : list value :=
  match find (fun o => isEqual o s) objValue with
  | Some existing => if truthy existing then objValue else objValue ++ [s]
  | None => objValue ++ [s]
  end.

(** The customizer handed to [mergeWith]; [VUndefined] leaves the key to
    lodash.  (The [console.log] of the mismatch branch is not part of the
    model.) *)
Definition customizer (objValue srcValue : value) : value :=
  match srcValue, objValue with
  | VArr src, VArr dst => VArr (fold_left push_missing src dst)
  | _, VArr _ => objValue
  | _, _ => VUndefined
  end.

(** [key in object]. *)
Definition has_key (object : value) (key : string) : bool :=
  match object with
  | VObj fs => has key fs
  | VArr xs =>
      match array_index key with
      | Some i => (N.to_nat i <? List.length xs)%nat
      | None => key =? "length"
      end
  | _ => false
  end.

Fixpoint replace_nth (i : nat) (v : value) (xs : list value) : list value :=
  match i, xs with
  | O, [] => [v]
  | O, _ :: r => v :: r
  | S i', [] => VUndefined :: replace_nth i' v []
  | S i', x :: r => x :: replace_nth i' v r
  end.

(** [object[key] = value] on the destination of a merge.  Extra
    properties of arrays and of regular expressions have no place in
    [value] and are dropped. *)
Definition assign_dest (object : value) (key : string) (v : value) : value :=
  match object with
  | VObj fs => VObj (obj_set key v fs)
  | VArr xs =>
      match array_index key with
      | Some i => VArr (replace_nth (N.to_nat i) v xs)
      | None => object
      end
  | _ => object
  end.

(** lodash [assignMergeValue]: an [undefined] value is only stored under
    a key the destination does not have yet.  (Releases differ on whether
    it is stored at all under a new key of an object; a read of the key
    gives [undefined] either way.) *)
Definition assignMergeValue (object : value) (key : string) (v : value) : value :=
  if is_undefined v
  then if has_key object key then object else assign_dest object key v
  else assign_dest object key v.

(** lodash [isArrayLikeObject] on a plain object: a [length] that is a
    valid length; [copyArray] then reads the elements by index. *)
Definition array_like_length (v : value) : option nat :=
  match v with
  | VObj fs =>
      match prop fs "length" with
      | VNum n => if (0 <=? n)%Z && (n <=? 9007199254740991)%Z
                  then Some (Z.to_nat n) else None
      | _ => None
      end
  | _ => None
  end.

Definition copyArray (v : value) (n : nat) : value :=
  VArr (map (fun i => get v (index_key i)) (seq 0 n)).

(** The body of [baseMerge] for one key of the source: [baseMergeDeep]
    when the source value is an object, the assignment otherwise.  [rec]
    merges the source value into the destination it is given. *)
Definition mergeKey (rec : value -> value)
    (object : value) (key : string) (srcValue : value) : value :=
  let objValue := get object key in
  let newValue := customizer objValue srcValue in
  if isObject srcValue then
    if negb (is_undefined newValue) then assignMergeValue object key newValue
    else
      match srcValue with
      | VArr _ =>
          let dest :=
            if isArray objValue then objValue
            else match array_like_length objValue with
                 | Some n => copyArray objValue n
                 | None => VArr []
                 end in
          assignMergeValue object key (rec dest)
      | VObj _ =>
          let dest := if isObject objValue then objValue else VObj [] in
          assignMergeValue object key (rec dest)
      | _ => assignMergeValue object key srcValue
      end
  else
    assignMergeValue object key
      (if is_undefined newValue then srcValue else newValue).

(** lodash [baseMerge] with the customizer above: every enumerable key of
    [source] (the properties of an object, the indices of an array or of
    a string) is merged into [object]. *)
Fixpoint baseMerge (object source : value) {struct source} : value :=
  match source with
  | VObj fs =>
      (fix go (fs : list (string * value)) (object : value) : value :=
         match fs with
         | [] => object
         | (k, sv) :: r =>
             go r (mergeKey (fun dest => baseMerge dest sv) object k sv)
         end) fs object
  | VArr xs =>
      (fix go (xs : list value) (i : nat) (object : value) : value :=
         match xs with
         | [] => object
         | sv :: r =>
             go r (S i)
                (mergeKey (fun dest => baseMerge dest sv) object (index_key i) sv)
         end) xs 0%nat object
  | VStr s =>
      snd (fold_left
             (fun st c =>
                (S (fst st),
                 mergeKey (fun dest => dest) (snd st) (index_key (fst st)) c))
             (chars_of s) (0%nat, object))
  | _ => object
  end.

(** One round of [baseMerge] on an object source. *)
Definition mergeField (object : value) (kv : string * value) : value :=
  mergeKey (fun dest => baseMerge dest (snd kv)) object (fst kv) (snd kv).

(** [mergeWith({}, a, b, customizer)]: falsy sources are skipped. *)
Definition mergeWith (object : value) (sources : list value) : value :=
  fold_left (fun object source =>
               if truthy source then baseMerge object source else object)
            sources object.

Definition merge (a b : value) : value := mergeWith (VObj []) [a; b].

(** ** [String.prototype.split] with a regular expression *)

Definition limit_reached (lim : option nat) (A : list (option string)) : bool :=
  match lim with
  | Some l => (List.length A =? l)%nat
  | None => false
  end.

(** The captures of a match are appended one by one; the flag tells that
    the limit was reached and the result is final. *)
Fixpoint push_captures (lim : option nat) (A : list (option string))
    (caps : list (option string)) : list (option string) * bool :=
  match caps with
  | [] => (A, false)
  | c :: r =>
      let A' := A ++ [c] in
      if limit_reached lim A' then (A', true) else push_captures lim A' r
  end.

(** The loop of the split algorithm: [p] is the start of the pending
    piece, [q] the position tried next.  A round either moves [q] forward
    or, after an empty match at [q], moves [p] up to [q]; [fuel] counts
    rounds. *)
Fixpoint split_loop (R : RegExp) (S : string) (lim : option nat) (fuel : nat)
    (p q : nat) (A : list (option string)) : list (option string) :=
  let size := String.length S in
  match fuel with
  | O => A ++ [Some (substring p (size - p) S)]
  | S fuel' =>
      if (size <=? q)%nat then A ++ [Some (substring p (size - p) S)]
      else
        match exec_at R S q with
        | None => split_loop R S lim fuel' p (q + 1) A
        | Some (n, caps) =>
            let e := Nat.min (q + n) size in
            if (e =? p)%nat then split_loop R S lim fuel' p (q + 1) A
            else
              let A1 := A ++ [Some (substring p (q - p) S)] in
              if limit_reached lim A1 then A1
              else
                let (A2, full) := push_captures lim A1 caps in
                if full then A2 else split_loop R S lim fuel' e e A2
        end
  end.

(** [S.split(R, lim)]; [lim = None] is the call without a limit.  The
    pieces are strings, or [undefined] ([None]) for a capture that did
    not take part. *)
Definition split (S : string) (R : RegExp) (lim : option nat)
  : list (option string) :=
  if limit_reached lim [] then []
  else if (String.length S =? 0)%nat then
    match exec_at R S 0 with
    | Some _ => []
    | None => [Some S]
    end
  else split_loop R S lim (2 * String.length S + 1) 0 0 [].


(** ** The path splitter *)

Record SeparatorOptions : Type := mkSeparatorOptions {
  rootSeparator : RegExp;
  groupSeparator : RegExp
}.

(** The result of [splitPath]; the [root] is [null] ([None]) or a string. *)
Record PathSplit : Type := mkPathSplit {
  root : option string;
  groups : list string
}.

(** [pieces.filter(i => !!i)]. *)
Fixpoint filter_truthy (pieces : list (option string)) : list string :=
  match pieces with
  | [] => []
  | Some s :: r => if s =? "" then filter_truthy r else s :: filter_truthy r
  | None :: r => filter_truthy r
  end.

(** [a || b] on strings. *)
Definition or_else (a : option string) (b : string) : string :=
  match a with
  | Some s => if s =? "" then b else s
  | None => b
  end.

Definition splitPath (kind : string) (seps : SeparatorOptions) : PathSplit :=
  let parts := split kind (rootSeparator seps) (Some 2%nat) in
  let root := nth 0 parts None in
  let remainder := nth 1 parts None in
  let groups := filter_truthy (split (or_else remainder kind) (groupSeparator seps) None) in
  {| root := if truthy_str remainder then root else None;
     groups := groups |}.

(** ** Identifiers *)

Definition is_alnum (c : ascii) : bool :=
  let n := nat_of_ascii c in
  ((48 <=? n) && (n <=? 57) || (65 <=? n) && (n <=? 90)
   || (97 <=? n) && (n <=? 122))%nat.

Definition upper (c : ascii) : ascii :=
  let n := nat_of_ascii c in
  if ((97 <=? n) && (n <=? 122))%nat then ascii_of_nat (n - 32) else c.

(** The global replace of [toKey]: a run of characters outside
    [a-z0-9] (case ignored) followed by one inside is replaced by that
    character in upper case; [run] is the pending run, latest first. *)
Fixpoint toKey_chars (run : list ascii) (cs : list ascii) : list ascii :=
  match cs with
  | [] => rev run
  | c :: r =>
      if is_alnum c then
        match run with
        | [] => c :: toKey_chars [] r
        | _ :: _ => upper c :: toKey_chars [] r
        end
      else toKey_chars (c :: run) r
  end.

Definition toKey (input : string) : string :=
  string_of_list_ascii (toKey_chars [] (list_ascii_of_string input)).

(** [toGroup]: the object [{ name, id: toKey(name) }]. *)
Definition toGroup (name : string) : obj :=
  obj_assign [] [("name", VStr name); ("id", VStr (toKey name))].

(** ** The store, the navigation primitive and exceptions *)

(** The slice of the manager state this module reads and writes; the
    slices of the other modules are not touched by it. *)
Record State : Type := mkState {
  storiesHash : obj;
  viewMode : option string;
  storyId : option string
}.

(** What a call can observe and change: the store, and the calls made to
    the external [navigate], oldest first. *)
Record World : Type := mkWorld {
  store : State;
  navigated : list string
}.

Inductive Error : Type := TypeError.

Inductive Outcome (A : Type) : Type :=
| Return (a : A)
| Throw (e : Error).
Arguments Return {A} a.
Arguments Throw {A} e.

(** Pure code that may throw. *)
Definition obind {A B} (c : Outcome A) (k : A -> Outcome B) : Outcome B :=
  match c with
  | Return a => k a
  | Throw e => Throw e
  end.

(** Code that may also read the store, write it and navigate. *)
Definition M (A : Type) : Type := World -> Outcome A * World.

Definition ret {A} (a : A) : M A := fun w => (Return a, w).

Definition bind {A B} (c : M A) (k : A -> M B) : M B :=
  fun w => match c w with
           | (Return a, w') => k a w'
           | (Throw e, w') => (Throw e, w')
           end.

Definition lift {A} (c : Outcome A) : M A := fun w => (c, w).

Declare Scope js_scope.
Delimit Scope js_scope with js.
Notation "x <- c ;; k" := (bind c (fun x => k))
  (at level 61, c at next level, right associativity) : js_scope.
Notation "c ;;; k" := (bind c (fun _ => k))
  (at level 61, right associativity) : js_scope.
Notation "x <~ c ;; k" := (obind c (fun x => k))
  (at level 61, c at next level, right associativity) : js_scope.
Local Open Scope js_scope.

(** Modelled from the spec: the store is an external collaborator with
    the contract [getState()] / [setState(patch)].  This is
    [store.getState()]. *)
Definition getState : M State := fun w => (Return (store w), w).

(** Modelled from the spec: [setState(patch)] of the store shallow-merges
    the patch into the state.  This is [store.setState({ storiesHash })]:
    the patch replaces that one field. *)
Definition setState_storiesHash (h : obj) : M unit :=
  fun w =>
    (Return tt,
     {| store := {| storiesHash := h;
                    viewMode := viewMode (store w);
                    storyId := storyId (store w) |};
        navigated := navigated w |}).

(** [navigate(to)]: a call to the router, which is outside this module;
    the call is recorded. *)
Definition navigate (to : string) : M unit :=
  fun w => (Return tt, {| store := store w; navigated := navigated w ++ [to] |}).

(** [v.k]: reading a property of [undefined] or [null] throws. *)
Definition member (v : value) (k : string) : Outcome value :=
  match v with
  | VUndefined | VNull => Throw TypeError
  | _ => Return (get v k)
  end.

(** [[...v]]: arrays and strings are iterable, the other values of the
    model are not. *)
Definition spread (v : value) : Outcome (list value) :=
  match v with
  | VArr xs => Return xs
  | VStr s => Return (chars_of s)
  | _ => Throw TypeError
  end.

(** *** Array helpers with a predicate that may throw *)

Fixpoint filterO {A} (f : A -> Outcome bool) (l : list A) : Outcome (list A) :=
  match l with
  | [] => Return []
  | x :: r =>
      b <~ f x ;;
      r' <~ filterO f r ;;
      Return (if b then x :: r' else r')
  end.

Fixpoint findO {A} (f : A -> Outcome bool) (l : list A) : Outcome (option A) :=
  match l with
  | [] => Return None
  | x :: r =>
      b <~ f x ;;
      if b then Return (Some x) else findO f r
  end.

Fixpoint reduceO {A B} (f : A -> B -> Outcome A) (l : list B) (acc : A) : Outcome A :=
  match l with
  | [] => Return acc
  | x :: r =>
      acc' <~ f acc x ;;
      reduceO f r acc'
  end.

(** [l.indexOf(x)] and [l.findIndex(f)]: the first position, or -1. *)
Fixpoint findIndex {A} (f : A -> bool) (l : list A) : Z :=
  match l with
  | [] => (-1)%Z
  | x :: r =>
      if f x then 0%Z
      else let i := findIndex f r in
           if (i <? 0)%Z then (-1)%Z else (i + 1)%Z
  end.

Definition indexOf (x : string) (l : list string) : Z :=
  findIndex (String.eqb x) l.

(** [l[i]] for an integer [i]: [undefined] ([None]) out of range. *)
Definition at_index {A} (l : list A) (i : Z) : option A :=
  if (i <? 0)%Z then None else nth_error l (Z.to_nat i).

(** [l.includes(s)] for a string [s]. *)
Definition includes (s : string) (l : list value) : bool :=
  existsb (fun x => match x with VStr t => t =? s | _ => false end) l.

(** ** Navigation and lookup *)

Definition isStory (v : value) : bool :=
  truthy v && truthy (get v "parameters").

Definition jumpToStory (direction : Z) : M unit :=
  st <- getState ;;
  let storiesHash := storiesHash st in
  match storyId st with
  | None => ret tt
  | Some storyId =>
      (* cannot navigate when there's no current selection *)
      if negb (truthy (VStr storyId)) || negb (truthy (prop storiesHash storyId))
      then ret tt
      else
        lookupList <- lift (filterO
                              (fun k =>
                                 c <~ member (prop storiesHash k) "children" ;;
                                 Return (negb (truthy c || isArray (prop storiesHash k))))
                              (keys storiesHash)) ;;
        let index := indexOf storyId lookupList in
        (* cannot navigate beyond first or last *)
        if (index =? Z.of_nat (List.length lookupList) - 1)%Z && (direction >? 0)%Z
        then ret tt
        else if (index =? 0)%Z && (direction <? 0)%Z
        then ret tt
        else
          match viewMode st, at_index lookupList (index + direction) with
          | Some viewMode, Some result =>
              if truthy (VStr viewMode) && truthy (VStr result)
              then navigate ("/" ++ viewMode ++ "/" ++ result)
              else ret tt
          | _, _ => ret tt
          end
  end.

Definition getData (storyId : string) : M value :=
  st <- getState ;;
  ret (prop (storiesHash st) storyId).

Definition getParameters (storyId : string) (parameterName : option string)
  : M value :=
  data <- getData storyId ;;
  if isStory data then
    let parameters := get data "parameters" in
    ret (if truthy_str parameterName
         then get parameters (or_else parameterName "")
         else parameters)
  else ret VNull.

Definition jumpToComponent (direction : Z) : M unit :=
  st <- getState ;;
  let storiesHash := storiesHash st in
  match storyId st with
  | None => ret tt
  | Some storyId =>
      (* cannot navigate when there's no current selection *)
      if negb (truthy (VStr storyId)) || negb (truthy (prop storiesHash storyId))
      then ret tt
      else
        lookupList <- lift (reduceO
                              (fun acc i =>
                                 let value := snd i in
                                 isComponent <~ member value "isComponent" ;;
                                 if truthy isComponent then
                                   children <~ member value "children" ;;
                                   copy <~ spread children ;;
                                   Return (acc ++ [copy])
                                 else Return acc)
                              storiesHash []) ;;
        let index :=
          findIndex (fun i => includes storyId i) lookupList in
        (* cannot navigate beyond first or last *)
        if (index =? Z.of_nat (List.length lookupList) - 1)%Z && (direction >? 0)%Z
        then ret tt
        else if (index =? 0)%Z && (direction <? 0)%Z
        then ret tt
        else
          match at_index lookupList (index + direction) with
          | None => lift (Throw TypeError)
          | Some list =>
              let result := nth 0 list VUndefined in
              navigate ("/" ++ or_else (viewMode st) "story" ++ "/" ++ toString result)
          end
  end.

(** ** Registration of a batch: [setStories] *)

(** A raw story, as the interface [StoryInput] declares it.  The field
    [children] is optional: the records the preview sends carry none. *)
Record Options : Type := mkOptions {
  hierarchyRootSeparator : RegExp;
  hierarchySeparator : RegExp;
  otherOptions : obj
}.

Record Parameters : Type := mkParameters {
  filename : string;
  options : Options;
  otherParameters : obj
}.

Record StoryInput : Type := mkStoryInput {
  id : string;
  name : string;
  kind : string;
  children : option (list string);
  parameters : Parameters
}.

Definition options_value (o : Options) : value :=
  VObj (obj_assign (otherOptions o)
          [("hierarchyRootSeparator", VRegExp (hierarchyRootSeparator o));
           ("hierarchySeparator", VRegExp (hierarchySeparator o))]).

Definition parameters_value (p : Parameters) : value :=
  VObj (obj_assign (otherParameters p)
          [("filename", VStr (filename p));
           ("options", options_value (options p))]).

(** The record as the object it is at run time. *)
Definition item_obj (item : StoryInput) : obj :=
  obj_assign []
    ([("id", VStr (id item)); ("name", VStr (name item));
      ("kind", VStr (kind item))]
     ++ match children item with
        | Some cs => [("children", VArr (map VStr cs))]
        | None => []
        end
     ++ [("parameters", parameters_value (parameters item))]).

(** [v || {}]. *)
Definition orEmpty (v : value) : value :=
  if truthy v then v else VObj [].

(** [{ ...group, ...(child && { children: [child] }) }]. *)
Definition withChild (group : obj) (child : value) : obj :=
  if truthy child then obj_assign group [("children", VArr [child])]
  else group.

Section Registration.

(** The identifier sanitizer of [../lib/id], which is not part of the
    sources at hand: any function on strings. *)
Variable sanitize : string -> string.

(** The identifier of a group from its parent and its name:
    [sanitize(parent ? `${parent}-${name}` : name)]. *)
Definition idOf (parent : value) (name : value) : string :=
  sanitize (if truthy parent
            then toString parent ++ "-" ++ toString name
            else toString name).

(** One call of the reducer that maps the extra fields onto a group. *)
Definition extendGroup (root : option string) (soFar : list obj)
    (group : obj) (index : nat) (original : list obj) : obj :=
  let name := prop group "name" in
  let parent :=
    if (0 <? index)%nat then prop (nth (index - 1) soFar []) "id"
    else VBool false in
  let id := idOf parent name in
  obj_assign group
    [("id", VStr id);
     ("parent", parent);
     ("depth", VNum (Z.of_nat index));
     ("children", VArr []);
     ("isComponent", VBool (index =? List.length original - 1)%nat);
     ("isRoot", VBool (truthy_str root && (index =? 0)%nat))].

(** [todo.reduce((soFar, group, index, original) => ..., soFar)], with
    [index] the position of the head of [todo] in [original]. *)
Fixpoint reduceGroups (root : option string) (original : list obj)
    (todo : list obj) (index : nat) (soFar : list obj) : list obj :=
  match todo with
  | [] => soFar
  | group :: rest =>
      reduceGroups root original rest (S index)
        (soFar ++ [extendGroup root soFar group index original])
  end.

(** [[].concat(root || []).concat(groups).map(toGroup).reduce(...)]. *)
Definition rootAndGroups (root : option string) (groups : list string)
  : list obj :=
  let names := (if truthy_str root then [or_else root ""] else []) ++ groups in
  let original := map toGroup names in
  reduceGroups root original original 0 [].

(** The [forEach] that adds the groups to the store: each group is
    merged under its [id], with the next element of [paths] as child. *)
Fixpoint addGroups (paths : list value) (todo : list obj) (index : nat)
    (acc : obj) : obj :=
  match todo with
  | [] => acc
  | group :: rest =>
      let child := nth (index + 1) paths VUndefined in
      let id := toString (prop group "id") in
      let acc' :=
        obj_set id
          (merge (orEmpty (prop acc id)) (VObj (withChild group child)))
          acc in
      addGroups paths rest (S index) acc'
  end.

(** The reducer of [setStories] for one record. *)
Definition addStory (acc : obj) (item : StoryInput) : Outcome obj :=
  let rootSeparator := hierarchyRootSeparator (options (parameters item)) in
  let groupSeparator := hierarchySeparator (options (parameters item)) in
  let s := splitPath (kind item)
             {| rootSeparator := rootSeparator;
                groupSeparator := groupSeparator |} in
  let rootAndGroups := rootAndGroups (root s) (groups s) in
  let paths := map (fun g => prop g "id") rootAndGroups ++ [VStr (id item)] in
  (* Ok, now let's add everything to the store *)
  let acc := addGroups paths rootAndGroups 0 acc in
  (* rootAndGroups[rootAndGroups.length - 1] is undefined for an empty chain *)
  last <~ member (nth (List.length rootAndGroups - 1)
                      (map VObj rootAndGroups) VUndefined) "id" ;;
  let story := obj_assign (item_obj item) [("parent", last)] in
  Return (obj_set (id item) (VObj story) acc).

(** [Object.values(input).reduce(..., {})]: the mapping of a batch. *)
Definition buildHash (input : list StoryInput) : Outcome obj :=
  reduceO addStory input [].

Definition setStories (input : list StoryInput) : M unit :=
  storiesHash <- lift (buildHash input) ;;
  st <- getState ;;
  (if negb (truthy_str (storyId st))
      || negb (truthy (prop storiesHash (or_else (storyId st) "")))
   then
     (* when there's no storyId or the storyId item doesn't exist
        we pick the first leaf and navigate *)
     firstLeaf <- lift (findO (fun s => c <~ member s "children" ;;
                                        Return (negb (truthy c)))
                              (values storiesHash)) ;;
     match viewMode st, firstLeaf with
     | Some viewMode, Some firstLeaf =>
         if truthy (VStr viewMode) && truthy firstLeaf
         then navigate ("/" ++ viewMode ++ "/" ++ toString (get firstLeaf "id"))
         else ret tt
     | _, _ => ret tt
     end
   else ret tt) ;;;
  setState_storiesHash storiesHash.

End Registration.

(** ** Sample data for the scenarios *)

(** A regular expression that matches any one character of a set. *)
Definition charClass (src : string) (cs : list ascii) : RegExp :=
  {| source := src;
     exec_at := fun S q =>
       match String.get q S with
       | Some c => if existsb (Ascii.eqb c) cs then Some (1%nat, []) else None
       | None => None
       end |}.

(** Modelled from the spec: the default separators are configured
    outside the sources at hand; the scenarios split groups at a slash
    and have a root separator that does not occur in their paths.  Here
    the root separator is a vertical bar and the group separator a slash
    or a dot. *)
Definition defaultRootSeparator : RegExp := charClass "/\|/" ["|"%char].
Definition defaultGroupSeparator : RegExp := charClass "/\/|\./" ["/"%char; "."%char].

Definition lower (c : ascii) : ascii :=
  let n := nat_of_ascii c in
  if ((65 <=? n) && (n <=? 90))%nat then ascii_of_nat (n + 32) else c.

Fixpoint dashed (after_dash : bool) (cs : list ascii) : list ascii :=
  match cs with
  | [] => []
  | c :: r =>
      if is_alnum c then lower c :: dashed false r
      else if after_dash then dashed true r
      else "-"%char :: dashed true r
  end.

(** Modelled from the spec: [sanitize] of [../lib/id] is not among the
    sources; the spec asks for a deterministic, idempotent function into
    a restricted, URL-safe character set and names ["ui"] for ["UI"].
    This one lowers the case, turns every run of other characters into
    one dash and drops the dashes at both ends. *)
Definition sanitize_sample (s : string) : string :=
  let d := dashed true (list_ascii_of_string s) in
  string_of_list_ascii
    (match rev d with
     | c :: r => if Ascii.eqb c "-"%char then rev r else d
     | [] => d
     end).

(** A story of the given identifier and path, with the default
    separators and no [children]. *)
Definition storyOf (id kind : string) : StoryInput :=
  {| id := id; name := "default"; kind := kind; children := None;
     parameters :=
       {| filename := "stories.js";
          options := {| hierarchyRootSeparator := defaultRootSeparator;
                        hierarchySeparator := defaultGroupSeparator;
                        otherOptions := [] |};
          otherParameters := [] |} |}.

(** A world with an empty mapping. *)
Definition emptyWorld (viewMode storyId : option string) : World :=
  {| store := {| storiesHash := []; viewMode := viewMode; storyId := storyId |};
     navigated := [] |}.

(** ** Notions used in the statements *)

(** The names of the members of [Object.prototype], which every plain
    object inherits: a read of one of them on an object that has no own
    property of that name gives the inherited member, not [undefined]. *)
Definition objectPrototypeNames : list string :=
  ["constructor"; "hasOwnProperty"; "isPrototypeOf"; "propertyIsEnumerable";
   "toLocaleString"; "toString"; "valueOf"; "__proto__";
   "__defineGetter__"; "__defineSetter__"; "__lookupGetter__";
   "__lookupSetter__"].

Definition inherited (k : string) : bool :=
  existsb (String.eqb k) objectPrototypeNames.

(** An object that lodash takes for array-like and that is longer than
    an array can be: [copyArray] allocates [Array(length)], which throws
    a RangeError for such a length.  The embedding has no RangeError. *)
Definition longArrayLike (fs : obj) : bool :=
  match prop fs "length" with
  | VNum n => (4294967295 <? n)%Z && (n <=? 9007199254740991)%Z
  | _ => false
  end.

(** The values on which the embedding of [merge] is exact: at no depth
    is there a long array-like object, or a property named
    ["__proto__"] (which lodash, depending on the release, skips or
    merges into the prototype).  The statements on [merge] are about
    such values. *)
Fixpoint plainValue (v : value) : bool :=
  match v with
  | VArr xs =>
      (fix all (xs : list value) : bool :=
         match xs with
         | [] => true
         | x :: r => plainValue x && all r
         end) xs
  | VObj fs =>
      negb (longArrayLike fs) &&
      (fix all (fs : list (string * value)) : bool :=
         match fs with
         | [] => true
         | (k, x) :: r => negb (k =? "__proto__") && plainValue x && all r
         end) fs
  | _ => true
  end.

(** The identifier a group of the chain is stored under. *)
Definition groupKey (g : obj) : string := toString (prop g "id").

(** The keys one record contributes to the mapping: the identifiers of
    its chain of groups, then its own. *)
Definition itemKeys (sanitize : string -> string) (item : StoryInput)
  : list string :=
  let s := splitPath (kind item)
             {| rootSeparator := hierarchyRootSeparator (options (parameters item));
                groupSeparator := hierarchySeparator (options (parameters item)) |} in
  map groupKey (rootAndGroups sanitize (root s) (groups s)) ++ [id item].

(** No key that the records of a batch contribute to the mapping is
    ["__proto__"]. *)
Definition plainKeys (sanitize : string -> string) (batch : list StoryInput)
  : Prop :=
  forall item, In item batch -> ~ In "__proto__" (itemKeys sanitize item).

(** An entry of a mapping as [setStories] builds it: an object that has
    an array of [children], or has no [children] field and carries its
    own key as [id]. *)
Definition entry_ok (kv : string * value) : Prop :=
  exists fs, snd kv = VObj fs /\
    ((exists xs, lookup "children" fs = Some (VArr xs)) \/
     (lookup "children" fs = None /\ prop fs "id" = VStr (fst kv))).

(** An entry without a [children] field. *)
Definition isLeaf (v : value) : bool :=
  match v with
  | VObj fs => negb (has "children" fs)
  | _ => false
  end.

(** A mapping of the declared type [StoriesHash]: distinct keys, and
    every entry an object whose [children], when present, is an array. *)
Definition typedHash (m : obj) : Prop :=
  NoDup (keys m) /\
  Forall (fun v => exists fs, v = VObj fs /\
                   forall c, lookup "children" fs = Some c ->
                             exists xs, c = VArr xs) (values m).

(** The leaves of a mapping, in key order. *)
Definition leafKeys (m : obj) : list string :=
  map fst (filter (fun kv => isLeaf (snd kv)) m).

(** The path [navigate] is called with. *)
Definition pathTo (viewMode id : string) : string :=
  "/" ++ viewMode ++ "/" ++ id.

(** The test [!storyId || !storiesHash[storyId]] of [setStories], read
    on the keys: no selection, or a selection that is not a key. *)
Definition selectionAbsent (h : obj) (storyId : option string) : bool :=
  negb (truthy_str storyId) || negb (has (or_else storyId "") h).

(** The navigation calls of [setStories] on the mapping [h]: one, to the
    first leaf in key order, when the selection is absent, a view mode is
    set and there is a leaf; none otherwise. *)
Definition recoveryCalls (h : obj) (st : State) : list string :=
  if selectionAbsent h (storyId st) && truthy_str (viewMode st)
  then match hd_error (leafKeys h) with
       | Some leaf => [pathTo (or_else (viewMode st) "") leaf]
       | None => []
       end
  else [].

(** ** Notions used in the further statements *)

(** The children of an entry, as [jumpToComponent] copies them. *)
Definition childList (v : value) : list value :=
  match get v "children" with
  | VArr xs => xs
  | _ => []
  end.

(** The entries [jumpToComponent] collects: those whose [isComponent] is
    truthy. *)
Definition isComponentEntry (v : value) : bool :=
  truthy (get v "isComponent").

(** The lookup list of [jumpToComponent]: one list of children per
    component entry, in key order. *)
Definition componentLists (m : obj) : list (list value) :=
  map (fun kv => childList (snd kv))
      (filter (fun kv => isComponentEntry (snd kv)) m).

(** A typed mapping in which every component entry has its array of
    children, as the interface [Group] declares. *)
Definition typedComponents (m : obj) : Prop :=
  typedHash m /\
  Forall (fun v => isComponentEntry v = true ->
                   exists xs, get v "children" = VArr xs) (values m).

(** The world of a mapping, a view mode, a selection and the navigation
    calls made so far. *)
Definition worldOf (m : obj) (viewMode storyId : option string)
    (nav : list string) : World :=
  {| store := {| storiesHash := m; viewMode := viewMode; storyId := storyId |};
     navigated := nav |}.

(** ** Selection by kind and story name: [selectStory] *)

(** The matcher of [split] for a separator that is a string: the
    separator is matched literally at the position, without captures. *)
Definition stringSeparator (R : string) : RegExp :=
  {| source := R;
     exec_at := fun S q =>
       let r := String.length R in
       if (q + r <=? String.length S)%nat && (substring q r S =? R)
       then Some (r, [])
       else None |}.

Section Selection.

(** The identifier synthesis [toId] of [../lib/id], which is not part of
    the sources at hand: any function of the kind and the story name
    that returns an identifier or throws. *)
Variable toId : string -> string -> Outcome string.

(** [selectStory(kindOrId, story)]; the function calls itself once, with
    the synthesized identifier and no story name, and [fuel] bounds the
    depth of these calls. *)
Fixpoint selectStory_rec (fuel : nat) (kindOrId story : option string)
  : M unit :=
  match fuel with
  | O => ret tt
  | S fuel' =>
      st <- getState ;;
      (* const { viewMode = 'story', storyId } = store.getState() *)
      let viewMode := match viewMode st with
                      | Some v => v
                      | None => "story"
                      end in
      if negb (truthy_str story) then
        navigate ("/" ++ viewMode ++ "/"
                  ++ match kindOrId with
                     | Some k => k
                     | None => "undefined"
                     end)
      else if negb (truthy_str kindOrId) then
        match storyId st with
        | None => lift (Throw TypeError)
        | Some storyId =>
            (* storyId.split('--', 2)[0] *)
            match nth 0 (split storyId (stringSeparator "--") (Some 2%nat)) None with
            | Some kind =>
                id <- lift (toId kind (or_else story "")) ;;
                selectStory_rec fuel' (Some id) None
            | None => lift (Throw TypeError)
            end
        end
      else
        id <- lift (toId (or_else kindOrId "") (or_else story "")) ;;
        selectStory_rec fuel' (Some id) None
  end.

Definition selectStory (kindOrId story : option string) : M unit :=
  selectStory_rec 2 kindOrId story.

End Selection.

(** The world after one more navigation. *)
Definition navigated_to (w : World) (path : string) : World :=
  {| store := store w; navigated := navigated w ++ [path] |}.

(** The view mode [selectStory] navigates in: the default applies to an
    unset view mode only. *)
Definition selectMode (w : World) : string :=
  match viewMode (store w) with Some v => v | None => "story" end.

(** Modelled from the spec: an identifier synthesis [toId] for the
    examples, the sanitized kind and the sanitized story name joined by
    a double dash. *)
Definition toId_sample (kind story : string) : Outcome string :=
  Return (sanitize_sample kind ++ "--" ++ sanitize_sample story)%string.

(** ** Notions used in the statements on batches *)

(** The chain of groups of a record. *)
Definition chainOf (sanitize : string -> string) (item : StoryInput)
  : list obj :=
  let s := splitPath (kind item)
             {| rootSeparator := hierarchyRootSeparator (options (parameters item));
                groupSeparator := hierarchySeparator (options (parameters item)) |} in
  rootAndGroups sanitize (root s) (groups s).

(** A record whose path has no segment: neither a root nor a group. *)
Definition noSegment (item : StoryInput) : bool :=
  let s := splitPath (kind item)
             {| rootSeparator := hierarchyRootSeparator (options (parameters item));
                groupSeparator := hierarchySeparator (options (parameters item)) |} in
  negb (truthy_str (root s)) && (List.length (groups s) =? 0)%nat.

(** What holds of an entry without [children] in a mapping with the
    keys [K]: it carries its key as [id], it is a story, it has no
    [isComponent] field and its [parent] is one of the keys. *)
Definition leaf_ok (K : list string) (kv : string * value) : Prop :=
  forall fs, snd kv = VObj fs -> lookup "children" fs = None ->
    prop fs "id" = VStr (fst kv) /\
    isStory (VObj fs) = true /\
    lookup "isComponent" fs = None /\
    exists p, prop fs "parent" = VStr p /\ In p K.

(** ** The groups of a batch, visit by visit *)

(** The visits of a record: each group of its chain with the child it
    is given, which is the identifier of the next group and, for the
    last group, that of the story. *)
Definition visitsOf (sanitize : string -> string) (item : StoryInput)
  : list (obj * string) :=
  let chain := chainOf sanitize item in
  combine chain (tl (map groupKey chain) ++ [id item]).

Definition visits (sanitize : string -> string) (batch : list StoryInput)
  : list (obj * string) :=
  flat_map (visitsOf sanitize) batch.

(** One round of the [forEach] of [setStories], on a visit. *)
Definition visitStep (acc : obj) (v : obj * string) : obj :=
  obj_set (groupKey (fst v))
    (merge (orEmpty (prop acc (groupKey (fst v))))
           (VObj (withChild (fst v) (VStr (snd v)))))
    acc.

(** The children of the group [k] after one more visit: the child of a
    visit of [k] is added at the end unless it is empty or there
    already. *)
Definition childStep (k : string) (cs : list string) (v : obj * string)
  : list string :=
  if (groupKey (fst v) =? k) && negb (snd v =? "")
     && negb (existsb (String.eqb (snd v)) cs)
  then cs ++ [snd v] else cs.

Definition childrenAfter (k : string) (vs : list (obj * string)) : list string :=
  fold_left (childStep k) vs [].

(** The group of the last visit of [k]. *)
Definition lastStep (k : string) (cur : option obj) (v : obj * string)
  : option obj :=
  if groupKey (fst v) =? k then Some (fst v) else cur.

Definition lastVisit (k : string) (vs : list (obj * string)) : option obj :=
  fold_left (lastStep k) vs None.

(** The fields of a group other than [children]. *)
Definition scalarFields : list string :=
  ["name"; "id"; "parent"; "depth"; "isComponent"; "isRoot"].

(** A group as the reducer makes it: seven fields, the [parent] an
    identifier or [false]. *)
Definition groupShape (g : obj) : Prop :=
  exists name idv parent d c r,
    g = [("name", VStr name); ("id", VStr idv); ("parent", parent);
         ("depth", VNum d); ("children", VArr []);
         ("isComponent", VBool c); ("isRoot", VBool r)] /\
    (parent = VBool false \/ exists p, parent = VStr p).

(** The entry of a group in the mapping: the fields of the group [g]
    that visited last, and the children [cs]. *)
Definition groupEntry (fs g : obj) (cs : list string) : Prop :=
  NoDup (keys fs) /\
  lookup "children" fs = Some (VArr (map VStr cs)) /\
  forall f, In f scalarFields -> lookup f fs = lookup f g.

(** The mapping [acc] has the entries of the groups visited by [V]: the
    keys it is stated for are those of [GK]. *)
Definition groupsAfter (GK : string -> Prop) (V : list (obj * string))
    (acc : obj) : Prop :=
  forall k, GK k ->
    match lastVisit k V with
    | None => lookup k acc = None
    | Some g => exists fs, lookup k acc = Some (VObj fs) /\
                           groupEntry fs g (childrenAfter k V)
    end.

(** A mapping for the examples: two components, each with one story. *)
Definition twoComponents : obj :=
  [("a", VObj [("id", VStr "a"); ("children", VArr [VStr "a1"]);
               ("isComponent", VBool true)]);
   ("a1", VObj [("id", VStr "a1"); ("parent", VStr "a")]);
   ("b", VObj [("id", VStr "b"); ("children", VArr [VStr "b1"]);
               ("isComponent", VBool true)]);
   ("b1", VObj [("id", VStr "b1"); ("parent", VStr "b")])].

(** The entry [setStories] stores for a record: the record with the
    identifier of the last group of its chain as [parent]. *)
Definition storyEntry (sanitize : string -> string) (item : StoryInput)
  : value :=
  let chain := chainOf sanitize item in
  VObj (obj_assign (item_obj item)
          [("parent", VStr (groupKey (nth (List.length chain - 1) chain [])))]).

(** The last record of a batch that has the identifier [k]. *)
Definition lastWithId (k : string) (batch : list StoryInput)
  : option StoryInput :=
  fold_left (fun cur item => if id item =? k then Some item else cur) batch None.

(** A list of keys with one more key: a key that is there keeps its
    place, a new one goes to the end. *)
Definition keyStep (acc : list string) (k : string) : list string :=
  if existsb (String.eqb k) acc then acc else acc ++ [k].

(** The first occurrences of the keys of a list, in order. *)
Definition firstOccurrences (l : list string) : list string :=
  fold_left keyStep l [].

(** * Properties *)

(** The keys of a batch of sample records, none of which is
    ["__proto__"]. *)
Ltac plain_keys :=
  let item := fresh "item" in
  let Hin := fresh "Hin" in
  intros item Hin;
  repeat (destruct Hin as [<-|Hin]; [vm_compute; intuition discriminate|]);
  destruct Hin.

(** ** Objects *)

Lemma lookup_replace_prop_eq k v o :
  has k o = true -> lookup k (replace_prop k v o) = Some v.
Proof.
  unfold has. induction o as [|[k' v'] r IH]; simpl; [discriminate|].
  destruct (k =? k') eqn:E; simpl; rewrite E; auto.
Qed.

Lemma lookup_replace_prop_ne k k' v o :
  k <> k' -> lookup k (replace_prop k' v o) = lookup k o.
Proof.
  intros N. induction o as [|[k2 v2] r IH]; simpl; auto.
  destruct (k' =? k2) eqn:E; simpl.
  - apply String.eqb_eq in E; subst k2.
    apply String.eqb_neq in N. rewrite N; reflexivity.
  - rewrite IH; reflexivity.
Qed.

Lemma lookup_insert_index_eq n k v o :
  has k o = false -> lookup k (insert_index n k v o) = Some v.
Proof.
  unfold has. induction o as [|[k' v'] r IH]; simpl; intros H.
  - rewrite String.eqb_refl; reflexivity.
  - destruct (k =? k') eqn:E; [discriminate|].
    destruct (array_index k') as [n'|]; simpl.
    + destruct (n' <? n)%N; simpl.
      * rewrite E; auto.
      * rewrite String.eqb_refl; reflexivity.
    + rewrite String.eqb_refl; reflexivity.
Qed.

Lemma lookup_insert_index_ne n k k' v o :
  k <> k' -> lookup k (insert_index n k' v o) = lookup k o.
Proof.
  intros N. apply String.eqb_neq in N.
  induction o as [|[k2 v2] r IH]; simpl.
  - rewrite N; reflexivity.
  - destruct (array_index k2) as [n'|]; simpl.
    + destruct (n' <? n)%N; simpl.
      * rewrite IH; reflexivity.
      * rewrite N; reflexivity.
    + rewrite N; reflexivity.
Qed.

Lemma lookup_app k o1 o2 :
  lookup k (o1 ++ o2) =
  match lookup k o1 with Some v => Some v | None => lookup k o2 end.
Proof.
  induction o1 as [|[k' v'] r IH]; simpl; auto.
  destruct (k =? k'); auto.
Qed.

Lemma lookup_obj_set_eq k v o : lookup k (obj_set k v o) = Some v.
Proof.
  unfold obj_set. destruct (has k o) eqn:H.
  - apply lookup_replace_prop_eq; assumption.
  - destruct (array_index k).
    + apply lookup_insert_index_eq; assumption.
    + rewrite lookup_app. unfold has in H.
      destruct (lookup k o); [discriminate|].
      simpl. rewrite String.eqb_refl; reflexivity.
Qed.

Lemma lookup_obj_set_ne k k' v o :
  k <> k' -> lookup k (obj_set k' v o) = lookup k o.
Proof.
  intros N. unfold obj_set. destruct (has k' o).
  - apply lookup_replace_prop_ne; assumption.
  - destruct (array_index k').
    + apply lookup_insert_index_ne; assumption.
    + rewrite lookup_app. destruct (lookup k o); auto.
      simpl. apply String.eqb_neq in N. rewrite N; reflexivity.
Qed.

Lemma prop_obj_set_eq k v o : prop (obj_set k v o) k = v.
Proof. unfold prop. rewrite lookup_obj_set_eq; reflexivity. Qed.

Lemma prop_obj_set_ne k k' v o :
  k <> k' -> prop (obj_set k' v o) k = prop o k.
Proof. intros N. unfold prop. rewrite lookup_obj_set_ne; auto. Qed.

Lemma has_In_keys k o : has k o = true <-> In k (keys o).
Proof.
  unfold has, keys. induction o as [|[k' v'] r IH]; simpl.
  - split; [discriminate | tauto].
  - destruct (k =? k') eqn:E.
    + apply String.eqb_eq in E. subst. split; auto.
    + apply String.eqb_neq in E. rewrite IH. split; [tauto|].
      intros [H|H]; [congruence | assumption].
Qed.

Lemma lookup_In_keys k o : lookup k o <> None <-> In k (keys o).
Proof.
  rewrite <- has_In_keys. unfold has.
  destruct (lookup k o); split; congruence.
Qed.

Lemma In_keys_obj_set k k' v o :
  In k (keys (obj_set k' v o)) <-> k = k' \/ In k (keys o).
Proof.
  rewrite <- !lookup_In_keys.
  destruct (string_dec k k') as [->|N].
  - rewrite lookup_obj_set_eq. split; [auto | congruence].
  - rewrite lookup_obj_set_ne by assumption. tauto.
Qed.

Lemma lookup_In k v o : lookup k o = Some v -> In (k, v) o.
Proof.
  induction o as [|[k' v'] r IH]; simpl; [discriminate|].
  destruct (k =? k') eqn:E.
  - apply String.eqb_eq in E. intros [= ->]. subst. auto.
  - auto.
Qed.

Lemma NoDup_keys_lookup k v o :
  NoDup (keys o) -> In (k, v) o -> lookup k o = Some v.
Proof.
  induction o as [|[k' v'] r IH]; simpl; [tauto|].
  intros ND [E|H].
  - inversion E; subst. rewrite String.eqb_refl; reflexivity.
  - inversion ND; subst. destruct (k =? k') eqn:E.
    + apply String.eqb_eq in E. subst. exfalso. apply H2.
      change (In (fst (k', v)) (map fst r)). apply in_map; assumption.
    + auto.
Qed.

(** *** Distinct keys *)

Lemma keys_replace_prop k v o : keys (replace_prop k v o) = keys o.
Proof.
  unfold keys. induction o as [|[k' v'] r IH]; simpl; [reflexivity|].
  destruct (k =? k'); simpl; [reflexivity | rewrite IH; reflexivity].
Qed.

Lemma In_keys_insert_index n k' k v o :
  In k' (keys (insert_index n k v o)) <-> k' = k \/ In k' (keys o).
Proof.
  unfold keys. induction o as [|[k2 v2] r IH]; simpl.
  - intuition.
  - destruct (array_index k2) as [n'|]; [destruct (n' <? n)%N|]; simpl;
      try rewrite IH; intuition.
Qed.

Lemma NoDup_keys_insert_index n k v o :
  ~ In k (keys o) -> NoDup (keys o) -> NoDup (keys (insert_index n k v o)).
Proof.
  induction o as [|[k2 v2] r IH]; simpl; intros Hn ND.
  - repeat constructor. simpl. tauto.
  - inversion ND as [|? ? Hnin ND']; subst.
    destruct (array_index k2) as [n'|]; [destruct (n' <? n)%N|]; simpl.
    + constructor.
      * fold (keys (insert_index n k v r)). rewrite In_keys_insert_index.
        intros [->|H]; [apply Hn; left; reflexivity | contradiction].
      * apply IH; [tauto | assumption].
    + constructor; [exact Hn | exact ND].
    + constructor; [exact Hn | exact ND].
Qed.

Lemma NoDup_keys_obj_set k v o :
  NoDup (keys o) -> NoDup (keys (obj_set k v o)).
Proof.
  intros ND. unfold obj_set. destruct (has k o) eqn:H.
  - rewrite keys_replace_prop. assumption.
  - assert (Hn : ~ In k (keys o))
      by (rewrite <- has_In_keys; congruence).
    destruct (array_index k).
    + apply NoDup_keys_insert_index; assumption.
    + unfold keys in *. rewrite map_app. simpl.
      apply NoDup_app; [assumption | repeat constructor; simpl; tauto|].
      intros x Hx [<-|[]]. contradiction.
Qed.

Lemma keys_length_of_set (o : obj) (l : list string) :
  NoDup (keys o) -> NoDup l -> (forall k, In k (keys o) <-> In k l) ->
  List.length (keys o) = List.length l.
Proof.
  intros N1 N2 H. apply Permutation_length.
  apply NoDup_Permutation; assumption.
Qed.

(** ** The merge *)

Lemma fold_mergeField_cons k sv r object :
  fold_left mergeField ((k, sv) :: r) object =
  fold_left mergeField r (mergeKey (fun dest => baseMerge dest sv) object k sv).
Proof. reflexivity. Qed.

Lemma baseMerge_obj object fs :
  baseMerge object (VObj fs) = fold_left mergeField fs object.
Proof.
  revert object. induction fs as [|[k sv] r IH]; intros object; [reflexivity|].
  simpl. simpl in IH. rewrite IH. reflexivity.
Qed.

Lemma assignMergeValue_record fs k v :
  exists fs', assignMergeValue (VObj fs) k v = VObj fs'.
Proof.
  unfold assignMergeValue, assign_dest.
  destruct (is_undefined v); [destruct (has_key (VObj fs) k)|]; eauto.
Qed.

Lemma assignMergeValue_array xs k v :
  exists xs', assignMergeValue (VArr xs) k v = VArr xs'.
Proof.
  unfold assignMergeValue, assign_dest.
  destruct (is_undefined v); [destruct (has_key (VArr xs) k)|];
    destruct (array_index k); eauto.
Qed.

Lemma mergeKey_record rec fs k sv :
  exists fs', mergeKey rec (VObj fs) k sv = VObj fs'.
Proof.
  unfold mergeKey.
  destruct (isObject sv);
    [destruct (negb (is_undefined (customizer (get (VObj fs) k) sv)));
       [|destruct sv]|];
    apply assignMergeValue_record.
Qed.

Lemma mergeKey_array rec xs k sv :
  exists xs', mergeKey rec (VArr xs) k sv = VArr xs'.
Proof.
  unfold mergeKey.
  destruct (isObject sv);
    [destruct (negb (is_undefined (customizer (get (VArr xs) k) sv)));
       [|destruct sv]|];
    apply assignMergeValue_array.
Qed.

Lemma fold_mergeField_record fs d :
  exists d', fold_left mergeField fs (VObj d) = VObj d'.
Proof.
  revert d. induction fs as [|[k sv] r IH]; intros d; [simpl; eauto|].
  rewrite fold_mergeField_cons.
  destruct (mergeKey_record (fun dest => baseMerge dest sv) d k sv) as [d1 E].
  rewrite E. apply IH.
Qed.

Lemma baseMerge_array_dest d xs :
  exists d', baseMerge (VArr d) (VArr xs) = VArr d'.
Proof.
  simpl. generalize 0%nat. revert d.
  induction xs as [|sv r IH]; intros d i; [eauto|].
  destruct (mergeKey_array (fun dest => baseMerge dest sv) d (index_key i) sv)
    as [d1 E].
  rewrite E. apply IH.
Qed.

Lemma get_assignMergeValue_ne fs k k' v :
  k <> k' -> get (assignMergeValue (VObj fs) k' v) k = get (VObj fs) k.
Proof.
  intros N. unfold assignMergeValue, assign_dest.
  destruct (is_undefined v); [destruct (has_key (VObj fs) k')|]; simpl;
    auto using prop_obj_set_ne.
Qed.

Lemma get_mergeKey_ne rec fs k k' sv :
  k <> k' -> get (mergeKey rec (VObj fs) k' sv) k = get (VObj fs) k.
Proof.
  intros N. unfold mergeKey.
  destruct (isObject sv);
    [destruct (negb (is_undefined (customizer (get (VObj fs) k') sv)));
       [|destruct sv]|];
    apply get_assignMergeValue_ne; assumption.
Qed.

(** A key that the source does not have keeps its value. *)
Lemma get_fold_mergeField_absent fs d k :
  lookup k fs = None ->
  get (fold_left mergeField fs (VObj d)) k = get (VObj d) k.
Proof.
  revert d. induction fs as [|[k' sv] r IH]; intros d; [reflexivity|].
  rewrite fold_mergeField_cons. simpl.
  destruct (k =? k') eqn:E; [discriminate|]. intros H.
  apply String.eqb_neq in E.
  destruct (mergeKey_record (fun dest => baseMerge dest sv) d k' sv) as [d1 E1].
  rewrite E1, IH by assumption. rewrite <- E1.
  apply get_mergeKey_ne; assumption.
Qed.

(** A key of the source is settled by its own round of the merge, run on
    a destination that agrees with the initial one at that key. *)
Lemma get_fold_mergeField_present fs d k sv :
  NoDup (keys fs) -> lookup k fs = Some sv ->
  exists d', get (VObj d') k = get (VObj d) k /\
             get (fold_left mergeField fs (VObj d)) k =
             get (mergeKey (fun dest => baseMerge dest sv) (VObj d') k sv) k.
Proof.
  revert d. induction fs as [|[k' sv'] r IH]; intros d ND; [discriminate|].
  rewrite fold_mergeField_cons. simpl.
  inversion ND as [|? ? Hnin ND']; subst.
  destruct (mergeKey_record (fun dest => baseMerge dest sv') d k' sv') as [d1 E1].
  destruct (k =? k') eqn:E.
  - apply String.eqb_eq in E. subst k'. intros [= ->].
    exists d. split; [reflexivity|].
    rewrite E1. rewrite get_fold_mergeField_absent.
    + rewrite <- E1. reflexivity.
    + destruct (lookup k r) eqn:L; [|reflexivity].
      exfalso. apply Hnin. apply lookup_In_keys. congruence.
  - apply String.eqb_neq in E. intros L.
    rewrite E1. destruct (IH d1 ND' L) as [d' [G1 G2]].
    exists d'. split; [|assumption].
    transitivity (get (VObj d1) k); [exact G1|].
    rewrite <- E1. apply get_mergeKey_ne; assumption.
Qed.

Lemma customizer_scalar objValue sv :
  isObject sv = false -> isArray objValue = false ->
  customizer objValue sv = VUndefined.
Proof. destruct sv, objValue; simpl; congruence. Qed.

Lemma get_assignMergeValue_eq fs k v :
  get (assignMergeValue (VObj fs) k v) k =
  if is_undefined v then get (VObj fs) k else v.
Proof.
  unfold assignMergeValue, assign_dest.
  destruct (is_undefined v) eqn:U.
  - destruct (has_key (VObj fs) k) eqn:H; [reflexivity|].
    simpl. rewrite prop_obj_set_eq. destruct v; try discriminate.
    simpl in H. unfold has in H. unfold prop.
    destruct (lookup k fs); [discriminate | reflexivity].
  - simpl. apply prop_obj_set_eq.
Qed.

(** The round of a scalar source value: it is stored, unless it is
    [undefined] or the destination holds an array. *)
Lemma get_mergeKey_scalar rec fs k sv :
  isObject sv = false -> isArray (get (VObj fs) k) = false ->
  get (mergeKey rec (VObj fs) k sv) k =
  if is_undefined sv then get (VObj fs) k else sv.
Proof.
  intros S A. unfold mergeKey. rewrite S.
  rewrite (customizer_scalar _ _ S A). simpl.
  apply get_assignMergeValue_eq.
Qed.

(** The round of an array source value leaves an array. *)
Lemma get_mergeKey_array_src fs k src :
  exists xs,
    get (mergeKey (fun dest => baseMerge dest (VArr src)) (VObj fs) k (VArr src)) k
    = VArr xs.
Proof.
  unfold mergeKey. cbn [isObject].
  destruct (get (VObj fs) k) eqn:G;
    try (cbn [customizer is_undefined negb isArray array_like_length];
         destruct (baseMerge_array_dest [] src) as [d' E]; rewrite E;
         rewrite get_assignMergeValue_eq; simpl; eauto; fail).
  - cbn [customizer is_undefined negb].
    rewrite get_assignMergeValue_eq. simpl. eauto.
  - cbn [customizer is_undefined negb isArray].
    destruct (array_like_length (VObj fs0)) as [n|].
    + unfold copyArray.
      destruct (baseMerge_array_dest
                  (map (fun i => get (VObj fs0) (index_key i)) (seq 0 n)) src)
        as [d' E].
      rewrite E, get_assignMergeValue_eq. simpl. eauto.
    + destruct (baseMerge_array_dest [] src) as [d' E]. rewrite E.
      rewrite get_assignMergeValue_eq. simpl. eauto.
Qed.

Lemma merge_records a b :
  merge (VObj a) (VObj b) =
  fold_left mergeField b (fold_left mergeField a (VObj [])).
Proof.
  unfold merge, mergeWith. cbn [fold_left truthy].
  rewrite !baseMerge_obj. reflexivity.
Qed.

Lemma merge_is_record a b : exists fs, merge (VObj a) (VObj b) = VObj fs.
Proof.
  rewrite merge_records.
  destruct (fold_mergeField_record a []) as [d E]. rewrite E.
  apply fold_mergeField_record.
Qed.

(** C3 (counterexample): with [depth] a number on both sides, the merge
    holds the incoming 1 and not the existing 0. *)
Lemma merge_scalar_existing_loses :
  let existing := VObj [("depth", VNum 0)] in
  let incoming := VObj [("depth", VNum 1)] in
  get (merge existing incoming) "depth" = VNum 1 /\
  get (merge existing incoming) "depth" <> get existing "depth".
Proof. simpl. split; [reflexivity | discriminate]. Qed.

(** C3 (as amended): for [merge(existing, incoming)] on objects that
    hold, at any depth, no array-like object longer than an array can
    be (on which lodash throws a RangeError) and no property named
    ["__proto__"]: a key present on both sides with scalar values
    (neither an object nor an array), and that is no name of a member
    of [Object.prototype], holds the incoming value in the result; only
    an incoming [undefined] leaves the existing value in place. *)
Theorem merge_scalar_incoming_wins (existing incoming : obj)
    (k : string) (va vb : value) :
  plainValue (VObj existing) = true -> plainValue (VObj incoming) = true ->
  inherited k = false ->
  NoDup (keys existing) -> NoDup (keys incoming) ->
  lookup k existing = Some va -> lookup k incoming = Some vb ->
  isObject va = false -> isObject vb = false ->
  get (merge (VObj existing) (VObj incoming)) k =
  if is_undefined vb then va else vb.
Proof.
  intros _ _ _ NDa NDb La Lb Sa Sb.
  rewrite merge_records.
  destruct (fold_mergeField_record existing []) as [d E]. rewrite E.
  assert (Gd : get (VObj d) k = va).
  { rewrite <- E.
    destruct (get_fold_mergeField_present existing [] k va NDa La)
      as [d0 [G0 G1]].
    rewrite G1, get_mergeKey_scalar; auto.
    - rewrite G0. destruct va; try reflexivity; discriminate.
    - rewrite G0. reflexivity. }
  destruct (get_fold_mergeField_present incoming d k vb NDb Lb) as [d1 [G0 G1]].
  rewrite G1, get_mergeKey_scalar; auto.
  - rewrite G0, Gd. reflexivity.
  - rewrite G0, Gd. destruct va; try reflexivity; discriminate.
Qed.

Lemma merge_scalar_incoming_wins_witness :
  get (merge (VObj [("name", VStr "UI"); ("isComponent", VBool true)])
             (VObj [("isComponent", VBool false); ("depth", VNum 0)]))
      "isComponent" = VBool false.
Proof.
  apply (merge_scalar_incoming_wins
           [("name", VStr "UI"); ("isComponent", VBool true)]
           [("isComponent", VBool false); ("depth", VNum 0)]
           "isComponent" (VBool true) (VBool false)).
  - reflexivity.
  - reflexivity.
  - reflexivity.
  - repeat constructor; simpl; intuition discriminate.
  - repeat constructor; simpl; intuition discriminate.
  - reflexivity.
  - reflexivity.
  - reflexivity.
  - reflexivity.
Defined.

(** ** Splitting *)

Lemma substring_all s : substring 0 (String.length s) s = s.
Proof. induction s as [|c r IH]; simpl; [reflexivity | rewrite IH; reflexivity]. Qed.

Lemma split_loop_no_match R S lim fuel p q A :
  (forall i, exec_at R S i = None) ->
  split_loop R S lim fuel p q A =
  A ++ [Some (substring p (String.length S - p) S)].
Proof.
  intros H. revert q. induction fuel as [|f IH]; intros q; simpl; [reflexivity|].
  destruct (String.length S <=? q)%nat; [reflexivity|].
  rewrite H. apply IH.
Qed.

(** Without a match of the separator the string stays in one piece. *)
Lemma split_no_match S R lim :
  limit_reached lim [] = false ->
  (forall i, exec_at R S i = None) ->
  split S R lim = [Some S].
Proof.
  intros L H. unfold split. rewrite L.
  destruct (String.length S =? 0)%nat; [rewrite H; reflexivity|].
  rewrite split_loop_no_match by assumption.
  simpl. rewrite Nat.sub_0_r, substring_all. reflexivity.
Qed.

(** The rounds the loop still needs from [(p, q)]. *)
Lemma split_loop_fuel R S lim f1 : forall f2 p q A,
  (p <= q)%nat ->
  (2 * (String.length S - q) + (if (p <? q)%nat then 1 else 0) <= f1)%nat ->
  (2 * (String.length S - q) + (if (p <? q)%nat then 1 else 0) <= f2)%nat ->
  split_loop R S lim f1 p q A = split_loop R S lim f2 p q A.
Proof.
  induction f1 as [|f1 IH]; intros f2 p q A Hpq H1 H2.
  - destruct f2 as [|f2]; [reflexivity|]. simpl.
    destruct (String.length S <=? q)%nat eqn:E; [reflexivity|].
    apply Nat.leb_gt in E. lia.
  - simpl. destruct (String.length S <=? q)%nat eqn:E.
    + destruct f2; simpl; [|rewrite E]; reflexivity.
    + pose proof (proj1 (Nat.leb_gt _ _) E) as E'.
      destruct f2 as [|f2]; [lia|]. simpl. rewrite E.
      assert (Hstep : forall A',
                 split_loop R S lim f1 p (q + 1) A' =
                 split_loop R S lim f2 p (q + 1) A').
      { intros A'. apply IH; [lia| |];
          destruct (p <? q + 1)%nat; destruct (p <? q)%nat eqn:E2;
            try apply Nat.ltb_ge in E2; lia. }
      destruct (exec_at R S q) as [[n caps]|]; [|apply Hstep].
      destruct (Nat.min (q + n) (String.length S) =? p)%nat eqn:Ep; [apply Hstep|].
      apply Nat.eqb_neq in Ep.
      destruct (limit_reached lim (A ++ [Some (substring p (q - p) S)]));
        [reflexivity|].
      destruct (push_captures lim (A ++ [Some (substring p (q - p) S)]) caps)
        as [A2 full].
      destruct full; [reflexivity|].
      set (e := Nat.min (q + n) (String.length S)) in *.
      assert (q <= e)%nat by (unfold e; lia).
      apply IH; [lia| |]; rewrite Nat.ltb_irrefl;
        destruct (p <? q)%nat eqn:E2; try apply Nat.ltb_ge in E2; lia.
Qed.




Lemma filter_truthy_nonempty pieces :
  Forall (fun g => g <> "") (filter_truthy pieces).
Proof.
  induction pieces as [|[s|] r IH]; simpl; auto.
  destruct (s =? "") eqn:E; auto.
  constructor; auto. apply String.eqb_neq; assumption.
Qed.





(** ** The chain of groups *)

Section Chain.

Variable sanitize : string -> string.

Lemma extendGroup_toGroup root soFar name index original :
  extendGroup sanitize root soFar (toGroup name) index original =
  let parent :=
    if (0 <? index)%nat then prop (nth (index - 1) soFar []) "id"
    else VBool false in
  [("name", VStr name);
   ("id", VStr (idOf sanitize parent (VStr name)));
   ("parent", parent);
   ("depth", VNum (Z.of_nat index));
   ("children", VArr []);
   ("isComponent", VBool (index =? List.length original - 1)%nat);
   ("isRoot", VBool (truthy_str root && (index =? 0)%nat))].
Proof. reflexivity. Qed.

Lemma nth_firstn_lt {A} (l : list A) n j d :
  (j < n)%nat -> nth j (firstn n l) d = nth j l d.
Proof.
  revert n j. induction l as [|x r IH]; intros n j H.
  - rewrite firstn_nil. reflexivity.
  - destruct n as [|n]; [lia|]. destruct j as [|j]; simpl; [reflexivity|].
    apply IH. lia.
Qed.

(** The reducer appends one extended group per element of [todo]; each
    is computed from the groups before it. *)
Lemma reduceGroups_spec root original todo : forall index soFar,
  List.length soFar = index ->
  let res := reduceGroups sanitize root original todo index soFar in
  List.length res = (index + List.length todo)%nat /\
  firstn index res = soFar /\
  forall j group, nth_error todo j = Some group ->
    nth_error res (index + j) =
    Some (extendGroup sanitize root (firstn (index + j) res) group
            (index + j) original).
Proof.
  induction todo as [|g rest IH]; intros index soFar L; cbn zeta.
  - simpl. repeat split.
    + lia.
    + subst index. apply firstn_all.
    + intros [|j] group; discriminate.
  - simpl reduceGroups.
    set (eg := extendGroup sanitize root soFar g index original).
    destruct (IH (S index) (soFar ++ [eg])) as [L1 [F1 N1]].
    { rewrite length_app. simpl. lia. }
    set (res := reduceGroups sanitize root original rest (S index)
                  (soFar ++ [eg])) in *.
    assert (F0 : firstn index res = soFar).
    { replace index with (Nat.min index (S index)) at 1 by lia.
      rewrite <- firstn_firstn, F1.
      rewrite firstn_app, <- L, firstn_all, Nat.sub_diag. simpl.
      apply app_nil_r. }
    repeat split.
    + simpl. lia.
    + assumption.
    + intros [|j] group H.
      * simpl in H. injection H as <-.
        rewrite Nat.add_0_r, F0.
        rewrite <- (firstn_skipn (S index) res), F1.
        rewrite nth_error_app1 by (rewrite length_app; simpl; lia).
        rewrite nth_error_app2 by lia.
        rewrite L, Nat.sub_diag. reflexivity.
      * simpl in H. replace (index + S j)%nat with (S index + j)%nat by lia.
        apply N1. assumption.
Qed.

(** C6 (as amended): the chain has one group per segment (the root,
    when it is a non-empty string, then the groups), and at each index
    [i]: [name] is the segment text; [parent] is the [id] of the
    previous element, or [false] at [i = 0]; [id] is the synthesis
    [idOf] of parent and name; [depth] is [i]; [isComponent] holds
    exactly at the last index; [isRoot] holds exactly when the root is
    a non-empty string and [i = 0]; [children] is empty. *)
Theorem rootAndGroups_chain (s : PathSplit) :
  let names :=
    (if truthy_str (root s) then [or_else (root s) ""] else []) ++ groups s in
  let chain := rootAndGroups sanitize (root s) (groups s) in
  List.length chain = List.length names /\
  forall i name, nth_error names i = Some name ->
    exists g, nth_error chain i = Some g /\
      prop g "name" = VStr name /\
      prop g "parent" =
        match i with
        | O => VBool false
        | S j => prop (nth j chain []) "id"
        end /\
      prop g "id" = VStr (idOf sanitize (prop g "parent") (VStr name)) /\
      prop g "depth" = VNum (Z.of_nat i) /\
      prop g "isComponent" = VBool (S i =? List.length names)%nat /\
      prop g "isRoot" = VBool (truthy_str (root s) && (i =? 0)%nat) /\
      prop g "children" = VArr [].
Proof.
  intros names chain.
  destruct (reduceGroups_spec (root s) (map toGroup names) (map toGroup names)
              0 [] eq_refl) as [L [_ N]].
  fold names in L, N. change (reduceGroups sanitize (root s) (map toGroup names)
                                (map toGroup names) 0 []) with chain in L, N.
  rewrite length_map in L. split; [exact L|].
  intros i name Hi.
  specialize (N i (toGroup name) (map_nth_error toGroup i names Hi)).
  simpl in N. rewrite extendGroup_toGroup in N. cbn zeta in N.
  eexists. split; [exact N|].
  assert (Hlen : (i < List.length names)%nat)
    by (apply nth_error_Some; congruence).
  repeat split.
  - destruct i as [|j]; [reflexivity|].
    cbn [prop lookup String.eqb Ascii.eqb Bool.eqb].
    replace (0 <? S j)%nat with true by reflexivity.
    rewrite nth_firstn_lt by lia.
    replace (S j - 1)%nat with j by lia. reflexivity.
  - rewrite length_map.
    cbn [prop lookup String.eqb Ascii.eqb Bool.eqb].
    f_equal. apply Bool.eq_iff_eq_true. rewrite !Nat.eqb_eq. lia.
Qed.

End Chain.

(** C6 (counterexample): the path ["|a"] splits into the root [""],
    which is not [null], and the group ["a"]; the first element of the
    chain is not marked as root. *)
Lemma rootAndGroups_empty_root :
  let s := splitPath "|a" {| rootSeparator := defaultRootSeparator;
                             groupSeparator := defaultGroupSeparator |} in
  root s = Some "" /\ root s <> None /\ groups s = ["a"] /\
  exists g, nth_error (rootAndGroups sanitize_sample (root s) (groups s)) 0 = Some g /\
            prop g "isRoot" = VBool false /\
            prop g "isRoot" <> VBool true.
Proof.
  cbv zeta. split; [reflexivity|]. split; [discriminate|].
  split; [reflexivity|]. eexists. split; [reflexivity|].
  split; [reflexivity | discriminate].
Qed.

Lemma rootAndGroups_chain_witness :
  exists g,
    nth_error (rootAndGroups sanitize_sample (Some "Design") ["UI"; "Button"]) 1
    = Some g /\
    prop g "name" = VStr "UI" /\
    prop g "isComponent" = VBool false /\
    prop g "isRoot" = VBool false.
Proof.
  destruct (proj2 (rootAndGroups_chain sanitize_sample
                     {| root := Some "Design"; groups := ["UI"; "Button"] |})
                  1%nat "UI" eq_refl)
    as [g [H0 [H1 [_ [_ [_ [H5 [H6 _]]]]]]]].
  exists g. repeat split; assumption.
Defined.

(** ** The mapping of a batch *)

Lemma In_replace_prop kv k v o :
  In kv (replace_prop k v o) -> kv = (k, v) \/ In kv o.
Proof.
  induction o as [|[k' v'] r IH]; simpl; [tauto|].
  destruct (k =? k') eqn:E; simpl.
  - apply String.eqb_eq in E. subst. intros [H|H]; auto.
  - intros [H|H]; auto. destruct (IH H); auto.
Qed.

Lemma In_insert_index kv n k v o :
  In kv (insert_index n k v o) -> kv = (k, v) \/ In kv o.
Proof.
  induction o as [|[k' v'] r IH]; simpl.
  - intros [H|[]]; auto.
  - destruct (array_index k') as [n'|]; [destruct (n' <? n)%N|]; simpl.
    + intros [H|H]; auto. destruct (IH H); auto.
    + intros [H|[H|H]]; auto.
    + intros [H|[H|H]]; auto.
Qed.

Lemma In_obj_set kv k v o :
  In kv (obj_set k v o) -> kv = (k, v) \/ In kv o.
Proof.
  unfold obj_set. destruct (has k o).
  - apply In_replace_prop.
  - destruct (array_index k).
    + apply In_insert_index.
    + intros H. apply in_app_or in H. destruct H as [H|[H|[]]]; auto.
Qed.

Lemma Forall_obj_set (P : string * value -> Prop) k v o :
  P (k, v) -> Forall P o -> Forall P (obj_set k v o).
Proof.
  intros Hk Ho. apply Forall_forall. intros kv H.
  destruct (In_obj_set _ _ _ _ H) as [->|H']; [assumption|].
  rewrite Forall_forall in Ho. auto.
Qed.

Section Batch.

Variable sanitize : string -> string.

(** Every group of a chain is the seven-field object of the reducer. *)
Lemma chain_shape root gs g :
  In g (rootAndGroups sanitize root gs) ->
  exists name idv parent d c r,
    g = [("name", VStr name); ("id", VStr idv); ("parent", parent);
         ("depth", VNum d); ("children", VArr []);
         ("isComponent", VBool c); ("isRoot", VBool r)].
Proof.
  intros H. apply In_nth_error in H. destruct H as [i Hi].
  unfold rootAndGroups in Hi.
  set (names := (if truthy_str root then [or_else root ""] else []) ++ gs) in *.
  destruct (reduceGroups_spec sanitize root (map toGroup names)
              (map toGroup names) 0 [] eq_refl) as [L [_ N]].
  simpl in L, N. rewrite length_map in L.
  assert (Hlt : (i < List.length names)%nat)
    by (rewrite <- L; apply nth_error_Some; congruence).
  destruct (nth_error names i) as [name|] eqn:E;
    [|apply nth_error_None in E; lia].
  specialize (N i (toGroup name) (map_nth_error toGroup i _ E)).
  rewrite N in Hi. injection Hi as <-.
  rewrite extendGroup_toGroup. cbn zeta. repeat eexists.
Qed.

Lemma keys_addGroups paths todo : forall index acc k,
  In k (keys (addGroups paths todo index acc)) <->
  In k (keys acc) \/ In k (map groupKey todo).
Proof.
  induction todo as [|g rest IH]; intros index acc k; simpl.
  - tauto.
  - rewrite IH, In_keys_obj_set. unfold groupKey. intuition.
Qed.

Lemma addStory_keys acc item acc' k :
  addStory sanitize acc item = Return acc' ->
  (In k (keys acc') <-> In k (keys acc) \/ In k (itemKeys sanitize item)).
Proof.
  unfold addStory, itemKeys.
  set (s := splitPath _ _). set (chain := rootAndGroups sanitize _ _).
  destruct (member _ "id") as [last|e]; simpl; [|discriminate].
  intros [= <-].
  rewrite In_keys_obj_set, keys_addGroups, in_app_iff. simpl. intuition.
Qed.

Lemma reduce_addStory_keys batch : forall acc h k,
  reduceO (addStory sanitize) batch acc = Return h ->
  (In k (keys h) <->
   In k (keys acc) \/ exists item, In item batch /\ In k (itemKeys sanitize item)).
Proof.
  induction batch as [|item rest IH]; intros acc h k; simpl.
  - intros [= <-]. split; [auto|]. intros [H|[item [[] _]]]. assumption.
  - destruct (addStory sanitize acc item) as [acc'|e] eqn:E; simpl; [|discriminate].
    intros H. rewrite (IH _ _ _ H), (addStory_keys _ _ _ k E).
    split.
    + intros [[H1|H1]|[it [H1 H2]]]; eauto.
    + intros [H1|[it [[<-|H1] H2]]]; eauto.
Qed.

Lemma buildHash_keys batch h k :
  buildHash sanitize batch = Return h ->
  (In k (keys h) <-> exists item, In item batch /\ In k (itemKeys sanitize item)).
Proof.
  intros H. rewrite (reduce_addStory_keys _ _ _ k H). simpl. tauto.
Qed.

End Batch.

(** Merging a group that has an array of [children] gives an object
    with an array of [children]. *)
Lemma merge_children_array x g cs :
  NoDup (keys g) -> lookup "children" g = Some (VArr cs) ->
  exists fs xs, merge (VObj x) (VObj g) = VObj fs /\
                lookup "children" fs = Some (VArr xs).
Proof.
  intros ND L.
  destruct (merge_is_record x g) as [fs E]. exists fs.
  assert (G : exists xs, get (VObj fs) "children" = VArr xs).
  { rewrite <- E, merge_records.
    destruct (fold_mergeField_record x []) as [d Ed]. rewrite Ed.
    destruct (get_fold_mergeField_present g d "children" (VArr cs) ND L)
      as [d' [_ G1]].
    rewrite G1. apply get_mergeKey_array_src. }
  destruct G as [xs G]. exists xs. split; [assumption|].
  simpl in G. unfold prop in G.
  destruct (lookup "children" fs); [congruence | discriminate].
Qed.

Lemma entry_record acc k :
  Forall entry_ok acc ->
  exists x, orEmpty (prop acc k) = VObj x.
Proof.
  intros Hacc. unfold orEmpty, prop. destruct (lookup k acc) as [v|] eqn:L.
  - apply lookup_In in L. rewrite Forall_forall in Hacc.
    destruct (Hacc _ L) as [fs [Hfs _]]. simpl in Hfs. subst v. simpl. eauto.
  - simpl. eauto.
Qed.

Lemma story_entry_ok item last :
  entry_ok (id item, VObj (obj_assign (item_obj item) [("parent", last)])).
Proof.
  unfold entry_ok. eexists. split; [reflexivity|].
  unfold item_obj. destruct (children item) as [cs|].
  - left. eexists. reflexivity.
  - right. split; reflexivity.
Qed.

Section BatchEntries.

Variable sanitize : string -> string.

Lemma merged_group_ok acc g child :
  Forall entry_ok acc ->
  (exists name idv parent d c r,
      g = [("name", VStr name); ("id", VStr idv); ("parent", parent);
           ("depth", VNum d); ("children", VArr []);
           ("isComponent", VBool c); ("isRoot", VBool r)]) ->
  entry_ok
    (groupKey g,
     merge (orEmpty (prop acc (groupKey g))) (VObj (withChild g child))).
Proof.
  intros Hacc [name [idv [parent [d [c [r ->]]]]]].
  destruct (entry_record acc
              (groupKey [("name", VStr name); ("id", VStr idv);
                         ("parent", parent); ("depth", VNum d);
                         ("children", VArr []);
                         ("isComponent", VBool c); ("isRoot", VBool r)])
              Hacc) as [x ->].
  match goal with
  | |- entry_ok (_, merge _ (VObj ?g0)) =>
      assert (Hm : exists cs, NoDup (keys g0) /\ lookup "children" g0 = Some (VArr cs))
  end.
  { unfold withChild. destruct (truthy child); eexists; (split; [|reflexivity]);
      repeat constructor; simpl; intuition discriminate. }
  destruct Hm as [cs [ND L]].
  destruct (merge_children_array x _ cs ND L) as [fs [xs [E Lc]]].
  rewrite E. exists fs. split; [reflexivity|]. left. eauto.
Qed.

Lemma addGroups_ok paths root gs todo : forall index acc,
  incl todo (rootAndGroups sanitize root gs) ->
  Forall entry_ok acc ->
  Forall entry_ok (addGroups paths todo index acc).
Proof.
  induction todo as [|g rest IH]; intros index acc Hin Hacc; [assumption|].
  cbn [addGroups]. cbv zeta.
  apply IH; [intros x Hx; apply Hin; right; assumption|].
  apply Forall_obj_set; [|assumption].
  apply merged_group_ok; [assumption|].
  apply (chain_shape sanitize root gs). apply Hin. left. reflexivity.
Qed.

Lemma addStory_ok acc item acc' :
  Forall entry_ok acc ->
  addStory sanitize acc item = Return acc' ->
  Forall entry_ok acc'.
Proof.
  intros Hacc. unfold addStory.
  set (s := splitPath _ _). set (chain := rootAndGroups sanitize _ _).
  destruct (member _ "id") as [last|e]; simpl; [|discriminate].
  intros [= <-].
  apply Forall_obj_set; [apply story_entry_ok|].
  apply (addGroups_ok _ (root s) (groups s)); [apply incl_refl | assumption].
Qed.

Lemma reduce_addStory_ok batch : forall acc h,
  Forall entry_ok acc ->
  reduceO (addStory sanitize) batch acc = Return h ->
  Forall entry_ok h.
Proof.
  induction batch as [|item rest IH]; intros acc h Hacc; simpl.
  - intros [= <-]. assumption.
  - destruct (addStory sanitize acc item) as [acc'|e] eqn:E; simpl; [|discriminate].
    apply IH. eapply addStory_ok; eassumption.
Qed.

Lemma buildHash_ok batch h :
  buildHash sanitize batch = Return h -> Forall entry_ok h.
Proof. apply reduce_addStory_ok. constructor. Qed.

Lemma addGroups_NoDup paths todo : forall index acc,
  NoDup (keys acc) -> NoDup (keys (addGroups paths todo index acc)).
Proof.
  induction todo as [|g rest IH]; intros index acc ND; [assumption|].
  cbn [addGroups]. cbv zeta. apply IH. apply NoDup_keys_obj_set. assumption.
Qed.

Lemma reduce_addStory_NoDup batch : forall acc h,
  NoDup (keys acc) ->
  reduceO (addStory sanitize) batch acc = Return h ->
  NoDup (keys h).
Proof.
  induction batch as [|item rest IH]; intros acc h ND; simpl.
  - intros [= <-]. assumption.
  - destruct (addStory sanitize acc item) as [acc'|e] eqn:E; simpl; [|discriminate].
    apply IH. revert E. unfold addStory.
    destruct (member _ "id") as [last|e]; simpl; [|discriminate].
    intros [= <-]. apply NoDup_keys_obj_set, addGroups_NoDup. assumption.
Qed.

(** The mapping of a batch has the declared type. *)
Lemma buildHash_typed batch h :
  buildHash sanitize batch = Return h -> typedHash h.
Proof.
  intros H. split.
  - apply (reduce_addStory_NoDup batch [] h); [constructor | exact H].
  - pose proof (buildHash_ok batch h H) as Hok.
    rewrite Forall_forall in *. intros v Hv.
    apply in_map_iff in Hv. destruct Hv as [[k v'] [E Hin]]. simpl in E. subst v'.
    destruct (Hok _ Hin) as [fs [Efs Hc]]. simpl in Efs. subst v.
    exists fs. split; [reflexivity|].
    intros c Lc. destruct Hc as [[xs L]|[L _]]; [|congruence].
    exists xs. congruence.
Qed.

End BatchEntries.

(** ** [setStories] *)

Lemma truthy_prop_ok h k :
  Forall entry_ok h -> truthy (prop h k) = has k h.
Proof.
  intros Hh. unfold prop, has. destruct (lookup k h) as [v|] eqn:L; [|reflexivity].
  apply lookup_In in L. rewrite Forall_forall in Hh.
  destruct (Hh _ L) as [fs [E _]]. simpl in E. subst. reflexivity.
Qed.

Lemma findO_first_leaf h :
  Forall entry_ok h ->
  findO (fun s => c <~ member s "children" ;; Return (negb (truthy c)))
        (values h)
  = Return (option_map snd (find (fun kv => isLeaf (snd kv)) h)).
Proof.
  induction 1 as [|[k v] r [fs [E Hc]] Hr IH]; [reflexivity|].
  simpl in E. subst v. simpl. unfold has, prop.
  destruct Hc as [[xs L]|[L _]]; rewrite L; simpl; [apply IH | reflexivity].
Qed.

Lemma first_leaf_key h :
  Forall entry_ok h ->
  match find (fun kv => isLeaf (snd kv)) h with
  | Some kv => hd_error (leafKeys h) = Some (fst kv) /\
               truthy (snd kv) = true /\
               toString (get (snd kv) "id") = fst kv
  | None => hd_error (leafKeys h) = None
  end.
Proof.
  unfold leafKeys.
  induction 1 as [|[k v] r [fs [E Hc]] Hr IH]; [reflexivity|].
  simpl in E. subst v. simpl. unfold has.
  destruct Hc as [[xs L]|[L I]]; rewrite L; simpl.
  - apply IH.
  - simpl in I. rewrite I. auto.
Qed.

Section SetStories.

Variable sanitize : string -> string.

Lemma setStories_throw batch e w :
  buildHash sanitize batch = Throw e ->
  setStories sanitize batch w = (Throw e, w).
Proof. intros H. unfold setStories, bind, lift. rewrite H. reflexivity. Qed.

(** What a call does once the mapping of the batch is built. *)
Lemma setStories_spec batch h w :
  buildHash sanitize batch = Return h ->
  setStories sanitize batch w =
  (Return tt,
   {| store := {| storiesHash := h;
                  viewMode := viewMode (store w);
                  storyId := storyId (store w) |};
      navigated := navigated w ++ recoveryCalls h (store w) |}).
Proof.
  intros H. pose proof (buildHash_ok sanitize batch h H) as Hok.
  destruct w as [[h0 vm sid] nav].
  unfold setStories, bind, lift, getState. rewrite H.
  unfold recoveryCalls, selectionAbsent. cbn [store storyId viewMode navigated].
  rewrite (truthy_prop_ok h _ Hok).
  destruct (negb (truthy_str sid) || negb (has (or_else sid "") h)); simpl.
  - rewrite (findO_first_leaf h Hok).
    pose proof (first_leaf_key h Hok) as F.
    destruct (find (fun kv => isLeaf (snd kv)) h) as [[k v]|]; simpl in *.
    + destruct F as [F1 [F2 F3]]. rewrite F1, F2, F3.
      destruct vm as [vm|]; simpl.
      * unfold or_else, pathTo. destruct (vm =? ""); simpl;
          unfold ret, navigate, setState_storiesHash; simpl;
          rewrite ?app_nil_r; reflexivity.
      * unfold ret, setState_storiesHash. simpl. rewrite app_nil_r. reflexivity.
    + rewrite F. unfold ret, setState_storiesHash.
      destruct vm as [vm|]; simpl;
        [destruct (negb (vm =? ""))|]; simpl; rewrite app_nil_r; reflexivity.
  - unfold ret, setState_storiesHash. simpl. rewrite app_nil_r. reflexivity.
Qed.

End SetStories.

(** C1 (counterexample): a first batch creates the group ["a"]; after a
    second batch that does not mention it, ["a"] is no longer a key of
    the persisted mapping. *)
Lemma setStories_drops_groups :
  let w0 := emptyWorld (Some "story") None in
  let rA := setStories sanitize_sample [storyOf "a--default" "A"] w0 in
  let rB := setStories sanitize_sample [storyOf "b--default" "B"] (snd rA) in
  fst rA = Return tt /\ fst rB = Return tt /\
  In "a" (keys (storiesHash (store (snd rA)))) /\
  get (prop (storiesHash (store (snd rA))) "a") "isComponent" = VBool true /\
  ~ In "a" (keys (storiesHash (store (snd rB)))).
Proof.
  cbv zeta. split; [vm_compute; reflexivity|].
  split; [vm_compute; reflexivity|].
  split; [vm_compute; auto|].
  split; [vm_compute; reflexivity|].
  vm_compute. intuition discriminate.
Qed.

(** C1 (as amended): every call of [setStories] builds the mapping from
    an empty one with the records of its own batch, and that mapping
    replaces the persisted one; the earlier mapping is not read.  So
    when two calls in a row return, the mapping persisted by the second
    is the mapping of its batch alone.  The keys of the first mapping
    are all still keys after the second when the second batch contains
    the records of the first.  In general (no identifier of the second
    batch being ["__proto__"]) the keys after the second call are the
    identifiers of the groups and of the stories of the second batch
    and no others: a key of the first mapping is kept exactly when a
    record of the second batch contributes it. *)
Theorem setStories_rebuilds_mapping (sanitize : string -> string)
    (batchA batchB : list StoryInput) (w : World) :
  let wA := snd (setStories sanitize batchA w) in
  let wB := snd (setStories sanitize batchB wA) in
  fst (setStories sanitize batchA w) = Return tt ->
  fst (setStories sanitize batchB wA) = Return tt ->
  buildHash sanitize batchB = Return (storiesHash (store wB)) /\
  (incl batchA batchB ->
   forall k, In k (keys (storiesHash (store wA))) ->
             In k (keys (storiesHash (store wB)))) /\
  (plainKeys sanitize batchB ->
   forall k, In k (keys (storiesHash (store wB))) <->
             exists item, In item batchB /\ In k (itemKeys sanitize item)).
Proof.
  intros wA wB RA RB.
  destruct (buildHash sanitize batchA) as [hA|e] eqn:EA;
    [|rewrite (setStories_throw _ _ _ _ EA) in RA; discriminate].
  destruct (buildHash sanitize batchB) as [hB|e] eqn:EB;
    [|rewrite (setStories_throw _ _ _ _ EB) in RB; discriminate].
  assert (HA : storiesHash (store wA) = hA)
    by (unfold wA; rewrite (setStories_spec _ _ _ _ EA); reflexivity).
  assert (HB : storiesHash (store wB) = hB)
    by (unfold wB; rewrite (setStories_spec _ _ _ _ EB); reflexivity).
  rewrite HA, HB. split; [reflexivity|]. split.
  - intros Hincl k Hk.
    apply (buildHash_keys sanitize batchA hA k EA) in Hk.
    destruct Hk as [item [Hin Hkeys]].
    apply (buildHash_keys sanitize batchB hB k EB).
    exists item. split; [apply Hincl|]; assumption.
  - intros _ k. apply (buildHash_keys sanitize batchB hB k EB).
Qed.

Lemma setStories_rebuilds_mapping_witness :
  let batchA := [storyOf "a--default" "A"] in
  let batchB := [storyOf "b--default" "B"; storyOf "a--default" "A"] in
  let wA := snd (setStories sanitize_sample batchA (emptyWorld None None)) in
  let wB := snd (setStories sanitize_sample batchB wA) in
  In "a" (keys (storiesHash (store wB))).
Proof.
  intros batchA batchB wA wB.
  apply (proj1 (proj2 (setStories_rebuilds_mapping sanitize_sample batchA batchB
                  (emptyWorld None None) eq_refl eq_refl))).
  - intros x [<-|[]]. right. left. reflexivity.
  - vm_compute. auto.
Defined.

(** C4 (the code against the claim): a record whose path is one group
    separator has an empty chain; reading the [id] of its last element
    throws, the batch is abandoned and nothing is persisted. *)
Theorem setStories_empty_chain_throws (sanitize : string -> string)
    (rest : list StoryInput) (w : World) :
  splitPath "/" {| rootSeparator := defaultRootSeparator;
                   groupSeparator := defaultGroupSeparator |}
  = {| root := None; groups := [] |} /\
  setStories sanitize (storyOf "x--default" "/" :: rest) w = (Throw TypeError, w).
Proof. split; reflexivity. Qed.

(** C7 (counterexample): with an empty batch, no selection and the view
    mode ["story"], the call returns without any navigation. *)
Lemma setStories_no_leaf_no_navigation :
  let w := emptyWorld (Some "story") None in
  buildHash sanitize_sample [] = Return [] /\
  storyId (store w) = None /\ viewMode (store w) = Some "story" /\
  fst (setStories sanitize_sample [] w) = Return tt /\
  navigated (snd (setStories sanitize_sample [] w)) = [] /\
  List.length (navigated (snd (setStories sanitize_sample [] w))) <> 1%nat.
Proof. repeat split. discriminate. Qed.

(** C7 (as amended): once the mapping [h] of the batch is built, the call
    returns and persists [h].  The current [storyId] is absent when it
    is unset, the empty string, or no key of [h]; it is present when it
    is a non-empty key of [h].  If it is absent, is no name of a member
    of [Object.prototype], and a view mode is set, the call navigates
    exactly once, to the first leaf of [h] in key order (an entry
    without a [children] field), when [h] has a leaf (no identifier of
    the batch being ["__proto__"]), and not at all when it has none; if
    the [storyId] is present, or no view mode is set, it does not
    navigate. *)
Theorem setStories_recovers_selection (sanitize : string -> string)
    (batch : list StoryInput) (h : obj) (w : World) :
  buildHash sanitize batch = Return h ->
  let r := setStories sanitize batch w in
  let absent := selectionAbsent h (storyId (store w)) in
  fst r = Return tt /\
  storiesHash (store (snd r)) = h /\
  (absent = true <->
   storyId (store w) = None \/ storyId (store w) = Some "" \/
   exists s, storyId (store w) = Some s /\ ~ In s (keys h)) /\
  (forall vm leaf,
      absent = true ->
      (forall s, storyId (store w) = Some s -> inherited s = false) ->
      plainKeys sanitize batch ->
      viewMode (store w) = Some vm -> vm <> "" ->
      hd_error (leafKeys h) = Some leaf ->
      navigated (snd r) = navigated w ++ [pathTo vm leaf]) /\
  (absent = true -> hd_error (leafKeys h) = None ->
   navigated (snd r) = navigated w) /\
  (absent = false -> navigated (snd r) = navigated w) /\
  (truthy_str (viewMode (store w)) = false -> navigated (snd r) = navigated w).
Proof.
  intros H r absent. unfold r. rewrite (setStories_spec sanitize batch h w H).
  cbn [fst snd store navigated storiesHash]. unfold recoveryCalls. fold absent.
  split; [reflexivity|]. split; [reflexivity|]. split; [|repeat split].
  - unfold absent, selectionAbsent.
    destruct (storyId (store w)) as [s|]; cbn [truthy_str negb orb or_else].
    + destruct (s =? "") eqn:Es; cbn [negb orb].
      * apply String.eqb_eq in Es. subst s. tauto.
      * rewrite negb_true_iff.
        split.
        -- intros Hh. right. right. exists s. split; [reflexivity|].
           intros Hin. apply has_In_keys in Hin. congruence.
        -- intros [E|[E|[s' [E Hn]]]]; try discriminate.
           ++ injection E as ->. discriminate.
           ++ injection E as <-. destruct (has s h) eqn:Hh; [|reflexivity].
              apply has_In_keys in Hh. contradiction.
    + tauto.
  - intros vm leaf Ha _ _ Hvm Hne Hl. rewrite Ha, Hvm, Hl. simpl.
    apply String.eqb_neq in Hne. rewrite Hne. reflexivity.
  - intros Ha Hl. rewrite Hl. destruct (absent && _); apply app_nil_r.
  - intros Ha. rewrite Ha. apply app_nil_r.
  - intros Hv. rewrite Hv, Bool.andb_false_r. apply app_nil_r.
Qed.

Lemma setStories_recovers_selection_witness :
  navigated (snd (setStories sanitize_sample
                    [storyOf "ui-button--default" "UI/Button";
                     storyOf "ui-input--default" "UI/Input"]
                    (emptyWorld (Some "story") (Some "gone--default"))))
  = ["/story/ui-button--default"].
Proof.
  refine (proj1 (proj2 (proj2 (proj2
            (setStories_recovers_selection sanitize_sample
               [storyOf "ui-button--default" "UI/Button";
                storyOf "ui-input--default" "UI/Input"]
               _ (emptyWorld (Some "story") (Some "gone--default")) eq_refl))))
            "story" "ui-button--default" _ _ _ _ _ _).
  - reflexivity.
  - intros s [= <-]. reflexivity.
  - intros item [<-|[<-|[]]] Hin; vm_compute in Hin;
      repeat (destruct Hin as [Hin|Hin]; [discriminate Hin|]); exact Hin.
  - reflexivity.
  - discriminate.
  - reflexivity.
Defined.

(** ** Navigation and lookup *)

Ltac split_cases :=
  repeat match goal with
         | |- context [match ?x with _ => _ end] => destruct x eqn:?
         end.

Lemma jumpToStory_store direction w :
  store (snd (jumpToStory direction w)) = store w.
Proof.
  unfold jumpToStory, bind, getState, lift, ret, navigate.
  split_cases; reflexivity.
Qed.

Lemma jumpToComponent_store direction w :
  store (snd (jumpToComponent direction w)) = store w.
Proof.
  unfold jumpToComponent, bind, getState, lift, ret, navigate.
  split_cases; reflexivity.
Qed.

Lemma getData_store storyId w : store (snd (getData storyId w)) = store w.
Proof. reflexivity. Qed.

Lemma getParameters_store storyId parameterName w :
  store (snd (getParameters storyId parameterName w)) = store w.
Proof.
  unfold getParameters, getData, bind, getState, ret. simpl.
  destruct (isStory _); reflexivity.
Qed.

(** C10: [jumpToStory], [jumpToComponent], [getData] and
    [getParameters] never write the store: from every starting state,
    whether the call returns or throws, the state after it equals the
    state before it.  They read the persisted mapping; the two jumps may
    call the external [navigate], the two lookups do not even that. *)
Theorem navigation_and_lookup_keep_store (w : World) (direction : Z)
    (storyId : string) (parameterName : option string) :
  store (snd (jumpToStory direction w)) = store w /\
  store (snd (jumpToComponent direction w)) = store w /\
  store (snd (getData storyId w)) = store w /\
  store (snd (getParameters storyId parameterName w)) = store w /\
  navigated (snd (getData storyId w)) = navigated w /\
  navigated (snd (getParameters storyId parameterName w)) = navigated w.
Proof.
  split; [apply jumpToStory_store|].
  split; [apply jumpToComponent_store|].
  split; [apply getData_store|].
  split; [apply getParameters_store|].
  split; [reflexivity|].
  unfold getParameters, getData, bind, getState, ret. simpl.
  destruct (isStory _); reflexivity.
Qed.

(** C8 (the code against the claim): after the stories of the paths
    ["A"] and ["A/B"] are registered, the group ["a"] is no component any
    more and the story ["a--default"], a key of the mapping, is in no
    component's list of children.  With it selected, the jump backwards
    reads element 0 of [undefined] and throws. *)
Theorem jumpToComponent_throws_outside_components :
  let w := snd (setStories sanitize_sample
                  [storyOf "a--default" "A"; storyOf "a-b--default" "A/B"]
                  (emptyWorld (Some "story") (Some "a--default"))) in
  keys (storiesHash (store w)) = ["a"; "a--default"; "a-b"; "a-b--default"] /\
  storyId (store w) = Some "a--default" /\
  get (prop (storiesHash (store w)) "a") "isComponent" = VBool false /\
  get (prop (storiesHash (store w)) "a-b") "children" = VArr [VStr "a-b--default"] /\
  jumpToComponent (-1) w = (Throw TypeError, w).
Proof. repeat split. Qed.

(** *** Walking the leaves with [jumpToStory] *)

Lemma filterO_keys (f : string -> Outcome bool) (g : string * value -> bool)
    (l : obj) :
  (forall kv, In kv l -> f (fst kv) = Return (g kv)) ->
  filterO f (keys l) = Return (map fst (filter g l)).
Proof.
  induction l as [|kv r IH]; intros H; [reflexivity|].
  simpl. rewrite (H kv (or_introl eq_refl)). simpl.
  rewrite IH by (intros x Hx; apply H; right; assumption).
  simpl. destruct (g kv); reflexivity.
Qed.

Lemma typedHash_entry m k v :
  typedHash m -> In (k, v) m ->
  prop m k = v /\
  exists fs, v = VObj fs /\
             truthy (prop fs "children") = has "children" fs.
Proof.
  intros [ND T] H. split.
  - unfold prop. rewrite (NoDup_keys_lookup k v m ND H). reflexivity.
  - rewrite Forall_forall in T.
    destruct (T v) as [fs [-> C]].
    { change v with (snd (k, v)). apply in_map. assumption. }
    exists fs. split; [reflexivity|]. unfold prop, has.
    destruct (lookup "children" fs) as [c|] eqn:L; [|reflexivity].
    destruct (C c eq_refl) as [xs ->]. reflexivity.
Qed.

(** On a typed mapping the lookup list of [jumpToStory] is the list of
    the leaves. *)
Lemma lookupList_leafKeys m :
  typedHash m ->
  filterO (fun k =>
             c <~ member (prop m k) "children" ;;
             Return (negb (truthy c || isArray (prop m k))))
          (keys m)
  = Return (leafKeys m).
Proof.
  intros T. unfold leafKeys. apply filterO_keys.
  intros [k v] H. cbn [fst snd].
  destruct (typedHash_entry m k v T H) as [-> [fs [-> C]]].
  simpl. rewrite C, Bool.orb_false_r. reflexivity.
Qed.

Lemma NoDup_leafKeys m : NoDup (keys m) -> NoDup (leafKeys m).
Proof.
  unfold keys, leafKeys. induction m as [|[k v] r IH]; simpl; intros ND.
  - constructor.
  - inversion ND as [|? ? Hnin ND']; subst.
    destruct (isLeaf v); simpl; auto.
    constructor; auto.
    intros Hin. apply Hnin. apply in_map_iff in Hin.
    destruct Hin as [kv [E Hkv]]. apply filter_In in Hkv.
    apply in_map_iff. exists kv. tauto.
Qed.

Lemma In_leafKeys m k :
  In k (leafKeys m) -> exists v, In (k, v) m /\ isLeaf v = true.
Proof.
  unfold leafKeys. intros H. apply in_map_iff in H.
  destruct H as [[k' v] [E H]]. simpl in E. subst k'.
  apply filter_In in H. exists v. exact H.
Qed.

Lemma findIndex_nonneg {A} (f : A -> bool) l :
  (findIndex f l = -1 \/ 0 <= findIndex f l)%Z.
Proof.
  induction l as [|x r IH]; simpl; [auto|].
  destruct (f x); [right; lia|].
  destruct (findIndex f r <? 0)%Z eqn:E; [auto|].
  apply Z.ltb_ge in E. right. lia.
Qed.

Lemma indexOf_nth l : forall i x,
  NoDup l -> nth_error l i = Some x -> indexOf x l = Z.of_nat i.
Proof.
  unfold indexOf.
  induction l as [|y r IH]; intros i x ND H; [destruct i; discriminate|].
  inversion ND as [|? ? Hnin ND']; subst.
  destruct i as [|i]; simpl in H.
  - injection H as ->. simpl. rewrite String.eqb_refl. reflexivity.
  - simpl. destruct (x =? y) eqn:E.
    + apply String.eqb_eq in E. subst y. exfalso. apply Hnin.
      eapply nth_error_In; eassumption.
    + rewrite (IH i x ND' H).
      destruct (Z.of_nat i <? 0)%Z eqn:E2; [apply Z.ltb_lt in E2|]; lia.
Qed.

Lemma at_index_nat {A} (l : list A) (i : nat) :
  at_index l (Z.of_nat i) = nth_error l i.
Proof.
  unfold at_index. destruct (Z.of_nat i <? 0)%Z eqn:E.
  - apply Z.ltb_lt in E. lia.
  - rewrite Nat2Z.id. reflexivity.
Qed.

(** The call of [jumpToStory] on a typed mapping with a leaf selected:
    the lookup list and the index are those of the leaves. *)
Lemma jumpToStory_at_leaf m vm nav i Li direction :
  typedHash m -> Li <> "" ->
  nth_error (leafKeys m) i = Some Li ->
  jumpToStory direction
    {| store := {| storiesHash := m; viewMode := Some vm; storyId := Some Li |};
       navigated := nav |}
  = (if (Z.of_nat i =? Z.of_nat (List.length (leafKeys m)) - 1)%Z
        && (direction >? 0)%Z
     then ret tt
     else if (Z.of_nat i =? 0)%Z && (direction <? 0)%Z
     then ret tt
     else match at_index (leafKeys m) (Z.of_nat i + direction) with
          | Some result =>
              if truthy (VStr vm) && truthy (VStr result)
              then navigate ("/" ++ vm ++ "/" ++ result)
              else ret tt
          | None => ret tt
          end)
      {| store := {| storiesHash := m; viewMode := Some vm; storyId := Some Li |};
         navigated := nav |}.
Proof.
  intros T Hne Hi.
  pose proof T as [ND _].
  destruct (In_leafKeys m Li (nth_error_In _ _ Hi)) as [v [Hin Hleaf]].
  destruct (typedHash_entry m Li v T Hin) as [P [fs [-> _]]].
  unfold jumpToStory, bind, getState, lift.
  cbn [store storiesHash viewMode storyId].
  rewrite P. cbn [truthy]. apply String.eqb_neq in Hne. rewrite Hne.
  cbn [negb orb]. rewrite (lookupList_leafKeys m T).
  rewrite (indexOf_nth _ i Li (NoDup_leafKeys m ND) Hi).
  reflexivity.
Qed.

(** C2 (counterexample): two stories of the path ["A"], the second with
    the empty string as identifier, are registered; the persisted mapping
    has the leaves ["a--default"] and [""], in this order.  With a view
    mode set and the first leaf selected, [jumpToStory(+1)] does not
    navigate: the next leaf, the empty string, is not truthy. *)
Lemma jumpToStory_skips_empty_id :
  let w := snd (setStories sanitize_sample
                  [storyOf "a--default" "A"; storyOf "" "A"]
                  (emptyWorld (Some "story") (Some "a--default"))) in
  typedHash (storiesHash (store w)) /\
  leafKeys (storiesHash (store w)) = ["a--default"; ""] /\
  viewMode (store w) = Some "story" /\
  storyId (store w) = Some "a--default" /\
  jumpToStory 1 w = (Return tt, w) /\
  navigated (snd (jumpToStory 1 w)) <> [pathTo "story" ""].
Proof.
  cbv zeta. split.
  - apply (buildHash_typed sanitize_sample
             [storyOf "a--default" "A"; storyOf "" "A"]).
    vm_compute. reflexivity.
  - repeat split; try (vm_compute; reflexivity).
    vm_compute. discriminate.
Qed.

(** C2 (as amended): for every persisted mapping of the declared type
    whose leaves (the entries without a [children] field) in key order
    are [L0 ... Ln], all of them non-empty strings, and with a view mode
    set: with [Li] selected, [jumpToStory(+1)] issues exactly one
    navigation, to the next leaf, so that from [L0] on the calls go
    through every leaf once, in key order; with the last leaf selected
    it is a no-op; [jumpToStory(-1)] with [L0] selected is a no-op; and
    [jumpToStory] is a no-op when there is no selection, when the
    selection is the empty string, and when the selection is neither a
    key of the mapping nor the name of a member of [Object.prototype]
    (a name such as ["constructor"] reads as the inherited member and
    passes the guard). *)
Theorem jumpToStory_walks_leaves (m : obj) (vm : string) (nav : list string) :
  typedHash m -> vm <> "" -> Forall (fun l => l <> "") (leafKeys m) ->
  let world := fun sid =>
    {| store := {| storiesHash := m; viewMode := Some vm; storyId := sid |};
       navigated := nav |} in
  (forall i Li Lnext,
      nth_error (leafKeys m) i = Some Li ->
      nth_error (leafKeys m) (S i) = Some Lnext ->
      jumpToStory 1 (world (Some Li)) =
      (Return tt,
       {| store := store (world (Some Li));
          navigated := nav ++ [pathTo vm Lnext] |})) /\
  (forall Ln,
      nth_error (leafKeys m) (List.length (leafKeys m) - 1) = Some Ln ->
      jumpToStory 1 (world (Some Ln)) = (Return tt, world (Some Ln))) /\
  (forall L0,
      nth_error (leafKeys m) 0 = Some L0 ->
      jumpToStory (-1) (world (Some L0)) = (Return tt, world (Some L0))) /\
  (forall direction sid,
      (sid = None \/ sid = Some "" \/
       exists s, sid = Some s /\ ~ In s (keys m) /\ inherited s = false) ->
      jumpToStory direction (world sid) = (Return tt, world sid)).
Proof.
  intros T Hvm Hne world. rewrite Forall_forall in Hne.
  repeat split.
  - intros i Li Lnext Hi Hn. unfold world.
    rewrite (jumpToStory_at_leaf m vm nav i Li 1 T
               (Hne _ (nth_error_In _ _ Hi)) Hi).
    assert (Hlen : (S i < List.length (leafKeys m))%nat)
      by (apply nth_error_Some; congruence).
    replace (Z.of_nat i =? Z.of_nat (List.length (leafKeys m)) - 1)%Z with false
      by (symmetry; apply Z.eqb_neq; lia).
    replace (Z.of_nat i + 1)%Z with (Z.of_nat (S i)) by lia.
    rewrite at_index_nat, Hn. cbn [andb Z.ltb Z.compare].
    rewrite Bool.andb_false_r. cbn [truthy].
    apply String.eqb_neq in Hvm. rewrite Hvm.
    pose proof (Hne _ (nth_error_In _ _ Hn)) as Hx.
    apply String.eqb_neq in Hx. rewrite Hx. reflexivity.
  - intros Ln Hn. unfold world.
    rewrite (jumpToStory_at_leaf m vm nav _ Ln 1 T
               (Hne _ (nth_error_In _ _ Hn)) Hn).
    assert (Hlen : (List.length (leafKeys m) - 1 < List.length (leafKeys m))%nat)
      by (apply nth_error_Some; congruence).
    replace (Z.of_nat (List.length (leafKeys m) - 1)
             =? Z.of_nat (List.length (leafKeys m)) - 1)%Z with true
      by (symmetry; apply Z.eqb_eq; lia).
    reflexivity.
  - intros L0 H0. unfold world.
    rewrite (jumpToStory_at_leaf m vm nav 0 L0 (-1) T
               (Hne _ (nth_error_In _ _ H0)) H0).
    cbn [Z.of_nat Z.eqb Z.gtb Z.ltb Z.compare andb].
    rewrite Bool.andb_false_r. reflexivity.
  - intros direction sid [->|[->|[s [-> [Hs _]]]]]; [reflexivity|reflexivity|].
    unfold world, jumpToStory, bind, getState.
    cbn [store storiesHash viewMode storyId]. unfold prop.
    destruct (lookup s m) eqn:L.
    + exfalso. apply Hs. apply lookup_In_keys. congruence.
    + cbn [truthy negb]. rewrite Bool.orb_true_r. reflexivity.
Qed.

Lemma jumpToStory_walks_leaves_witness :
  let m := [("ui", VObj [("id", VStr "ui"); ("children", VArr [VStr "a"; VStr "b"])]);
            ("a", VObj [("id", VStr "a")]);
            ("b", VObj [("id", VStr "b")])] in
  jumpToStory 1
    {| store := {| storiesHash := m; viewMode := Some "story"; storyId := Some "a" |};
       navigated := [] |}
  = (Return tt,
     {| store := {| storiesHash := m; viewMode := Some "story"; storyId := Some "a" |};
        navigated := ["/story/b"] |}).
Proof.
  intros m.
  refine (proj1 (jumpToStory_walks_leaves m "story" [] _ _ _) 0%nat "a" "b" _ _).
  - split.
    + repeat constructor; simpl; intuition discriminate.
    + repeat constructor; eexists; (split; [reflexivity|]);
        intros c; simpl; intros H; try discriminate;
        injection H as <-; eauto.
  - discriminate.
  - repeat constructor; discriminate.
  - reflexivity.
  - reflexivity.
Defined.

(** ** The scenario of two components under one group *)

Section Scenario.

Variable sanitize : string -> string.

(** The chain of a path of two groups and no root. *)
Lemma chain_of_two (n1 n2 i1 i2 : string) :
  sanitize n1 = i1 -> sanitize (i1 ++ "-" ++ n2) = i2 -> i1 <> "" ->
  rootAndGroups sanitize None [n1; n2] =
  [ [("name", VStr n1); ("id", VStr i1); ("parent", VBool false);
     ("depth", VNum 0); ("children", VArr []);
     ("isComponent", VBool false); ("isRoot", VBool false)];
    [("name", VStr n2); ("id", VStr i2); ("parent", VStr i1);
     ("depth", VNum 1); ("children", VArr []);
     ("isComponent", VBool true); ("isRoot", VBool false)] ].
Proof.
  intros <- <- Hne. unfold rootAndGroups. cbn [truthy_str app map reduceGroups].
  rewrite !extendGroup_toGroup. cbn zeta. cbn [Nat.ltb Nat.leb].
  cbn [app nth Nat.sub prop lookup String.eqb Ascii.eqb Bool.eqb].
  unfold idOf. cbn [truthy toString]. apply String.eqb_neq in Hne. rewrite Hne.
  reflexivity.
Qed.

(** The reducer on a record whose chain has two groups. *)
Lemma addStory_two_groups acc item gA gB :
  (let s := splitPath (kind item)
              {| rootSeparator := hierarchyRootSeparator (options (parameters item));
                 groupSeparator := hierarchySeparator (options (parameters item)) |} in
   rootAndGroups sanitize (root s) (groups s) = [gA; gB]) ->
  addStory sanitize acc item =
  let accA := obj_set (groupKey gA)
                (merge (orEmpty (prop acc (groupKey gA)))
                       (VObj (withChild gA (prop gB "id")))) acc in
  let accB := obj_set (groupKey gB)
                (merge (orEmpty (prop accA (groupKey gB)))
                       (VObj (withChild gB (VStr (id item))))) accA in
  Return (obj_set (id item)
            (VObj (obj_assign (item_obj item) [("parent", prop gB "id")]))
            accB).
Proof.
  cbn zeta. intros H. unfold addStory. rewrite H. reflexivity.
Qed.

Ltac prop_simpl :=
  repeat (rewrite prop_obj_set_eq
          || rewrite prop_obj_set_ne by (assumption || discriminate || congruence)).

(** C9 (as amended): registering in one batch, with the default
    separators, two stories of the paths ["UI/Button"] and ["UI/Input"]
    gives a mapping of five entries: the group ["ui"], which has the
    two children ["ui-button"] and ["ui-input"] and is neither a
    component nor a root; the two component groups ["ui-button"] and
    ["ui-input"], each with the parent ["ui"] and its story as only
    child; and the two stories, leaves with the parents ["ui-button"]
    and ["ui-input"].  (The path names groups only: its last segment is
    the component, not the leaf.)  The identifiers of the stories are
    distinct non-empty strings other than the identifiers of the groups
    and other than ["__proto__"], whose assignment would set the
    prototype of the mapping instead of an entry. *)
Theorem setStories_two_components (id1 id2 : string) :
  sanitize "UI" = "ui" ->
  sanitize "ui-Button" = "ui-button" ->
  sanitize "ui-Input" = "ui-input" ->
  id1 <> "" -> id2 <> "" -> id1 <> id2 ->
  id1 <> "__proto__" -> id2 <> "__proto__" ->
  ~ In id1 ["ui"; "ui-button"; "ui-input"] ->
  ~ In id2 ["ui"; "ui-button"; "ui-input"] ->
  exists h,
    buildHash sanitize [storyOf id1 "UI/Button"; storyOf id2 "UI/Input"]
    = Return h /\
    (forall k, In k (keys h) <->
               In k ["ui"; "ui-button"; id1; "ui-input"; id2]) /\
    List.length (keys h) = 5%nat /\
    get (prop h "ui") "children" = VArr [VStr "ui-button"; VStr "ui-input"] /\
    get (prop h "ui") "isComponent" = VBool false /\
    get (prop h "ui") "isRoot" = VBool false /\
    get (prop h "ui-button") "children" = VArr [VStr id1] /\
    get (prop h "ui-button") "isComponent" = VBool true /\
    get (prop h "ui-button") "parent" = VStr "ui" /\
    get (prop h "ui-input") "children" = VArr [VStr id2] /\
    get (prop h "ui-input") "isComponent" = VBool true /\
    get (prop h "ui-input") "parent" = VStr "ui" /\
    isLeaf (prop h id1) = true /\
    get (prop h id1) "parent" = VStr "ui-button" /\
    isLeaf (prop h id2) = true /\
    get (prop h id2) "parent" = VStr "ui-input".
Proof.
  intros S1 S2 S3 N1 N2 N12 _ _ F1 F2.
  assert (A1 : id1 <> "ui") by (intros ->; apply F1; simpl; auto).
  assert (A2 : id1 <> "ui-button") by (intros ->; apply F1; simpl; auto).
  assert (A3 : id1 <> "ui-input") by (intros ->; apply F1; simpl; auto).
  assert (B1 : id2 <> "ui") by (intros ->; apply F2; simpl; auto).
  assert (B2 : id2 <> "ui-button") by (intros ->; apply F2; simpl; auto).
  assert (B3 : id2 <> "ui-input") by (intros ->; apply F2; simpl; auto).
  assert (A1' : "ui" <> id1) by congruence.
  assert (A2' : "ui-button" <> id1) by congruence.
  assert (A3' : "ui-input" <> id1) by congruence.
  assert (B1' : "ui" <> id2) by congruence.
  assert (B2' : "ui-button" <> id2) by congruence.
  assert (B3' : "ui-input" <> id2) by congruence.
  assert (T1 : truthy (VStr id1) = true)
    by (simpl; apply String.eqb_neq in N1; rewrite N1; reflexivity).
  assert (T2 : truthy (VStr id2) = true)
    by (simpl; apply String.eqb_neq in N2; rewrite N2; reflexivity).
  pose proof (chain_of_two "UI" "Button" "ui" "ui-button" S1 S2
                ltac:(discriminate)) as C1.
  pose proof (chain_of_two "UI" "Input" "ui" "ui-input" S1 S3
                ltac:(discriminate)) as C2.
  unfold buildHash. cbn [reduceO].
  rewrite (addStory_two_groups [] (storyOf id1 "UI/Button") _ _ C1).
  cbn zeta. cbn [obind].
  rewrite (addStory_two_groups _ (storyOf id2 "UI/Input") _ _ C2).
  cbn zeta. eexists. split; [reflexivity|].
  unfold groupKey, withChild.
  cbn [prop lookup String.eqb Ascii.eqb Bool.eqb toString id storyOf].
  rewrite T1, T2. cbn [truthy String.eqb negb].
  match goal with
  | |- (forall k, In k (keys ?h) <-> _) /\ _ =>
      assert (K : forall k, In k (keys h) <->
                            In k ["ui"; "ui-button"; id1; "ui-input"; id2])
        by (intros k; rewrite !In_keys_obj_set; simpl; intuition)
  end.
  split; [exact K|].
  split.
  { apply keys_length_of_set with (3 := K).
    - do 6 apply NoDup_keys_obj_set. constructor.
    - repeat (constructor; [simpl; intuition congruence|]). constructor. }
  prop_simpl.
  repeat split; try reflexivity.
Qed.

End Scenario.

(** C9 (counterexample): for the two stories of the scenario the group
    ["ui"] is no component, the mapping has three entries with children,
    and the stories have the parents ["ui-button"] and ["ui-input"], not
    ["ui"]. *)
Lemma setStories_UI_is_no_component :
  exists h,
    buildHash sanitize_sample
      [storyOf "ui-button--default" "UI/Button";
       storyOf "ui-input--default" "UI/Input"] = Return h /\
    get (prop h "ui") "isComponent" = VBool false /\
    get (prop h "ui") "isComponent" <> VBool true /\
    List.length (filter (fun kv => negb (isLeaf (snd kv))) h) = 3%nat /\
    get (prop h "ui-button--default") "parent" = VStr "ui-button" /\
    get (prop h "ui-button--default") "parent" <> VStr "ui" /\
    get (prop h "ui-input--default") "parent" = VStr "ui-input" /\
    get (prop h "ui-input--default") "parent" <> VStr "ui".
Proof.
  eexists. split; [vm_compute; reflexivity|].
  repeat split; vm_compute; (reflexivity || discriminate).
Qed.

Lemma setStories_two_components_witness :
  exists h,
    buildHash sanitize_sample
      [storyOf "ui-button--default" "UI/Button";
       storyOf "ui-input--default" "UI/Input"] = Return h /\
    get (prop h "ui") "children" = VArr [VStr "ui-button"; VStr "ui-input"] /\
    get (prop h "ui-input--default") "parent" = VStr "ui-input".
Proof.
  destruct (setStories_two_components sanitize_sample
              "ui-button--default" "ui-input--default")
    as [h [H0 [_ [_ [H1 [_ [_ [_ [_ [_ [_ [_ [_ [_ [_ [_ H2]]]]]]]]]]]]]]]].
  - reflexivity.
  - reflexivity.
  - reflexivity.
  - discriminate.
  - discriminate.
  - discriminate.
  - discriminate.
  - discriminate.
  - simpl. intuition discriminate.
  - simpl. intuition discriminate.
  - exists h. auto.
Defined.

(** * Further properties *)

(** ** Index keys *)

Lemma digits_value_acc cs acc :
  digits_value cs acc = (acc * 10 ^ N.of_nat (List.length cs) + digits_value cs 0)%N.
Proof.
  revert acc. induction cs as [|c r IH]; intros acc.
  - simpl. lia.
  - cbn [digits_value List.length]. rewrite IH.
    rewrite (IH (0 * 10 + N.of_nat (nat_of_ascii c - 48))%N).
    rewrite Nat2N.inj_succ, N.pow_succ_r'. lia.
Qed.

Lemma digit_char d :
  (d < 10)%N ->
  is_digit (ascii_of_N (48 + d)) = true /\
  N.of_nat (nat_of_ascii (ascii_of_N (48 + d)) - 48) = d /\
  (d <> 0%N -> Ascii.eqb (ascii_of_N (48 + d)) "0"%char = false).
Proof.
  intros H.
  assert (C : (d = 0 \/ d = 1 \/ d = 2 \/ d = 3 \/ d = 4 \/ d = 5 \/ d = 6
               \/ d = 7 \/ d = 8 \/ d = 9)%N) by lia.
  repeat (destruct C as [->|C]; [repeat split; try reflexivity; congruence|]).
  subst. repeat split; try reflexivity; congruence.
Qed.

(** The text of a number, read back. *)
Lemma decimal_of_pos_spec fuel : forall n acc,
  (n < 10 ^ N.of_nat fuel)%N ->
  let cs := list_ascii_of_string (decimal_of_pos fuel n acc) in
  let ca := list_ascii_of_string acc in
  digits_value cs 0 = (n * 10 ^ N.of_nat (List.length ca) + digits_value ca 0)%N /\
  (forallb is_digit ca = true -> forallb is_digit cs = true) /\
  (forall m, (n < 10 ^ N.of_nat m)%N ->
             (List.length cs <= List.length ca + Nat.max m 1)%nat \/ fuel = 0%nat) /\
  (n <> 0%N -> exists c r, cs = c :: r /\ Ascii.eqb c "0"%char = false).
Proof.
  induction fuel as [|f IH]; intros n acc H; cbn zeta.
  - simpl in H. assert (n = 0%N) by lia. subst. simpl.
    repeat split; auto. congruence.
  - cbn [decimal_of_pos]. cbv zeta.
    assert (Hd : (n mod 10 < 10)%N) by (apply N.mod_lt; lia).
    destruct (digit_char _ Hd) as [D1 [D2 D3]].
    assert (Hn : n = (10 * (n / 10) + n mod 10)%N) by (apply N.div_mod; lia).
    destruct (n / 10 =? 0)%N eqn:E.
    + apply N.eqb_eq in E.
      assert (Hm : (n mod 10 = n)%N) by lia.
      cbn [list_ascii_of_string digits_value forallb List.length].
      rewrite (digits_value_acc _ (0 * 10 + _)%N), D2, D1.
      repeat split.
      * rewrite Hm. lia.
      * auto.
      * intros m _. left. lia.
      * intros Hne. eexists _, _. split; [reflexivity|]. apply D3. lia.
    + apply N.eqb_neq in E.
      assert (Hlt : (n / 10 < 10 ^ N.of_nat f)%N).
      { apply N.Div0.div_lt_upper_bound.
        rewrite Nat2N.inj_succ, N.pow_succ_r' in H. lia. }
      destruct (IH (n / 10)%N (String (ascii_of_N (48 + n mod 10)) acc) Hlt)
        as [V [F [L Z]]].
      cbn [list_ascii_of_string digits_value forallb List.length] in V, F, L.
      rewrite (digits_value_acc _ (0 * 10 + _)%N), D2 in V. rewrite D1 in F.
      repeat split.
      * rewrite V. rewrite Nat2N.inj_succ, N.pow_succ_r'. lia.
      * intros Ha. apply F. simpl. exact Ha.
      * intros m Hm. left.
        destruct m as [|m]; [simpl in Hm; lia|].
        assert (Hm' : (n / 10 < 10 ^ N.of_nat m)%N).
        { apply N.Div0.div_lt_upper_bound.
          rewrite Nat2N.inj_succ, N.pow_succ_r' in Hm. lia. }
        assert (Hm1 : (1 <= m)%nat) by (destruct m; [simpl in Hm'; lia | lia]).
        destruct (L m Hm') as [L' | Hz]; [lia | subst f; simpl in Hlt; lia].
        
      * intros _. apply Z. exact E.
Qed.

Lemma log2_fuel n : (n < 10 ^ N.of_nat (S (N.to_nat (N.log2 n))))%N.
Proof.
  destruct (N.eq_dec n 0) as [->|Hn]; [reflexivity|].
  rewrite Nat2N.inj_succ, N2Nat.id.
  apply N.lt_le_trans with (2 ^ N.succ (N.log2 n))%N.
  - apply N.log2_spec. lia.
  - apply N.pow_le_mono_l. lia.
Qed.

(** The key of an index below 2^32 - 1 is read back as that index. *)
Lemma array_index_index_key i :
  (N.of_nat i < 4294967295)%N -> array_index (index_key i) = Some (N.of_nat i).
Proof.
  intros H. destruct i as [|i]; [reflexivity|].
  unfold index_key, decimal_of_N, array_index.
  set (n := N.of_nat (S i)) in *.
  assert (Hn : n <> 0%N) by (unfold n; lia).
  destruct (decimal_of_pos_spec _ n "" (log2_fuel n)) as [V [F [L Z]]].
  cbv zeta in V, F, L, Z.
  change (list_ascii_of_string "") with (@nil ascii) in V, F, L.
  cbn [List.length digits_value forallb] in V, F, L.
  set (cs := list_ascii_of_string
               (decimal_of_pos (S (N.to_nat (N.log2 n))) n "")) in *.
  assert (Hlen : (List.length cs <= 10)%nat).
  { destruct (L 10%nat ltac:(change (10 ^ N.of_nat 10)%N with 10000000000%N; lia))
      as [L' | L']; [simpl in L'; lia | discriminate]. }
  destruct (Z Hn) as [c [r [Ecs Ec]]]. rewrite Ecs in *.
  rewrite (F eq_refl), Ec. cbn [negb orb andb].
  apply Nat.leb_le in Hlen. rewrite Hlen.
  rewrite V, N.mul_1_r, N.add_0_r.
  apply N.ltb_lt in H. rewrite H. reflexivity.
Qed.

(** ** The array union of the merge *)

Lemma isEqual_truthy o s : isEqual o s = true -> truthy o = truthy s.
Proof.
  destruct o, s; simpl; try discriminate; try reflexivity.
  - intros H. apply Bool.eqb_prop in H. congruence.
  - intros H. apply Z.eqb_eq in H. congruence.
  - intros H. apply String.eqb_eq in H. congruence.
Qed.

(** One round of the customizer's [forEach], by cases. *)
Lemma push_missing_eq (objValue : list value) (s : value) :
  push_missing objValue s =
  if truthy s && existsb (fun o => isEqual o s) objValue
  then objValue else objValue ++ [s].
Proof.
  unfold push_missing.
  destruct (find (fun o => isEqual o s) objValue) as [o|] eqn:F.
  - apply find_some in F. destruct F as [Hin Heq].
    rewrite (isEqual_truthy _ _ Heq).
    assert (E : existsb (fun o => isEqual o s) objValue = true)
      by (apply existsb_exists; eauto).
    rewrite E, Bool.andb_true_r. reflexivity.
  - assert (E : existsb (fun o => isEqual o s) objValue = false).
    { destruct (existsb _ objValue) eqn:E; [|reflexivity].
      apply existsb_exists in E. destruct E as [x [Hin Heq]].
      rewrite (find_none _ _ F x Hin) in Heq. discriminate. }
    rewrite E, Bool.andb_false_r. reflexivity.
Qed.

(** X1: one round of the customizer's [forEach]: the incoming element is
    left out when it is truthy and equal to an element already there;
    it is pushed at the end when no element equals it, and also when it
    is falsy (0, the empty string, [null], [false], [undefined]), even
    if it is already present. *)
Theorem push_missing_cases (objValue : list value) (s : value) :
  (truthy s = true -> (exists o, In o objValue /\ isEqual o s = true) ->
   push_missing objValue s = objValue) /\
  (truthy s = false \/ (forall o, In o objValue -> isEqual o s = false) ->
   push_missing objValue s = objValue ++ [s]).
Proof.
  rewrite push_missing_eq. split.
  - intros T [o [Hin E]]. rewrite T.
    replace (existsb (fun o => isEqual o s) objValue) with true; [reflexivity|].
    symmetry. apply existsb_exists. eauto.
  - intros [T | N].
    + rewrite T. reflexivity.
    + replace (existsb (fun o => isEqual o s) objValue) with false;
        [rewrite Bool.andb_false_r; reflexivity|].
      symmetry. destruct (existsb _ objValue) eqn:E; [|reflexivity].
      apply existsb_exists in E. destruct E as [o [Hin E]].
      rewrite (N o Hin) in E. discriminate.
Qed.

Lemma push_missing_cases_witness :
  push_missing [VStr ""; VStr "a"] (VStr "") = [VStr ""; VStr "a"; VStr ""].
Proof.
  apply (proj2 (push_missing_cases [VStr ""; VStr "a"] (VStr ""))).
  left. reflexivity.
Defined.

Lemma existsb_isEqual_strings s xs :
  existsb (fun o => isEqual o (VStr s)) (map VStr xs) = existsb (String.eqb s) xs.
Proof.
  induction xs as [|x r IH]; simpl; [reflexivity|].
  rewrite IH, (String.eqb_sym x s). reflexivity.
Qed.

Lemma existsb_eqb_In s xs : existsb (String.eqb s) xs = true <-> In s xs.
Proof.
  rewrite existsb_exists. split.
  - intros [x [Hin E]]. apply String.eqb_eq in E. congruence.
  - intros H. exists s. split; [assumption | apply String.eqb_refl].
Qed.

(** X2: the union of two arrays of strings by the customizer keeps the
    existing array as a prefix and appends incoming strings only; every
    incoming string is in the result; and when the existing array has no
    duplicates and no incoming string is empty, neither has the
    result. *)
Theorem customizer_union_strings (dst src : list string) :
  exists added,
    customizer (VArr (map VStr dst)) (VArr (map VStr src))
    = VArr (map VStr (dst ++ added)) /\
    incl added src /\
    incl src (dst ++ added) /\
    (NoDup dst -> Forall (fun s => s <> "") src -> NoDup (dst ++ added)).
Proof.
  cbn [customizer]. revert dst.
  induction src as [|s r IH]; intros dst.
  - exists []. rewrite app_nil_r. repeat split; auto using incl_nil_l.
  - cbn [map fold_left]. rewrite push_missing_eq, existsb_isEqual_strings.
    cbn [truthy].
    destruct (negb (s =? "") && existsb (String.eqb s) dst) eqn:C.
    + apply Bool.andb_true_iff in C. destruct C as [C1 C2].
      apply existsb_eqb_In in C2.
      destruct (IH dst) as [added [E [I1 [I2 N]]]].
      exists added. rewrite E. repeat split.
      * apply incl_tl. assumption.
      * intros x [<-|Hx]; [apply in_or_app; left; assumption | apply I2; assumption].
      * intros ND F. inversion F; subst. apply N; assumption.
    + change (map VStr dst ++ [VStr s]) with (map VStr dst ++ map VStr [s]).
      rewrite <- map_app.
      destruct (IH (dst ++ [s])) as [added [E [I1 [I2 N]]]].
      exists (s :: added). rewrite E, <- app_assoc. simpl.
      repeat split.
      * apply incl_cons; [left; reflexivity | apply incl_tl; assumption].
      * intros x [<-|Hx].
        -- apply in_or_app. right. left. reflexivity.
        -- specialize (I2 x Hx). rewrite <- app_assoc in I2. exact I2.
      * intros ND F. inversion F as [|? ? Hs Fr]; subst.
        change (dst ++ s :: added) with (dst ++ [s] ++ added).
        rewrite app_assoc. apply N; [|assumption].
        apply NoDup_app; [assumption | repeat constructor; simpl; tauto|].
        intros x Hx [<-|[]].
        apply Bool.andb_false_iff in C. destruct C as [C|C].
        -- apply Bool.negb_false_iff, String.eqb_eq in C. contradiction.
        -- apply existsb_eqb_In in Hx. congruence.
Qed.

Lemma customizer_union_strings_witness :
  exists added,
    customizer (VArr (map VStr ["a"; "b"])) (VArr (map VStr ["b"; "c"; "c"]))
    = VArr (map VStr (["a"; "b"] ++ added)) /\
    NoDup (["a"; "b"] ++ added).
Proof.
  destruct (customizer_union_strings ["a"; "b"] ["b"; "c"; "c"])
    as [added [E [_ [_ N]]]].
  exists added. split; [exact E|].
  apply N.
  - repeat constructor; simpl; intuition discriminate.
  - repeat constructor; discriminate.
Defined.

(** ** Arrays under the merge *)

Lemma replace_nth_length d v : replace_nth (List.length d) v d = d ++ [v].
Proof. induction d as [|x r IH]; simpl; [reflexivity | rewrite IH; reflexivity]. Qed.

Lemma mergeKey_append rec d sv :
  isObject sv = false -> (N.of_nat (List.length d) < 4294967295)%N ->
  mergeKey rec (VArr d) (index_key (List.length d)) sv = VArr (d ++ [sv]).
Proof.
  intros S B. unfold mergeKey. rewrite S.
  assert (G : get (VArr d) (index_key (List.length d)) = VUndefined).
  { cbn [get]. rewrite (array_index_index_key _ B), Nat2N.id.
    apply nth_overflow. lia. }
  rewrite G, (customizer_scalar VUndefined sv S eq_refl). cbn [is_undefined].
  unfold assignMergeValue, assign_dest, has_key.
  rewrite (array_index_index_key _ B), Nat2N.id, Nat.ltb_irrefl.
  rewrite replace_nth_length. destruct (is_undefined sv); reflexivity.
Qed.

(** Merging an array of scalars into a fresh array copies it. *)
Lemma baseMerge_copies_scalars xs :
  Forall (fun v => isObject v = false) xs ->
  (N.of_nat (List.length xs) < 4294967295)%N ->
  baseMerge (VArr []) (VArr xs) = VArr xs.
Proof.
  intros F B. cbn [baseMerge].
  change xs with ([] ++ xs) at 2.
  change 0%nat with (@List.length value []).
  assert (B' : (N.of_nat (List.length (@nil value) + List.length xs) < 4294967295)%N)
    by exact B.
  clear B. revert B'. generalize (@nil value) as d.
  induction F as [|sv r Hs F IH]; intros d B.
  - rewrite app_nil_r. reflexivity.
  - rewrite (mergeKey_append _ d sv Hs) by (simpl in B; lia).
    replace (S (List.length d)) with (List.length (d ++ [sv]))
      by (rewrite length_app; simpl; lia).
    rewrite IH.
    + rewrite <- app_assoc. reflexivity.
    + rewrite length_app. simpl in *. lia.
Qed.

(** The round of an array of scalars on a destination that holds no
    object at the key: the array is copied in. *)
Lemma get_mergeKey_array_fresh fs k xs :
  isObject (get (VObj fs) k) = false ->
  Forall (fun v => isObject v = false) xs ->
  (N.of_nat (List.length xs) < 4294967295)%N ->
  get (mergeKey (fun dest => baseMerge dest (VArr xs)) (VObj fs) k (VArr xs)) k
  = VArr xs.
Proof.
  intros O F B. unfold mergeKey. cbn [isObject].
  assert (C : customizer (get (VObj fs) k) (VArr xs) = VUndefined)
    by (destruct (get (VObj fs) k); simpl in *; congruence).
  rewrite C. cbn [is_undefined negb].
  assert (A : isArray (get (VObj fs) k) = false)
    by (destruct (get (VObj fs) k); simpl in *; congruence).
  assert (L : array_like_length (get (VObj fs) k) = None)
    by (destruct (get (VObj fs) k); simpl in *; congruence).
  rewrite A, L, (baseMerge_copies_scalars xs F B).
  rewrite get_assignMergeValue_eq. reflexivity.
Qed.

(** The round of an array on a destination that holds an array: the
    union of the customizer. *)
Lemma get_mergeKey_array_union rec fs k dst src :
  get (VObj fs) k = VArr dst ->
  get (mergeKey rec (VObj fs) k (VArr src)) k
  = VArr (fold_left push_missing src dst).
Proof.
  intros G. unfold mergeKey. rewrite G. cbn [isObject customizer is_undefined negb].
  rewrite get_assignMergeValue_eq. reflexivity.
Qed.

(** The round of a value that is no array on a destination that holds an
    array: the array stays. *)
Lemma get_mergeKey_array_kept rec fs k dst sv :
  get (VObj fs) k = VArr dst -> isArray sv = false ->
  get (mergeKey rec (VObj fs) k sv) k = VArr dst.
Proof.
  intros G A. unfold mergeKey. rewrite G.
  assert (C : customizer (VArr dst) sv = VArr dst)
    by (destruct sv; simpl in *; congruence).
  rewrite C. cbn [is_undefined negb].
  destruct (isObject sv); rewrite get_assignMergeValue_eq; reflexivity.
Qed.

(** After the existing object is copied into the fresh destination, an
    array of scalars is found under its key. *)
Lemma get_copy_array existing k dst :
  NoDup (keys existing) -> lookup k existing = Some (VArr dst) ->
  Forall (fun v => isObject v = false) dst ->
  (N.of_nat (List.length dst) < 4294967295)%N ->
  get (fold_left mergeField existing (VObj [])) k = VArr dst.
Proof.
  intros ND L F B.
  destruct (get_fold_mergeField_present existing [] k (VArr dst) ND L)
    as [d0 [G0 G1]].
  rewrite G1. apply get_mergeKey_array_fresh; auto.
  rewrite G0. reflexivity.
Qed.

(** X3: when a key holds an array on both sides (the existing one an
    array of scalars), the merged result holds the existing array
    followed by the incoming elements that the customizer pushes: the
    existing order is kept and nothing already there is removed.  The
    two objects are plain values (no array-like object longer than an
    array can be, no property named ["__proto__"]), and the key is no
    name of a member of [Object.prototype]. *)
Theorem merge_array_union (existing incoming : obj) (k : string)
    (dst src : list value) :
  plainValue (VObj existing) = true -> plainValue (VObj incoming) = true ->
  inherited k = false ->
  NoDup (keys existing) -> NoDup (keys incoming) ->
  lookup k existing = Some (VArr dst) -> lookup k incoming = Some (VArr src) ->
  Forall (fun v => isObject v = false) dst ->
  (N.of_nat (List.length dst) < 4294967295)%N ->
  get (merge (VObj existing) (VObj incoming)) k
  = VArr (fold_left push_missing src dst).
Proof.
  intros _ _ _ NDa NDb La Lb F B. rewrite merge_records.
  destruct (fold_mergeField_record existing []) as [d E].
  pose proof (get_copy_array existing k dst NDa La F B) as Gd. rewrite E in Gd.
  rewrite E.
  destruct (get_fold_mergeField_present incoming d k (VArr src) NDb Lb)
    as [d1 [G0 G1]].
  rewrite G1. apply get_mergeKey_array_union. rewrite G0. exact Gd.
Qed.

Lemma merge_array_union_witness :
  get (merge (VObj [("children", VArr [VStr "a"; VStr "b"])])
             (VObj [("children", VArr [VStr "b"; VStr "c"])])) "children"
  = VArr [VStr "a"; VStr "b"; VStr "c"].
Proof.
  apply (merge_array_union [("children", VArr [VStr "a"; VStr "b"])]
           [("children", VArr [VStr "b"; VStr "c"])] "children"
           [VStr "a"; VStr "b"] [VStr "b"; VStr "c"]).
  - reflexivity.
  - reflexivity.
  - reflexivity.
  - repeat constructor; simpl; tauto.
  - repeat constructor; simpl; tauto.
  - reflexivity.
  - reflexivity.
  - repeat constructor.
  - reflexivity.
Defined.

(** X4: when the existing value under a key is an array (of scalars) and
    the incoming value is no array (the mismatch the customizer logs),
    the merged result keeps the existing array, whatever the incoming
    value is: a scalar, [null], an object.  The two objects are plain
    values (no array-like object longer than an array can be, no
    property named ["__proto__"]), and the key is no name of a member
    of [Object.prototype]. *)
Theorem merge_array_mismatch_keeps_existing (existing incoming : obj)
    (k : string) (dst : list value) (vb : value) :
  plainValue (VObj existing) = true -> plainValue (VObj incoming) = true ->
  inherited k = false ->
  NoDup (keys existing) -> NoDup (keys incoming) ->
  lookup k existing = Some (VArr dst) -> lookup k incoming = Some vb ->
  isArray vb = false ->
  Forall (fun v => isObject v = false) dst ->
  (N.of_nat (List.length dst) < 4294967295)%N ->
  get (merge (VObj existing) (VObj incoming)) k = VArr dst.
Proof.
  intros _ _ _ NDa NDb La Lb A F B. rewrite merge_records.
  destruct (fold_mergeField_record existing []) as [d E].
  pose proof (get_copy_array existing k dst NDa La F B) as Gd. rewrite E in Gd.
  rewrite E.
  destruct (get_fold_mergeField_present incoming d k vb NDb Lb)
    as [d1 [G0 G1]].
  rewrite G1. apply get_mergeKey_array_kept; [|assumption].
  rewrite G0. exact Gd.
Qed.

Lemma merge_array_mismatch_keeps_existing_witness :
  get (merge (VObj [("children", VArr [VStr "a"])])
             (VObj [("children", VObj [("x", VNum 1)])])) "children"
  = VArr [VStr "a"].
Proof.
  apply (merge_array_mismatch_keeps_existing [("children", VArr [VStr "a"])]
           [("children", VObj [("x", VNum 1)])] "children"
           [VStr "a"] (VObj [("x", VNum 1)])).
  - reflexivity.
  - reflexivity.
  - reflexivity.
  - repeat constructor; simpl; tauto.
  - repeat constructor; simpl; tauto.
  - reflexivity.
  - reflexivity.
  - reflexivity.
  - repeat constructor.
  - reflexivity.
Defined.

(** X5: a key that only one side has and that is no name of a member
    of [Object.prototype]: a scalar or an array of scalars that only
    the existing object has is kept as it is, and one that only the
    incoming object has is taken over (an incoming [undefined] reads as
    [undefined]).  The two objects are plain values (no array-like
    object longer than an array can be, no property named
    ["__proto__"]). *)
Theorem merge_one_sided_key (existing incoming : obj) (k : string) (v : value) :
  plainValue (VObj existing) = true -> plainValue (VObj incoming) = true ->
  inherited k = false ->
  NoDup (keys existing) -> NoDup (keys incoming) ->
  (isObject v = false \/
   exists xs, v = VArr xs /\ Forall (fun x => isObject x = false) xs /\
              (N.of_nat (List.length xs) < 4294967295)%N) ->
  (lookup k existing = Some v -> lookup k incoming = None ->
   get (merge (VObj existing) (VObj incoming)) k = v) /\
  (lookup k existing = None -> lookup k incoming = Some v ->
   get (merge (VObj existing) (VObj incoming)) k = v).
Proof.
  intros _ _ _ NDa NDb Hv. rewrite merge_records.
  destruct (fold_mergeField_record existing []) as [d E]. split.
  - intros La Lb. rewrite E, get_fold_mergeField_absent by assumption.
    rewrite <- E.
    destruct Hv as [S|[xs [-> [F B]]]].
    + destruct (get_fold_mergeField_present existing [] k v NDa La)
        as [d0 [G0 G1]].
      rewrite G1, get_mergeKey_scalar; auto.
      * rewrite G0. destruct v; try reflexivity; discriminate.
      * rewrite G0. reflexivity.
    + apply get_copy_array; assumption.
  - intros La Lb. rewrite E.
    assert (Gd : get (VObj d) k = VUndefined).
    { rewrite <- E, get_fold_mergeField_absent by assumption. reflexivity. }
    destruct (get_fold_mergeField_present incoming d k v NDb Lb)
      as [d1 [G0 G1]].
    rewrite G1.
    destruct Hv as [S|[xs [-> [F B]]]].
    + rewrite get_mergeKey_scalar; auto.
      * rewrite G0, Gd. destruct v; try reflexivity; discriminate.
      * rewrite G0, Gd. reflexivity.
    + apply get_mergeKey_array_fresh; auto. rewrite G0, Gd. reflexivity.
Qed.

Lemma merge_one_sided_key_witness :
  get (merge (VObj [("name", VStr "UI")])
             (VObj [("children", VArr [VStr "ui-button"])])) "name"
  = VStr "UI".
Proof.
  apply (proj1 (merge_one_sided_key [("name", VStr "UI")]
                  [("children", VArr [VStr "ui-button"])] "name" (VStr "UI")
                  eq_refl eq_refl eq_refl
                  ltac:(repeat constructor; simpl; tauto)
                  ltac:(repeat constructor; simpl; tauto)
                  (or_introl eq_refl))).
  - reflexivity.
  - reflexivity.
Defined.

(** ** More on [jumpToStory] *)

Lemma indexOf_absent x l : ~ In x l -> indexOf x l = (-1)%Z.
Proof.
  unfold indexOf. induction l as [|y r IH]; intros H; [reflexivity|].
  simpl. destruct (x =? y) eqn:E.
  - apply String.eqb_eq in E. subst. exfalso. apply H. left. reflexivity.
  - rewrite IH by (intros Hin; apply H; right; assumption). reflexivity.
Qed.

(** X6: on a typed mapping with a view mode set and non-empty leaf
    identifiers, [jumpToStory(-1)] with a leaf selected that has a
    predecessor issues exactly one navigation, to the previous leaf in
    key order; so a step forward followed, once the router has selected
    the target, by a step backward leads back to where it started. *)
Theorem jumpToStory_steps_back (m : obj) (vm : string) (nav : list string)
    (i : nat) (Lprev Li : string) :
  typedHash m -> vm <> "" -> Lprev <> "" -> Li <> "" ->
  nth_error (leafKeys m) i = Some Lprev ->
  nth_error (leafKeys m) (S i) = Some Li ->
  jumpToStory (-1) (worldOf m (Some vm) (Some Li) nav)
  = (Return tt, worldOf m (Some vm) (Some Li) (nav ++ [pathTo vm Lprev])) /\
  jumpToStory 1 (worldOf m (Some vm) (Some Lprev) nav)
  = (Return tt, worldOf m (Some vm) (Some Lprev) (nav ++ [pathTo vm Li])).
Proof.
  intros T Hvm Hp Hl Hi Hn. unfold worldOf.
  assert (Hlen : (S i < List.length (leafKeys m))%nat)
    by (apply nth_error_Some; congruence).
  apply String.eqb_neq in Hvm. split.
  - rewrite (jumpToStory_at_leaf m vm nav (S i) Li (-1) T Hl Hn).
    cbn [Z.gtb Z.compare Z.ltb andb]. rewrite Bool.andb_false_r.
    replace (Z.of_nat (S i) =? 0)%Z with false by (symmetry; apply Z.eqb_neq; lia).
    replace (Z.of_nat (S i) + -1)%Z with (Z.of_nat i) by lia.
    rewrite at_index_nat, Hi. cbn [andb truthy]. rewrite Hvm.
    apply String.eqb_neq in Hp. rewrite Hp. reflexivity.
  - rewrite (jumpToStory_at_leaf m vm nav i Lprev 1 T Hp Hi).
    replace (Z.of_nat i =? Z.of_nat (List.length (leafKeys m)) - 1)%Z with false
      by (symmetry; apply Z.eqb_neq; lia).
    replace (Z.of_nat i + 1)%Z with (Z.of_nat (S i)) by lia.
    rewrite at_index_nat, Hn. cbn [andb Z.ltb Z.compare].
    rewrite Bool.andb_false_r. cbn [truthy]. rewrite Hvm.
    apply String.eqb_neq in Hl. rewrite Hl. reflexivity.
Qed.

Lemma jumpToStory_steps_back_witness :
  let m := [("a", VObj [("id", VStr "a")]); ("b", VObj [("id", VStr "b")])] in
  jumpToStory (-1) (worldOf m (Some "story") (Some "b") [])
  = (Return tt, worldOf m (Some "story") (Some "b") ["/story/a"]).
Proof.
  intros m.
  refine (proj1 (jumpToStory_steps_back m "story" [] 0 "a" "b" _ _ _ _ _ _)).
  - split.
    + repeat constructor; simpl; intuition discriminate.
    + repeat constructor; eexists; (split; [reflexivity|]); discriminate.
  - discriminate.
  - discriminate.
  - discriminate.
  - reflexivity.
  - reflexivity.
Defined.

(** The call of [jumpToStory] on a typed mapping with a key selected:
    what is left after the guard and the lookup list. *)
Lemma jumpToStory_at_key m vm nav s direction :
  typedHash m -> s <> "" -> In s (keys m) ->
  jumpToStory direction (worldOf m vm (Some s) nav)
  = (let index := indexOf s (leafKeys m) in
     if (index =? Z.of_nat (List.length (leafKeys m)) - 1)%Z && (direction >? 0)%Z
     then ret tt
     else if (index =? 0)%Z && (direction <? 0)%Z
     then ret tt
     else match vm, at_index (leafKeys m) (index + direction) with
          | Some viewMode, Some result =>
              if truthy (VStr viewMode) && truthy (VStr result)
              then navigate ("/" ++ viewMode ++ "/" ++ result)
              else ret tt
          | _, _ => ret tt
          end) (worldOf m vm (Some s) nav).
Proof.
  intros T Hne Hin. pose proof T as [ND Ty].
  apply in_map_iff in Hin. destruct Hin as [[k v] [E Hin]]. simpl in E. subst k.
  destruct (typedHash_entry m s v T Hin) as [P [fs [-> _]]].
  unfold worldOf, jumpToStory, bind, getState, lift.
  cbn [store storiesHash viewMode storyId].
  rewrite P. cbn [truthy]. apply String.eqb_neq in Hne. rewrite Hne.
  cbn [negb orb]. rewrite (lookupList_leafKeys m T). reflexivity.
Qed.

(** X7: on a typed mapping, with a key selected that is not a leaf (a
    group, or a story that has [children]), [jumpToStory(+1)] does not
    stay in place: it navigates to the first leaf of the whole mapping
    (when there is one with a non-empty identifier and a view mode is
    set); [jumpToStory(-1)] is a no-op. *)
Theorem jumpToStory_from_non_leaf (m : obj) (vm : string) (nav : list string)
    (s : string) :
  typedHash m -> vm <> "" -> s <> "" -> In s (keys m) -> ~ In s (leafKeys m) ->
  (forall L0, hd_error (leafKeys m) = Some L0 -> L0 <> "" ->
     jumpToStory 1 (worldOf m (Some vm) (Some s) nav)
     = (Return tt, worldOf m (Some vm) (Some s) (nav ++ [pathTo vm L0]))) /\
  (leafKeys m = [] ->
     jumpToStory 1 (worldOf m (Some vm) (Some s) nav)
     = (Return tt, worldOf m (Some vm) (Some s) nav)) /\
  jumpToStory (-1) (worldOf m (Some vm) (Some s) nav)
  = (Return tt, worldOf m (Some vm) (Some s) nav).
Proof.
  intros T Hvm Hs Hin Hnl. apply String.eqb_neq in Hvm.
  repeat split.
  - intros L0 H0 Hne. rewrite (jumpToStory_at_key m (Some vm) nav s 1 T Hs Hin).
    cbv zeta. rewrite (indexOf_absent _ _ Hnl).
    destruct (leafKeys m) as [|x r] eqn:E; [discriminate|].
    simpl in H0. injection H0 as ->.
    replace (-1 =? Z.of_nat (List.length (L0 :: r)) - 1)%Z with false
      by (symmetry; apply Z.eqb_neq; simpl List.length; lia).
    cbn [andb Z.eqb Z.add Z.opp Z.pos_sub at_index Z.ltb Z.compare Z.to_nat nth_error].
    cbn [truthy]. rewrite Hvm. apply String.eqb_neq in Hne. rewrite Hne.
    reflexivity.
  - intros E. rewrite (jumpToStory_at_key m (Some vm) nav s 1 T Hs Hin).
    cbv zeta. rewrite E. reflexivity.
  - rewrite (jumpToStory_at_key m (Some vm) nav s (-1) T Hs Hin).
    cbv zeta. rewrite (indexOf_absent _ _ Hnl).
    cbn [Z.gtb Z.compare andb]. rewrite Bool.andb_false_r.
    reflexivity.
Qed.

Lemma jumpToStory_from_non_leaf_witness :
  let m := [("ui", VObj [("id", VStr "ui"); ("children", VArr [VStr "a"])]);
            ("a", VObj [("id", VStr "a")])] in
  jumpToStory 1 (worldOf m (Some "story") (Some "ui") [])
  = (Return tt, worldOf m (Some "story") (Some "ui") ["/story/a"]).
Proof.
  intros m.
  refine (proj1 (jumpToStory_from_non_leaf m "story" [] "ui" _ _ _ _ _) "a" _ _).
  - split.
    + repeat constructor; simpl; intuition discriminate.
    + repeat constructor; eexists; (split; [reflexivity|]);
        intros c; simpl; intros H; try discriminate;
        injection H as <-; eauto.
  - discriminate.
  - discriminate.
  - simpl. auto.
  - simpl. intuition discriminate.
  - reflexivity.
  - discriminate.
Defined.

(** X8: on a typed mapping [jumpToStory] never throws, whatever the
    direction and the selection, and without a view mode (none, or the
    empty string) it never navigates. *)
Theorem jumpToStory_never_throws (m : obj) (vm sid : option string)
    (nav : list string) (direction : Z) :
  typedHash m ->
  fst (jumpToStory direction (worldOf m vm sid nav)) = Return tt /\
  (truthy_str vm = false ->
   jumpToStory direction (worldOf m vm sid nav) = (Return tt, worldOf m vm sid nav)).
Proof.
  intros T.
  assert (G : forall s, s = "" \/ ~ In s (keys m) ->
              jumpToStory direction (worldOf m vm (Some s) nav)
              = (Return tt, worldOf m vm (Some s) nav)).
  { intros s [->|Hs]; [reflexivity|].
    unfold worldOf, jumpToStory, bind, getState.
    cbn [store storiesHash viewMode storyId]. unfold prop.
    destruct (lookup s m) eqn:L.
    - exfalso. apply Hs. apply lookup_In_keys. congruence.
    - cbn [truthy negb]. rewrite Bool.orb_true_r. reflexivity. }
  destruct sid as [s|]; [|split; reflexivity].
  destruct (string_dec s "") as [E|Hne]; [rewrite (G s (or_introl E)); auto|].
  destruct (in_dec string_dec s (keys m)) as [Hin|Hnin];
    [|rewrite (G s (or_intror Hnin)); auto].
  rewrite (jumpToStory_at_key m vm nav s direction T Hne Hin). cbv zeta.
  split.
  - destruct (_ && _); [reflexivity|]. destruct (_ && _); [reflexivity|].
    destruct vm as [v|]; [|reflexivity].
    destruct (at_index _ _); [|reflexivity].
    destruct (_ && _); reflexivity.
  - intros Hv. destruct (_ && _); [reflexivity|]. destruct (_ && _); [reflexivity|].
    destruct vm as [v|]; [|reflexivity].
    destruct (at_index _ _); [|reflexivity].
    simpl in Hv. cbn [truthy]. rewrite Hv. reflexivity.
Qed.

Lemma jumpToStory_never_throws_witness :
  fst (jumpToStory 1 (worldOf [("a", VObj [])] None (Some "a") [])) = Return tt.
Proof.
  apply (jumpToStory_never_throws [("a", VObj [])] None (Some "a") [] 1).
  split.
  - repeat constructor; simpl; tauto.
  - repeat constructor; eexists; (split; [reflexivity|]); discriminate.
Defined.

(** ** [jumpToComponent] *)

Lemma componentLists_reduce m : forall acc,
  typedComponents m ->
  reduceO (fun acc i =>
             isComponent <~ member (snd i) "isComponent" ;;
             if truthy isComponent then
               children <~ member (snd i) "children" ;;
               copy <~ spread children ;;
               Return (acc ++ [copy])
             else Return acc) m acc
  = Return (acc ++ componentLists m).
Proof.
  unfold typedComponents, typedHash, componentLists, values.
  induction m as [|[k v] r IH]; intros acc [[ND T] C].
  - simpl. rewrite app_nil_r. reflexivity.
  - simpl in ND, T, C. inversion ND; inversion T as [|? ? [fs [-> _]] T'];
      inversion C as [|? ? Cv C']; subst.
    cbn [reduceO snd member obind filter map].
    change (truthy (get (VObj fs) "isComponent")) with (isComponentEntry (VObj fs)).
    destruct (isComponentEntry (VObj fs)) eqn:E.
    + destruct (Cv eq_refl) as [xs G]. rewrite G. cbn [spread obind map snd].
      rewrite IH by (repeat split; assumption).
      unfold childList. rewrite G, <- app_assoc. reflexivity.
    + apply IH. repeat split; assumption.
Qed.

(** The call of [jumpToComponent] on a typed mapping with a key
    selected: what is left after the guard and the lookup list. *)
Lemma jumpToComponent_at_key m vm nav s direction :
  typedComponents m -> s <> "" -> In s (keys m) ->
  jumpToComponent direction (worldOf m vm (Some s) nav)
  = (let lookupList := componentLists m in
     let index := findIndex (fun i => includes s i) lookupList in
     if (index =? Z.of_nat (List.length lookupList) - 1)%Z && (direction >? 0)%Z
     then ret tt
     else if (index =? 0)%Z && (direction <? 0)%Z
     then ret tt
     else match at_index lookupList (index + direction) with
          | None => lift (Throw TypeError)
          | Some list =>
              navigate ("/" ++ or_else vm "story" ++ "/"
                        ++ toString (nth 0 list VUndefined))
          end) (worldOf m vm (Some s) nav).
Proof.
  intros TC Hne Hin. pose proof TC as [T _].
  apply in_map_iff in Hin. destruct Hin as [[k v] [E Hin]]. simpl in E. subst k.
  destruct (typedHash_entry m s v T Hin) as [P [fs [-> _]]].
  unfold worldOf, jumpToComponent, bind, getState, lift.
  cbn [store storiesHash viewMode storyId].
  rewrite P. cbn [truthy]. apply String.eqb_neq in Hne. rewrite Hne.
  cbn [negb orb]. rewrite (componentLists_reduce m [] TC). reflexivity.
Qed.

Lemma findIndex_bound {A} (f : A -> bool) l :
  (findIndex f l < Z.of_nat (List.length l))%Z.
Proof.
  induction l as [|x r IH]; simpl List.length; [simpl; lia|].
  simpl findIndex. destruct (f x); [lia|].
  destruct (findIndex f r <? 0)%Z; lia.
Qed.

(** X9: on a typed mapping, with a selection that some component's list
    of children contains (the first such list being number [i] in key
    order): [jumpToComponent(+1)] navigates to the first child of list
    [i + 1] and is a no-op when list [i] is the last; 
    [jumpToComponent(-1)] navigates to the first child of list [i - 1]
    and is a no-op when [i = 0].  The view mode of the path is the
    current one, or ["story"] when none is set; a target list without
    children gives the identifier ["undefined"]. *)
Theorem jumpToComponent_steps (m : obj) (vm : option string)
    (nav : list string) (s : string) (i : nat) :
  typedComponents m -> s <> "" -> In s (keys m) ->
  findIndex (fun l => includes s l) (componentLists m) = Z.of_nat i ->
  let w := worldOf m vm (Some s) nav in
  let go := fun target =>
    (Return tt,
     worldOf m vm (Some s)
       (nav ++ [pathTo (or_else vm "story") (toString (nth 0 target VUndefined))])) in
  (forall target, nth_error (componentLists m) (S i) = Some target ->
                  jumpToComponent 1 w = go target) /\
  (S i = List.length (componentLists m) -> jumpToComponent 1 w = (Return tt, w)) /\
  (forall j target, i = S j -> nth_error (componentLists m) j = Some target ->
                    jumpToComponent (-1) w = go target) /\
  (i = 0%nat -> jumpToComponent (-1) w = (Return tt, w)).
Proof.
  intros TC Hs Hin Hi w go. unfold w, go.
  repeat split.
  - intros target Ht.
    rewrite (jumpToComponent_at_key m vm nav s 1 TC Hs Hin). cbv zeta.
    rewrite Hi.
    assert (Hlen : (S i < List.length (componentLists m))%nat)
      by (apply nth_error_Some; congruence).
    replace (Z.of_nat i =? Z.of_nat (List.length (componentLists m)) - 1)%Z
      with false by (symmetry; apply Z.eqb_neq; lia).
    cbn [andb Z.ltb Z.compare]. rewrite Bool.andb_false_r.
    replace (Z.of_nat i + 1)%Z with (Z.of_nat (S i)) by lia.
    rewrite at_index_nat, Ht. reflexivity.
  - intros Hl.
    rewrite (jumpToComponent_at_key m vm nav s 1 TC Hs Hin). cbv zeta.
    rewrite Hi.
    replace (Z.of_nat i =? Z.of_nat (List.length (componentLists m)) - 1)%Z
      with true by (symmetry; apply Z.eqb_eq; lia).
    reflexivity.
  - intros j target -> Ht.
    rewrite (jumpToComponent_at_key m vm nav s (-1) TC Hs Hin). cbv zeta.
    rewrite Hi. cbn [Z.gtb Z.compare andb]. rewrite Bool.andb_false_r.
    replace (Z.of_nat (S j) =? 0)%Z with false by (symmetry; apply Z.eqb_neq; lia).
    cbn [andb].
    replace (Z.of_nat (S j) + -1)%Z with (Z.of_nat j) by lia.
    rewrite at_index_nat, Ht. reflexivity.
  - intros ->.
    rewrite (jumpToComponent_at_key m vm nav s (-1) TC Hs Hin). cbv zeta.
    rewrite Hi. cbn [Z.gtb Z.compare andb]. rewrite Bool.andb_false_r.
    reflexivity.
Qed.

(** X10: on a typed mapping, with a key selected that no component's
    list of children contains: [jumpToComponent(-1)] throws a
    [TypeError] and leaves the world as it is, whatever the mapping;
    [jumpToComponent(+1)] navigates to the first child of the first
    component list, and is a no-op when there is no component at all. *)
Theorem jumpToComponent_outside_lists (m : obj) (vm : option string)
    (nav : list string) (s : string) :
  typedComponents m -> s <> "" -> In s (keys m) ->
  findIndex (fun l => includes s l) (componentLists m) = (-1)%Z ->
  let w := worldOf m vm (Some s) nav in
  jumpToComponent (-1) w = (Throw TypeError, w) /\
  (componentLists m = [] -> jumpToComponent 1 w = (Return tt, w)) /\
  (forall first rest, componentLists m = first :: rest ->
     jumpToComponent 1 w =
     (Return tt,
      worldOf m vm (Some s)
        (nav ++ [pathTo (or_else vm "story") (toString (nth 0 first VUndefined))]))).
Proof.
  intros TC Hs Hin Hi w. unfold w. repeat split.
  - rewrite (jumpToComponent_at_key m vm nav s (-1) TC Hs Hin). cbv zeta.
    rewrite Hi. cbn [Z.gtb Z.compare andb]. rewrite Bool.andb_false_r.
    reflexivity.
  - intros E.
    rewrite (jumpToComponent_at_key m vm nav s 1 TC Hs Hin). cbv zeta.
    rewrite Hi, E. reflexivity.
  - intros first rest E.
    rewrite (jumpToComponent_at_key m vm nav s 1 TC Hs Hin). cbv zeta.
    rewrite Hi, E.
    replace (-1 =? Z.of_nat (List.length (first :: rest)) - 1)%Z with false
      by (symmetry; apply Z.eqb_neq; simpl List.length; lia).
    reflexivity.
Qed.

(** X11: whatever the mapping, [jumpToComponent] is a silent no-op when
    there is no selection, when the selection is the empty string and
    when it is neither a key of the mapping nor the name of a member of
    [Object.prototype]; in particular on the initial state of the
    module, whose mapping is empty. *)
Theorem jumpToComponent_without_selection (m : obj) (vm sid : option string)
    (nav : list string) (direction : Z) :
  (sid = None \/ sid = Some "" \/
   exists s, sid = Some s /\ ~ In s (keys m) /\ inherited s = false) ->
  jumpToComponent direction (worldOf m vm sid nav)
  = (Return tt, worldOf m vm sid nav).
Proof.
  intros [->|[->|[s [-> [Hs _]]]]]; try reflexivity.
  unfold worldOf, jumpToComponent, bind, getState.
  cbn [store storiesHash viewMode storyId]. unfold prop.
  destruct (lookup s m) eqn:L.
  - exfalso. apply Hs. apply lookup_In_keys. congruence.
  - cbn [truthy negb]. rewrite Bool.orb_true_r. reflexivity.
Qed.

Lemma twoComponents_typed : typedComponents twoComponents.
Proof.
  split; [split|].
  - repeat (constructor; [simpl; intuition discriminate|]). constructor.
  - repeat (constructor;
            [eexists; split; [reflexivity|];
             intros c L; vm_compute in L;
             first [discriminate L | injection L as <-; eexists; reflexivity]|]).
    constructor.
  - repeat (constructor;
            [intros C; first [discriminate C | eexists; reflexivity]|]).
    constructor.
Qed.

Lemma jumpToComponent_steps_witness :
  jumpToComponent 1 (worldOf twoComponents (Some "story") (Some "a1") [])
  = (Return tt, worldOf twoComponents (Some "story") (Some "a1") ["/story/b1"]).
Proof.
  refine (proj1 (jumpToComponent_steps twoComponents (Some "story") [] "a1" 0
                   twoComponents_typed _ _ _) [VStr "b1"] _).
  - discriminate.
  - vm_compute. tauto.
  - reflexivity.
  - reflexivity.
Defined.

Lemma jumpToComponent_outside_lists_witness :
  jumpToComponent (-1) (worldOf twoComponents (Some "story") (Some "a") [])
  = (Throw TypeError, worldOf twoComponents (Some "story") (Some "a") []).
Proof.
  refine (proj1 (jumpToComponent_outside_lists twoComponents (Some "story") []
                   "a" twoComponents_typed _ _ _)).
  - discriminate.
  - vm_compute. tauto.
  - reflexivity.
Defined.

Lemma jumpToComponent_without_selection_witness :
  jumpToComponent 1 (worldOf twoComponents (Some "story") None [])
  = (Return tt, worldOf twoComponents (Some "story") None []).
Proof.
  apply (jumpToComponent_without_selection twoComponents (Some "story") None [] 1).
  left. reflexivity.
Defined.

(** ** More on splitting *)

Lemma push_captures_prefix lim caps : forall A,
  exists rest, fst (push_captures lim A caps) = A ++ rest.
Proof.
  induction caps as [|c r IH]; intros A; simpl.
  - exists []. rewrite app_nil_r. reflexivity.
  - destruct (limit_reached lim (A ++ [c])); simpl.
    + eauto.
    + destruct (IH (A ++ [c])) as [rest E]. rewrite E, <- app_assoc. eauto.
Qed.

(** The loop only appends to the pieces it has. *)
Lemma split_loop_prefix R S lim fuel : forall p q A,
  exists rest, split_loop R S lim fuel p q A = A ++ rest.
Proof.
  induction fuel as [|f IH]; intros p q A; simpl; [eauto|].
  destruct (String.length S <=? q)%nat; [eauto|].
  destruct (exec_at R S q) as [[n caps]|]; [|apply IH].
  destruct (Nat.min (q + n) (String.length S) =? p)%nat; [apply IH|].
  destruct (limit_reached lim _); [eauto|].
  destruct (push_captures_prefix lim caps (A ++ [Some (substring p (q - p) S)]))
    as [r1 E1].
  destruct (push_captures lim _ caps) as [A2 full]. simpl in E1. subst A2.
  destruct full.
  - rewrite <- app_assoc. eauto.
  - destruct (IH (Nat.min (q + n) (String.length S))
                 (Nat.min (q + n) (String.length S))
                 ((A ++ [Some (substring p (q - p) S)]) ++ r1)) as [r2 E2].
    rewrite E2, <- !app_assoc. eauto.
Qed.

(** Positions without a match are passed one by one. *)
Lemma split_loop_skip R S lim k : forall fuel p q A,
  (forall j, (q <= j < q + k)%nat -> exec_at R S j = None) ->
  (q + k <= String.length S)%nat ->
  split_loop R S lim (k + fuel) p q A = split_loop R S lim fuel p (q + k) A.
Proof.
  induction k as [|k IH]; intros fuel p q A H B.
  - rewrite Nat.add_0_r. reflexivity.
  - cbn [Nat.add split_loop].
    assert (E : (String.length S <=? q)%nat = false) by (apply Nat.leb_gt; lia).
    rewrite E, (H q) by lia.
    rewrite IH; [f_equal; lia | intros j Hj; apply H; lia | lia].
Qed.

(** The first piece of a split. *)
Lemma split_head (S : string) (R : RegExp) (lim : option nat) :
  limit_reached lim [] = false ->
  ((forall j, exec_at R S j = None) -> split S R lim = [Some S]) /\
  (forall i n caps,
      (i < String.length S)%nat ->
      (forall j, (j < i)%nat -> exec_at R S j = None) ->
      exec_at R S i = Some (n, caps) -> (0 < i + n)%nat ->
      nth 0 (split S R lim) None = Some (substring 0 i S)).
Proof.
  intros L. split; [apply split_no_match; assumption|].
  intros i n caps Hi Hno Hm Hpos. unfold split. rewrite L.
  assert (E0 : (String.length S =? 0)%nat = false) by (apply Nat.eqb_neq; lia).
  rewrite E0.
  replace (2 * String.length S + 1)%nat
    with (i + Datatypes.S (2 * String.length S - i))%nat by lia.
  rewrite (split_loop_skip R S lim i _ 0 0 [])
    by (try (intros j Hj; apply Hno); lia).
  cbn [Nat.add split_loop].
  assert (E1 : (String.length S <=? i)%nat = false) by (apply Nat.leb_gt; lia).
  rewrite E1, Hm.
  assert (E2 : (Nat.min (i + n) (String.length S) =? 0)%nat = false)
    by (apply Nat.eqb_neq; lia).
  rewrite E2, Nat.sub_0_r. cbn [app].
  destruct (limit_reached lim [Some (substring 0 i S)]); [reflexivity|].
  destruct (push_captures_prefix lim caps [Some (substring 0 i S)]) as [r1 E].
  destruct (push_captures lim _ caps) as [A2 full]. simpl in E. subst A2.
  destruct full; [reflexivity|].
  match goal with
  | |- nth 0 (split_loop ?R ?S ?l ?f ?p ?q ?A) None = _ =>
      destruct (split_loop_prefix R S l f p q A) as [r2 ->]
  end.
  reflexivity.
Qed.

(** ** Selecting a story *)

Lemma substring_length (s : string) : forall n m,
  String.length (substring n m s) = Nat.min m (String.length s - n).
Proof.
  induction s as [|c s IH]; intros n m.
  - destruct n, m; reflexivity.
  - destruct n as [|n].
    + destruct m as [|m]; [reflexivity|]. simpl. rewrite IH.
      rewrite Nat.sub_0_r. reflexivity.
    + simpl. apply IH.
Qed.

Lemma dashes_exec (S : string) (q : nat) :
  exec_at (stringSeparator "--") S q =
  if substring q 2 S =? "--" then Some (2%nat, []) else None.
Proof.
  unfold stringSeparator; cbn [exec_at String.length].
  destruct (substring q 2 S =? "--") eqn:E;
    [|rewrite andb_false_r; reflexivity].
  apply String.eqb_eq in E.
  pose proof (substring_length S q 2) as L. rewrite E in L.
  cbn [String.length] in L.
  replace (q + 2 <=? String.length S)%nat with true; [reflexivity|].
  symmetry. apply Nat.leb_le. lia.
Qed.

(** The kind that [selectStory] reads off an identifier: the text
    before its first double dash, the whole identifier when it has
    none. *)
Lemma kind_of_storyId (sid : string) (i : nat) :
  (forall j, (j < i)%nat -> substring j 2 sid <> "--") ->
  substring i 2 sid = "--" \/ i = String.length sid ->
  nth 0 (split sid (stringSeparator "--") (Some 2%nat)) None
  = Some (substring 0 i sid).
Proof.
  intros Hno [Hi | Hi].
  - assert (L : (i + 2 <= String.length sid)%nat).
    { pose proof (substring_length sid i 2) as L. rewrite Hi in L.
      cbn [String.length] in L. lia. }
    apply (proj2 (split_head sid (stringSeparator "--") (Some 2%nat)
                    eq_refl) i 2%nat []); try lia.
    + intros j Hj. rewrite dashes_exec.
      destruct (substring j 2 sid =? "--") eqn:E; [|reflexivity].
      apply String.eqb_eq in E. destruct (Hno j Hj E).
    + rewrite dashes_exec, Hi. reflexivity.
  - subst i. rewrite substring_all.
    rewrite (proj1 (split_head sid (stringSeparator "--") (Some 2%nat)
                      eq_refl)); [reflexivity|].
    intros j. rewrite dashes_exec.
    destruct (substring j 2 sid =? "--") eqn:E; [|reflexivity].
    apply String.eqb_eq in E.
    destruct (Nat.lt_ge_cases j (String.length sid)) as [Hj | Hj].
    + destruct (Hno j Hj E).
    + pose proof (substring_length sid j 2) as L. rewrite E in L.
      cbn [String.length] in L. lia.
Qed.

Section SelectionProperties.

Variable toId : string -> string -> Outcome string.

(** X12: [selectStory] calls itself at most once: whatever the
    arguments and the state, a call of any greater depth bound gives the
    result of the bound 2 of the definition. With no story name it
    issues exactly one navigation, to the identifier under the view
    mode, ["story"] when the view mode is unset (an empty view mode is
    kept). *)
Theorem selectStory_depth_and_id (n : nat) (kindOrId : option string)
    (story : option string) (w : World) :
  selectStory_rec toId (2 + n) kindOrId story w = selectStory toId kindOrId story w /\
  forall id, selectStory toId (Some id) None w
             = (Return tt, navigated_to w ("/" ++ selectMode w ++ "/" ++ id)) /\
             selectStory toId (Some id) (Some "") w
             = selectStory toId (Some id) None w.
Proof.
  split; [|intros id; split; reflexivity].
  unfold selectStory. cbn [Nat.add selectStory_rec].
  unfold bind, getState, lift, navigate.
  destruct (negb (truthy_str story)); [reflexivity|].
  destruct (negb (truthy_str kindOrId)).
  - destruct (storyId (store w)) as [sid|]; [|reflexivity].
    destruct (nth 0 (split sid (stringSeparator "--") (Some 2%nat)) None);
      [|reflexivity].
    destruct (toId _ _); reflexivity.
  - destruct (toId _ _); reflexivity.
Qed.

(** X13: selecting by kind and story name is selecting the identifier
    that [toId] gives for them: one navigation when [toId] returns, and
    its error, without any navigation, when it throws. *)
Theorem selectStory_by_kind (kind story : string) (w : World) :
  kind <> "" -> story <> "" ->
  selectStory toId (Some kind) (Some story) w =
  match toId kind story with
  | Return id => selectStory toId (Some id) None w
  | Throw e => (Throw e, w)
  end.
Proof.
  intros Hk Hs. unfold selectStory. cbn [selectStory_rec].
  unfold bind, getState, lift, navigate.
  destruct kind as [|c kind]; [congruence|].
  destruct story as [|d story]; [congruence|].
  cbn [truthy_str negb or_else].
  destruct (toId _ _); reflexivity.
Qed.

(** X14: with a story name and no kind, the kind is read off the
    current selection: the text before its first double dash, or the
    whole identifier when it has none; the call then is the selection of
    the identifier [toId] gives for that kind. Without a current
    selection the call throws a TypeError and issues no navigation. *)
Theorem selectStory_in_current_kind (kindOrId : option string)
    (story : string) (w : World) :
  truthy_str kindOrId = false -> story <> "" ->
  (storyId (store w) = None ->
   selectStory toId kindOrId (Some story) w = (Throw TypeError, w)) /\
  (forall sid i,
      storyId (store w) = Some sid ->
      (forall j, (j < i)%nat -> substring j 2 sid <> "--") ->
      substring i 2 sid = "--" \/ i = String.length sid ->
      selectStory toId kindOrId (Some story) w =
      match toId (substring 0 i sid) story with
      | Return id => selectStory toId (Some id) None w
      | Throw e => (Throw e, w)
      end).
Proof.
  intros Hk Hs.
  destruct story as [|d story]; [congruence|].
  split.
  - intros E. unfold selectStory. cbn [selectStory_rec].
    unfold bind, getState, lift. rewrite Hk, E. reflexivity.
  - intros sid i E Hno Hi. unfold selectStory. cbn [selectStory_rec].
    unfold bind, getState, lift, navigate. rewrite Hk, E.
    cbn [truthy_str negb or_else].
    rewrite (kind_of_storyId sid i Hno Hi).
    destruct (toId _ _); reflexivity.
Qed.

End SelectionProperties.

Lemma selectStory_by_kind_witness :
  selectStory toId_sample (Some "button") (Some "Large")
    (worldOf [] (Some "story") (Some "button--small") [])
  = (Return tt,
     worldOf [] (Some "story") (Some "button--small") ["/story/button--large"]).
Proof.
  rewrite (selectStory_by_kind toId_sample "button" "Large"); [reflexivity | |];
    discriminate.
Defined.

Lemma selectStory_in_current_kind_witness :
  selectStory toId_sample None (Some "Input")
    (worldOf [] (Some "story") (Some "ui-button") [])
  = (Return tt,
     worldOf [] (Some "story") (Some "ui-button") ["/story/ui-button--input"]).
Proof.
  refine (eq_trans
            (proj2 (selectStory_in_current_kind toId_sample None "Input"
                      (worldOf [] (Some "story") (Some "ui-button") [])
                      eq_refl _)
               "ui-button" 9%nat eq_refl _ _) _).
  - discriminate.
  - intros j Hj. do 9 (destruct j as [|j]; [discriminate|]). lia.
  - right. reflexivity.
  - reflexivity.
Defined.

(** ** The root of a path *)

Lemma split_loop_no_match_from R S lim fuel p A : forall q,
  (forall j, (q <= j)%nat -> exec_at R S j = None) ->
  split_loop R S lim fuel p q A =
  A ++ [Some (substring p (String.length S - p) S)].
Proof.
  induction fuel as [|f IH]; intros q H; simpl; [reflexivity|].
  destruct (String.length S <=? q)%nat; [reflexivity|].
  rewrite (H q) by lia. apply IH. intros j Hj. apply H. lia.
Qed.

(** A split into at most two pieces whose separator first matches at
    [i], without captures: the rest is split from the end [e] of that
    match on. *)
Lemma split2_first_match (S : string) (R : RegExp) (i n : nat) :
  (i < String.length S)%nat ->
  (forall j, (j < i)%nat -> exec_at R S j = None) ->
  exec_at R S i = Some (n, []) -> (0 < i + n)%nat ->
  split S R (Some 2%nat) =
  split_loop R S (Some 2%nat) (2 * String.length S - i)
    (Nat.min (i + n) (String.length S)) (Nat.min (i + n) (String.length S))
    [Some (substring 0 i S)].
Proof.
  intros Hi Hno Hm Hpos. unfold split. cbn [limit_reached List.length Nat.eqb].
  assert (E0 : (String.length S =? 0)%nat = false) by (apply Nat.eqb_neq; lia).
  rewrite E0.
  replace (2 * String.length S + 1)%nat
    with (i + Datatypes.S (2 * String.length S - i))%nat by lia.
  rewrite (split_loop_skip R S (Some 2%nat) i _ 0 0 [])
    by (try (intros j Hj; apply Hno); lia).
  cbn [Nat.add split_loop].
  assert (E1 : (String.length S <=? i)%nat = false) by (apply Nat.leb_gt; lia).
  rewrite E1, Hm.
  assert (E2 : (Nat.min (i + n) (String.length S) =? 0)%nat = false)
    by (apply Nat.eqb_neq; lia).
  rewrite E2, Nat.sub_0_r. reflexivity.
Qed.

(** X15: when the root separator matches once (first at [i], ending at
    [e], without captures, and nowhere from [e] on), the root is the
    text before the match and the groups are those of the text after
    it; when nothing follows the match, there is no root and the groups
    are those of the whole path, separator included. *)
Theorem splitPath_root (p : string) (seps : SeparatorOptions) (i n : nat) :
  let e := Nat.min (i + n) (String.length p) in
  let rest := substring e (String.length p - e) p in
  (i < String.length p)%nat ->
  (forall j, (j < i)%nat -> exec_at (rootSeparator seps) p j = None) ->
  exec_at (rootSeparator seps) p i = Some (n, []) -> (0 < i + n)%nat ->
  (forall j, (e <= j)%nat -> exec_at (rootSeparator seps) p j = None) ->
  splitPath p seps =
  if rest =? ""
  then {| root := None;
          groups := filter_truthy (split p (groupSeparator seps) None) |}
  else {| root := Some (substring 0 i p);
          groups := filter_truthy (split rest (groupSeparator seps) None) |}.
Proof.
  intros e rest Hi Hno Hm Hpos Hafter. unfold splitPath.
  rewrite (split2_first_match p (rootSeparator seps) i n Hi Hno Hm Hpos).
  rewrite split_loop_no_match_from by exact Hafter.
  cbn [app nth]. fold e. fold rest. unfold or_else, truthy_str.
  destruct (rest =? ""); reflexivity.
Qed.

Lemma splitPath_root_witness :
  splitPath "Design|UI/Button"
    (mkSeparatorOptions defaultRootSeparator defaultGroupSeparator)
  = {| root := Some "Design"; groups := ["UI"; "Button"] |}.
Proof.
  refine (eq_trans
            (splitPath_root "Design|UI/Button"
               (mkSeparatorOptions defaultRootSeparator defaultGroupSeparator)
               6%nat 1%nat _ _ _ _ _) _).
  - simpl. lia.
  - intros j Hj. do 6 (destruct j as [|j]; [reflexivity|]). lia.
  - reflexivity.
  - lia.
  - intros j Hj. do 7 (destruct j as [|j]; [simpl in Hj; lia|]).
    do 9 (destruct j as [|j]; [reflexivity|]).
    reflexivity.
  - vm_compute. reflexivity.
Defined.

(** X16: when the root separator matches a second time, at [j], only
    the text between the two matches is split into groups: the path
    from the second match on is dropped.  When the two matches are
    adjacent there is no root and the whole path is split into
    groups. *)
Theorem splitPath_second_root_separator (p : string) (seps : SeparatorOptions)
    (i n j n' : nat) (caps' : list (option string)) :
  let e := Nat.min (i + n) (String.length p) in
  let middle := substring e (j - e) p in
  (i < String.length p)%nat ->
  (forall k, (k < i)%nat -> exec_at (rootSeparator seps) p k = None) ->
  exec_at (rootSeparator seps) p i = Some (n, []) -> (0 < i + n)%nat ->
  (e <= j < String.length p)%nat ->
  (forall k, (e <= k < j)%nat -> exec_at (rootSeparator seps) p k = None) ->
  exec_at (rootSeparator seps) p j = Some (n', caps') ->
  Nat.min (j + n') (String.length p) <> e ->
  splitPath p seps =
  if middle =? ""
  then {| root := None;
          groups := filter_truthy (split p (groupSeparator seps) None) |}
  else {| root := Some (substring 0 i p);
          groups := filter_truthy (split middle (groupSeparator seps) None) |}.
Proof.
  intros e middle Hi Hno Hm Hpos Hj Hbetween Hm' Hne. unfold splitPath.
  rewrite (split2_first_match p (rootSeparator seps) i n Hi Hno Hm Hpos).
  fold e.
  replace (2 * String.length p - i)%nat
    with ((j - e) + Datatypes.S (2 * String.length p - i - (j - e) - 1))%nat
    by lia.
  rewrite split_loop_skip by (try (intros k Hk; apply Hbetween); lia).
  replace (e + (j - e))%nat with j by lia.
  cbn [split_loop].
  assert (E1 : (String.length p <=? j)%nat = false) by (apply Nat.leb_gt; lia).
  rewrite E1, Hm'.
  assert (E2 : (Nat.min (j + n') (String.length p) =? e)%nat = false)
    by (apply Nat.eqb_neq; exact Hne).
  rewrite E2. cbn [app limit_reached List.length Nat.eqb nth].
  fold middle. unfold or_else, truthy_str.
  destruct (middle =? ""); reflexivity.
Qed.

Lemma splitPath_second_root_separator_witness :
  splitPath "A|B|C/D"
    (mkSeparatorOptions defaultRootSeparator defaultGroupSeparator)
  = {| root := Some "A"; groups := ["B"] |}.
Proof.
  refine (eq_trans
            (splitPath_second_root_separator "A|B|C/D"
               (mkSeparatorOptions defaultRootSeparator defaultGroupSeparator)
               1%nat 1%nat 3%nat 1%nat [] _ _ _ _ _ _ _ _) _).
  - simpl. lia.
  - intros k Hk. destruct k as [|k]; [reflexivity|]. lia.
  - reflexivity.
  - lia.
  - simpl. lia.
  - intros k Hk. simpl in Hk. assert (k = 2%nat) as -> by lia. reflexivity.
  - reflexivity.
  - simpl. lia.
  - vm_compute. reflexivity.
Defined.

(** ** More on the registration of a batch *)

Section BatchOutcome.

Variable sanitize : string -> string.

Lemma chainOf_length item :
  List.length (chainOf sanitize item) =
  let s := splitPath (kind item)
             {| rootSeparator := hierarchyRootSeparator (options (parameters item));
                groupSeparator := hierarchySeparator (options (parameters item)) |} in
  ((if truthy_str (root s) then 1 else 0) + List.length (groups s))%nat.
Proof.
  unfold chainOf, rootAndGroups. cbv zeta.
  set (s := splitPath _ _).
  set (names := (if truthy_str (root s) then [or_else (root s) ""] else [])
                ++ groups s).
  destruct (reduceGroups_spec sanitize (root s) (map toGroup names)
              (map toGroup names) 0 [] eq_refl) as [L _].
  cbv zeta in L. rewrite L, length_map. unfold names. rewrite length_app.
  destruct (truthy_str (root s)); reflexivity.
Qed.

Lemma chainOf_nil item : chainOf sanitize item = [] <-> noSegment item = true.
Proof.
  rewrite <- length_zero_iff_nil, chainOf_length. unfold noSegment. cbv zeta.
  rewrite andb_true_iff, negb_true_iff, Nat.eqb_eq.
  destruct (truthy_str (root _)); split; intros H.
  - lia.
  - destruct H; discriminate.
  - split; [reflexivity | lia].
  - destruct H; lia.
Qed.

Lemma addStory_outcome acc item :
  addStory sanitize acc item =
  if noSegment item then Throw TypeError
  else match addStory sanitize acc item with
       | Return acc' => Return acc'
       | Throw e => Return acc
       end.
Proof.
  destruct (noSegment item) eqn:E.
  - apply chainOf_nil in E. unfold addStory. unfold chainOf in E. cbv zeta in E.
    rewrite E. reflexivity.
  - assert (N : chainOf sanitize item <> []).
    { intros H. apply chainOf_nil in H. congruence. }
    unfold addStory. unfold chainOf in N. cbv zeta in N.
    set (chain := rootAndGroups sanitize _ _) in *.
    destruct (nth_error chain (List.length chain - 1)) as [g|] eqn:G.
    + rewrite (nth_error_nth (map VObj chain) _ VUndefined
                 (map_nth_error VObj _ _ G)).
      reflexivity.
    + apply nth_error_None in G. destruct chain; [congruence | simpl in G; lia].
Qed.

Lemma reduce_addStory_outcome batch : forall acc,
  if existsb noSegment batch
  then reduceO (addStory sanitize) batch acc = Throw TypeError
  else exists h, reduceO (addStory sanitize) batch acc = Return h.
Proof.
  induction batch as [|item rest IH]; intros acc; cbn [existsb reduceO].
  - eauto.
  - rewrite addStory_outcome. destruct (noSegment item); [reflexivity|].
    cbn [orb obind].
    destruct (addStory sanitize acc item) as [acc'|e]; apply IH.
Qed.


End BatchOutcome.

Section BatchLeaves.

Variable sanitize : string -> string.

Lemma leaf_ok_mono K K' kv :
  (forall k, In k K -> In k K') -> leaf_ok K kv -> leaf_ok K' kv.
Proof.
  intros HK H fs E L. destruct (H fs E L) as [A [B [C [p [D F]]]]].
  repeat split; try assumption. exists p. auto.
Qed.

(** A group merged into a mapping has an array of [children]. *)
Lemma merged_group_children acc g root gs :
  Forall entry_ok acc ->
  In g (rootAndGroups sanitize root gs) ->
  forall c, exists fs xs,
    merge (orEmpty (prop acc (groupKey g))) (VObj (withChild g c)) = VObj fs /\
    lookup "children" fs = Some (VArr xs).
Proof.
  intros Hacc Hin c.
  destruct (chain_shape sanitize _ _ g Hin)
    as [name [idv [parent [d [ic [r ->]]]]]].
  match goal with
  | |- context [prop acc ?k] => destruct (entry_record acc k Hacc) as [x ->]
  end.
  match goal with
  | |- context [merge _ (VObj ?g0)] =>
      assert (Hm : exists cs, NoDup (keys g0) /\ lookup "children" g0 = Some (VArr cs))
  end.
  { unfold withChild. destruct (truthy c); eexists; (split; [|reflexivity]);
      repeat constructor; simpl; intuition discriminate. }
  destruct Hm as [cs [ND L]].
  apply (merge_children_array x _ cs ND L).
Qed.

Lemma addGroups_leaf_ok paths root gs todo : forall index acc,
  incl todo (rootAndGroups sanitize root gs) ->
  Forall entry_ok acc ->
  Forall (leaf_ok (keys acc)) acc ->
  Forall (leaf_ok (keys (addGroups paths todo index acc)))
         (addGroups paths todo index acc).
Proof.
  induction todo as [|g rest IH]; intros index acc Hin Hok Hacc; [assumption|].
  cbn [addGroups]. cbv zeta.
  assert (Hg : In g (rootAndGroups sanitize root gs)) by (apply Hin; left; reflexivity).
  apply IH.
  - intros x Hx. apply Hin. right. assumption.
  - apply Forall_obj_set; [|assumption].
    apply (merged_group_ok sanitize); [assumption|].
    apply (chain_shape sanitize root gs). assumption.
  - apply Forall_obj_set.
    + destruct (merged_group_children acc g root gs Hok Hg
                  (nth (index + 1) paths VUndefined)) as [fs [xs [E L]]].
      fold (groupKey g). rewrite E. intros fs' [= <-] L'. congruence.
    + eapply Forall_impl; [|exact Hacc].
      intros kv. apply leaf_ok_mono. intros k Hk.
      apply (proj2 (In_keys_obj_set _ _ _ _)). right. assumption.
Qed.

(** The last group of a chain, read by [addStory]. *)
Lemma addStory_return acc item acc' :
  addStory sanitize acc item = Return acc' ->
  exists g,
    nth_error (chainOf sanitize item) (List.length (chainOf sanitize item) - 1)
    = Some g /\
    acc' = obj_set (id item)
             (VObj (obj_assign (item_obj item) [("parent", VStr (groupKey g))]))
             (addGroups (map (fun g => prop g "id") (chainOf sanitize item)
                         ++ [VStr (id item)])
                (chainOf sanitize item) 0 acc).
Proof.
  unfold addStory, chainOf. cbv zeta.
  set (chain := rootAndGroups sanitize _ _).
  destruct (nth_error chain (List.length chain - 1)) as [g|] eqn:G.
  - rewrite (nth_error_nth (map VObj chain) _ VUndefined
               (map_nth_error VObj _ _ G)).
    cbn [member obind get]. intros [= <-]. exists g. split; [reflexivity|].
    destruct (chain_shape sanitize _ _ g (nth_error_In _ _ G))
      as [name [idv [parent [d [ic [r ->]]]]]].
    reflexivity.
  - apply nth_error_None in G.
    rewrite (nth_overflow (map VObj chain) VUndefined)
      by (rewrite length_map; exact G).
    discriminate.
Qed.

Lemma story_leaf_ok K item p :
  In p K ->
  leaf_ok K (id item, VObj (obj_assign (item_obj item) [("parent", VStr p)])).
Proof.
  intros Hp fs [= <-]. unfold item_obj.
  destruct (children item) as [cs|]; [discriminate|]. intros _.
  repeat split; try reflexivity. exists p. split; [reflexivity | assumption].
Qed.

Lemma addStory_leaf_ok acc item acc' :
  Forall entry_ok acc -> Forall (leaf_ok (keys acc)) acc ->
  addStory sanitize acc item = Return acc' ->
  Forall (leaf_ok (keys acc')) acc'.
Proof.
  intros Hok Hacc H.
  destruct (addStory_return acc item acc' H) as [g [G ->]].
  set (chain := chainOf sanitize item) in *.
  set (paths := map _ chain ++ _).
  pose proof (addGroups_leaf_ok paths _ _ chain 0 acc (incl_refl _) Hok Hacc) as H1.
  apply Forall_obj_set.
  - apply (story_leaf_ok _ item (groupKey g)). apply (proj2 (In_keys_obj_set _ _ _ _)). right.
    apply (proj2 (keys_addGroups sanitize _ _ _ _ _)). right. apply in_map. eapply nth_error_In; exact G.
  - eapply Forall_impl; [|exact H1].
    intros kv. apply leaf_ok_mono. intros k Hk.
    apply (proj2 (In_keys_obj_set _ _ _ _)). right. assumption.
Qed.

Lemma reduce_addStory_leaf_ok batch : forall acc h,
  Forall entry_ok acc -> Forall (leaf_ok (keys acc)) acc ->
  reduceO (addStory sanitize) batch acc = Return h ->
  Forall (leaf_ok (keys h)) h.
Proof.
  induction batch as [|item rest IH]; intros acc h Hok Hacc; simpl.
  - intros [= <-]. assumption.
  - destruct (addStory sanitize acc item) as [acc'|e] eqn:E; simpl; [|discriminate].
    apply IH.
    + eapply addStory_ok; eassumption.
    + eapply addStory_leaf_ok; eassumption.
Qed.

Lemma buildHash_leaf_ok batch h :
  buildHash sanitize batch = Return h -> Forall (leaf_ok (keys h)) h.
Proof. apply reduce_addStory_leaf_ok; constructor. Qed.

Lemma buildHash_typedComponents batch h :
  buildHash sanitize batch = Return h -> typedComponents h.
Proof.
  intros H. pose proof (buildHash_typed sanitize batch h H) as T.
  split; [exact T|].
  pose proof (buildHash_leaf_ok batch h H) as Hl.
  destruct T as [_ T]. rewrite Forall_forall in *.
  intros v Hv C.
  destruct (T v Hv) as [fs [-> Hc]].
  apply in_map_iff in Hv. destruct Hv as [[k v'] [E Hin]]. simpl in E. subst v'.
  destruct (lookup "children" fs) as [c|] eqn:L.
  - destruct (Hc c eq_refl) as [xs ->]. exists xs.
    simpl. unfold prop. rewrite L. reflexivity.
  - destruct (Hl _ Hin fs eq_refl L) as [_ [_ [N _]]].
    unfold isComponentEntry in C. simpl in C. unfold prop in C.
    rewrite N in C. discriminate.
Qed.

(** X18: the keys of the mapping [setStories] builds are exactly the
    identifiers of the groups of the chains and of the stories of the
    batch, each once, when none of these identifiers is ["__proto__"]
    (whose assignment sets the prototype of the mapping and adds no
    key). *)
Theorem setStories_mapping_keys (batch : list StoryInput) (h : obj) :
  buildHash sanitize batch = Return h ->
  plainKeys sanitize batch ->
  NoDup (keys h) /\
  forall k, In k (keys h) <->
            exists item, In item batch /\
                         (k = id item \/
                          exists g, In g (chainOf sanitize item) /\
                                    k = groupKey g).
Proof.
  intros H _. split; [apply (buildHash_typed sanitize batch h H)|].
  intros k. rewrite (buildHash_keys sanitize batch h k H).
  split; intros [item [Hin Hk]]; exists item; (split; [assumption|]).
  - unfold itemKeys in Hk. apply in_app_iff in Hk. destruct Hk as [Hk|[Hk|[]]].
    + right. apply in_map_iff in Hk. destruct Hk as [g [E G]]. eauto.
    + left. congruence.
  - unfold itemKeys. apply in_app_iff. destruct Hk as [->|[g [G ->]]].
    + right. left. reflexivity.
    + left. apply in_map. exact G.
Qed.

(** X19: in the mapping [setStories] builds, every entry is an object
    whose [children], when present, is an array; every entry marked as
    a component has [children]; and every entry without [children] is a
    story that carries its key as [id] and whose [parent] is a key of
    the mapping. *)
Theorem setStories_mapping_entries (batch : list StoryInput) (h : obj) :
  buildHash sanitize batch = Return h ->
  typedComponents h /\
  forall k v, lookup k h = Some v -> isLeaf v = true ->
    get v "id" = VStr k /\ isStory v = true /\
    exists p, get v "parent" = VStr p /\ In p (keys h).
Proof.
  intros H. split; [apply (buildHash_typedComponents batch h H)|].
  intros k v L Hleaf.
  pose proof (buildHash_leaf_ok batch h H) as Hl. rewrite Forall_forall in Hl.
  destruct v as [| | | | | | fs |]; try discriminate.
  simpl in Hleaf. unfold has in Hleaf.
  destruct (lookup "children" fs) eqn:Lc; [discriminate|].
  destruct (Hl _ (lookup_In _ _ _ L) fs eq_refl Lc) as [A [B [_ D]]].
  auto.
Qed.

End BatchLeaves.

Lemma setStories_mapping_keys_witness :
  exists h,
    buildHash sanitize_sample
      [storyOf "ui-button--default" "UI/Button";
       storyOf "ui-input--default" "UI/Input"] = Return h /\
    NoDup (keys h) /\ In "ui-input" (keys h).
Proof.
  destruct (setStories_mapping_keys sanitize_sample
              [storyOf "ui-button--default" "UI/Button";
               storyOf "ui-input--default" "UI/Input"] _ eq_refl
              ltac:(plain_keys)) as [ND K].
  eexists. split; [reflexivity|]. split; [exact ND|].
  apply (proj2 (K "ui-input")).
  exists (storyOf "ui-input--default" "UI/Input").
  split; [right; left; reflexivity|]. right.
  eexists. split; [vm_compute; right; left; reflexivity | reflexivity].
Defined.

Lemma setStories_mapping_entries_witness :
  isStory
    (prop (storiesHash
             (store (snd (setStories sanitize_sample
                            [storyOf "ui-button--default" "UI/Button";
                             storyOf "ui-input--default" "UI/Input"]
                            (emptyWorld None None)))))
          "ui-input--default")
  = true.
Proof.
  set (h := storiesHash _).
  assert (H : buildHash sanitize_sample
                [storyOf "ui-button--default" "UI/Button";
                 storyOf "ui-input--default" "UI/Input"] = Return h)
    by (vm_compute; reflexivity).
  destruct (setStories_mapping_entries sanitize_sample _ h H) as [_ Hl].
  destruct (Hl "ui-input--default" (prop h "ui-input--default"))
    as [_ [B _]];
    [vm_compute; reflexivity | vm_compute; reflexivity | exact B].
Defined.

Section BatchLookup.

Variable sanitize : string -> string.




End BatchLookup.


(** ** The key of a group name *)

Lemma is_alnum_upper c : is_alnum c = true -> is_alnum (upper c) = true.
Proof.
  destruct c as [[] [] [] [] [] [] [] []]; vm_compute; intros H;
    first [reflexivity | discriminate].
Qed.

Lemma toKey_chars_tail cs : forall run,
  Forall (fun c => is_alnum c = false) cs ->
  toKey_chars run cs = rev run ++ cs.
Proof.
  induction cs as [|c r IH]; intros run F; simpl.
  - rewrite app_nil_r. reflexivity.
  - inversion F as [|? ? Hc Fr]; subst. rewrite Hc, IH by assumption.
    simpl. rewrite <- app_assoc. reflexivity.
Qed.

(** The result of the replacement: alphanumeric characters, then what
    is left of a last run of other characters. *)
Lemma toKey_chars_shape cs : forall run,
  Forall (fun c => is_alnum c = false) run ->
  exists A T, toKey_chars run cs = A ++ T /\
              Forall (fun c => is_alnum c = true) A /\
              Forall (fun c => is_alnum c = false) T.
Proof.
  induction cs as [|c r IH]; intros run F; simpl.
  - exists [], (rev run). repeat split; [constructor|].
    apply Forall_rev. assumption.
  - destruct (is_alnum c) eqn:Hc.
    + destruct (IH [] (Forall_nil _)) as [A [T [E [FA FT]]]].
      destruct run as [|d run'].
      * exists (c :: A), T. rewrite E. repeat split; [constructor|]; assumption.
      * exists (upper c :: A), T. rewrite E.
        repeat split; [constructor|]; auto using is_alnum_upper.
    + apply IH. constructor; assumption.
Qed.

Lemma toKey_chars_fixed A T :
  Forall (fun c => is_alnum c = true) A ->
  Forall (fun c => is_alnum c = false) T ->
  toKey_chars [] (A ++ T) = A ++ T.
Proof.
  intros FA FT. induction FA as [|c A Hc FA IH]; simpl.
  - apply (toKey_chars_tail T []). assumption.
  - rewrite Hc, IH. reflexivity.
Qed.

(** X21: [toKey] leaves a name of alphanumeric characters, followed or
    not by other characters, as it is; its result has that form; so
    applying it twice is applying it once. *)
Theorem toKey_idempotent (input : string) :
  toKey (toKey input) = toKey input /\
  (exists A T, list_ascii_of_string (toKey input) = A ++ T /\
               Forall (fun c => is_alnum c = true) A /\
               Forall (fun c => is_alnum c = false) T) /\
  (forall A T, Forall (fun c => is_alnum c = true) A ->
               Forall (fun c => is_alnum c = false) T ->
               toKey (string_of_list_ascii (A ++ T)) = string_of_list_ascii (A ++ T)).
Proof.
  unfold toKey.
  destruct (toKey_chars_shape (list_ascii_of_string input) [] (Forall_nil _))
    as [A [T [E [FA FT]]]].
  rewrite E, !list_ascii_of_string_of_list_ascii, toKey_chars_fixed by assumption.
  split; [reflexivity|]. split; [eauto|].
  intros A' T' FA' FT'.
  rewrite list_ascii_of_string_of_list_ascii, toKey_chars_fixed by assumption.
  reflexivity.
Qed.

(** ** The entries of the groups of a batch *)

Lemma assignMergeValue_NoDup fs k v :
  NoDup (keys fs) ->
  exists fs', assignMergeValue (VObj fs) k v = VObj fs' /\ NoDup (keys fs').
Proof.
  intros ND. unfold assignMergeValue, assign_dest.
  destruct (is_undefined v); [destruct (has_key (VObj fs) k)|];
    eauto using NoDup_keys_obj_set.
Qed.

Lemma mergeKey_NoDup rec fs k sv :
  NoDup (keys fs) ->
  exists fs', mergeKey rec (VObj fs) k sv = VObj fs' /\ NoDup (keys fs').
Proof.
  intros ND. unfold mergeKey.
  destruct (isObject sv);
    [destruct (negb (is_undefined (customizer (get (VObj fs) k) sv)));
       [|destruct sv]|];
    apply assignMergeValue_NoDup; assumption.
Qed.

Lemma fold_mergeField_NoDup fs : forall d,
  NoDup (keys d) ->
  exists d', fold_left mergeField fs (VObj d) = VObj d' /\ NoDup (keys d').
Proof.
  induction fs as [|[k sv] r IH]; intros d ND; [simpl; eauto|].
  rewrite fold_mergeField_cons.
  destruct (mergeKey_NoDup (fun dest => baseMerge dest sv) d k sv ND)
    as [d1 [E ND1]].
  rewrite E. apply IH. assumption.
Qed.

Lemma merge_NoDup a b :
  exists fs, merge (VObj a) (VObj b) = VObj fs /\ NoDup (keys fs).
Proof.
  rewrite merge_records.
  destruct (fold_mergeField_NoDup a [] (NoDup_nil _)) as [d [E ND]].
  rewrite E. apply fold_mergeField_NoDup. assumption.
Qed.

(** A scalar of the incoming object replaces what the existing object
    has under the key, unless that is an array. *)
Lemma merge_get_scalar a b k vb :
  NoDup (keys a) -> NoDup (keys b) ->
  lookup k b = Some vb -> isObject vb = false -> vb <> VUndefined ->
  (forall va, lookup k a = Some va -> isObject va = false) ->
  get (merge (VObj a) (VObj b)) k = vb.
Proof.
  intros NDa NDb Lb Sb Ub Ha. rewrite merge_records.
  destruct (fold_mergeField_record a []) as [d E]. rewrite E.
  assert (Gd : isArray (get (VObj d) k) = false).
  { rewrite <- E. destruct (lookup k a) as [va|] eqn:La.
    - destruct (get_fold_mergeField_present a [] k va NDa La) as [d0 [G0 G1]].
      specialize (Ha va eq_refl).
      rewrite G1, get_mergeKey_scalar; auto.
      + rewrite G0. destruct va; try reflexivity; discriminate.
      + rewrite G0. reflexivity.
    - rewrite get_fold_mergeField_absent by assumption. reflexivity. }
  destruct (get_fold_mergeField_present b d k vb NDb Lb) as [d1 [G0 G1]].
  rewrite G1, get_mergeKey_scalar; auto.
  - destruct vb; try reflexivity; congruence.
  - rewrite G0. exact Gd.
Qed.

(** The arrays of scalars under a key of both objects are united. *)
Lemma merge_get_union a b k dst src :
  NoDup (keys a) -> NoDup (keys b) ->
  lookup k a = Some (VArr dst) -> lookup k b = Some (VArr src) ->
  Forall (fun v => isObject v = false) dst ->
  (N.of_nat (List.length dst) < 4294967295)%N ->
  get (merge (VObj a) (VObj b)) k = VArr (fold_left push_missing src dst).
Proof.
  intros NDa NDb La Lb F B. rewrite merge_records.
  destruct (fold_mergeField_record a []) as [d E].
  pose proof (get_copy_array a k dst NDa La F B) as Gd. rewrite E in Gd.
  rewrite E.
  destruct (get_fold_mergeField_present b d k (VArr src) NDb Lb)
    as [d1 [G0 G1]].
  rewrite G1. apply get_mergeKey_array_union. rewrite G0. exact Gd.
Qed.

(** An array of scalars under a key of the incoming object only is
    copied. *)
Lemma merge_get_fresh a b k src :
  NoDup (keys b) ->
  lookup k a = None -> lookup k b = Some (VArr src) ->
  Forall (fun v => isObject v = false) src ->
  (N.of_nat (List.length src) < 4294967295)%N ->
  get (merge (VObj a) (VObj b)) k = VArr src.
Proof.
  intros NDb La Lb F B. rewrite merge_records.
  destruct (fold_mergeField_record a []) as [d E]. rewrite E.
  assert (Gd : get (VObj d) k = VUndefined).
  { rewrite <- E, get_fold_mergeField_absent by assumption. reflexivity. }
  destruct (get_fold_mergeField_present b d k (VArr src) NDb Lb)
    as [d1 [G0 G1]].
  rewrite G1. apply get_mergeKey_array_fresh; auto.
  rewrite G0, Gd. reflexivity.
Qed.

Lemma get_lookup fs k v :
  get (VObj fs) k = v -> v <> VUndefined -> lookup k fs = Some v.
Proof.
  simpl. unfold prop. destruct (lookup k fs); congruence.
Qed.

Lemma Forall_scalar_strings cs :
  Forall (fun v => isObject v = false) (map VStr cs).
Proof. apply Forall_forall. intros v H. apply in_map_iff in H.
  destruct H as [s [<- _]]. reflexivity.
Qed.

(** The object a visit merges into the mapping. *)
Lemma withChild_fields g c :
  groupShape g ->
  NoDup (keys (withChild g (VStr c))) /\
  lookup "children" (withChild g (VStr c))
  = Some (VArr (if c =? "" then [] else [VStr c])) /\
  forall f, In f scalarFields ->
    lookup f (withChild g (VStr c)) = lookup f g /\
    exists vb, lookup f g = Some vb /\ isObject vb = false /\ vb <> VUndefined.
Proof.
  intros [name [idv [parent [d [ic [r [-> Hp]]]]]]].
  unfold withChild. cbn [truthy].
  assert (ND : NoDup ["name"; "id"; "parent"; "depth"; "children";
                      "isComponent"; "isRoot"]).
  { repeat (constructor; [simpl; intuition discriminate|]). constructor. }
  destruct (c =? ""); cbn [negb]; (split; [exact ND|]);
    (split; [reflexivity|]);
    intros f [<-|[<-|[<-|[<-|[<-|[<-|[]]]]]]];
    (split; [reflexivity|]); eexists; (split; [reflexivity|]);
    try (split; [reflexivity | discriminate]);
    destruct Hp as [->|[p ->]]; (split; [reflexivity | discriminate]).
Qed.

(** One visit of a group: the fields of the visiting group replace
    those of the entry, and its child joins the children. *)
Lemma merge_visit fs0 cs g c :
  groupShape g ->
  NoDup (keys fs0) ->
  (lookup "children" fs0 = Some (VArr (map VStr cs)) \/
   (lookup "children" fs0 = None /\ cs = [])) ->
  (forall f va, In f scalarFields -> lookup f fs0 = Some va ->
                isObject va = false) ->
  (N.of_nat (List.length cs) < 4294967295)%N ->
  exists fs',
    merge (VObj fs0) (VObj (withChild g (VStr c))) = VObj fs' /\
    groupEntry fs' g
      (if negb (c =? "") && negb (existsb (String.eqb c) cs)
       then cs ++ [c] else cs).
Proof.
  intros Hg ND0 Hc Hs B.
  destruct (withChild_fields g c Hg) as [NDb [Lc Lf]].
  set (b := withChild g (VStr c)) in *.
  destruct (merge_NoDup fs0 b) as [fs' [E ND]].
  exists fs'. split; [exact E|]. split; [exact ND|]. split.
  - apply get_lookup; [|destruct (_ && _); discriminate]. rewrite <- E.
    destruct Hc as [L0 | [L0 ->]].
    + rewrite (merge_get_union fs0 b "children" (map VStr cs) _ ND0 NDb L0 Lc
                 (Forall_scalar_strings cs))
        by (rewrite length_map; exact B).
      destruct (c =? "") eqn:Ec; cbn [negb andb fold_left]; [reflexivity|].
      rewrite push_missing_eq, existsb_isEqual_strings. cbn [truthy].
      rewrite Ec. cbn [negb andb].
      destruct (existsb (String.eqb c) cs); cbn [negb]; [reflexivity|].
      rewrite map_app. reflexivity.
    + rewrite (merge_get_fresh fs0 b "children" _ NDb L0 Lc).
      * destruct (c =? ""); reflexivity.
      * destruct (c =? ""); repeat constructor.
      * destruct (c =? ""); reflexivity.
  - intros f Hf. destruct (Lf f Hf) as [Lb [vb [Lg [Sb Ub]]]].
    rewrite Lg. apply get_lookup; [|exact Ub]. rewrite <- E.
    apply merge_get_scalar; try assumption.
    + rewrite Lb. exact Lg.
    + intros va. apply Hs. exact Hf.
Qed.

(** ** The fold over the visits *)

Lemma lastVisit_snoc k V v :
  lastVisit k (V ++ [v]) = lastStep k (lastVisit k V) v.
Proof. unfold lastVisit. rewrite fold_left_app. reflexivity. Qed.

Lemma childrenAfter_snoc k V v :
  childrenAfter k (V ++ [v]) = childStep k (childrenAfter k V) v.
Proof. unfold childrenAfter. rewrite fold_left_app. reflexivity. Qed.

Lemma childStep_length k cs v :
  (List.length (childStep k cs v) <= S (List.length cs))%nat.
Proof.
  unfold childStep. destruct (_ && _); [|lia].
  rewrite length_app. simpl. lia.
Qed.

Lemma childrenAfter_length k V :
  (List.length (childrenAfter k V) <= List.length V)%nat.
Proof.
  induction V as [|v V IH] using rev_ind; [simpl; lia|].
  rewrite childrenAfter_snoc, length_app. simpl.
  pose proof (childStep_length k (childrenAfter k V) v). lia.
Qed.

Lemma lastVisit_In k V g :
  lastVisit k V = Some g -> groupKey g = k /\ exists c, In (g, c) V.
Proof.
  induction V as [|[g' c'] V IH] using rev_ind; [discriminate|].
  rewrite lastVisit_snoc. unfold lastStep. cbn [fst].
  destruct (groupKey g' =? k) eqn:E.
  - intros [= <-]. apply String.eqb_eq in E. split; [exact E|].
    exists c'. apply in_or_app. right. left. reflexivity.
  - intros H. destruct (IH H) as [A [c Hc]]. split; [exact A|].
    exists c. apply in_or_app. left. exact Hc.
Qed.

Lemma lastVisit_None k V :
  lastVisit k V = None -> childrenAfter k V = [].
Proof.
  induction V as [|[g' c'] V IH] using rev_ind; [reflexivity|].
  rewrite lastVisit_snoc, childrenAfter_snoc. unfold lastStep, childStep.
  cbn [fst snd]. destruct (groupKey g' =? k); [discriminate|].
  exact IH.
Qed.

Lemma lastVisit_Some k V g c :
  In (g, c) V -> groupKey g = k -> exists last, lastVisit k V = Some last.
Proof.
  induction V as [|[g' c'] V IH] using rev_ind; [intros []|].
  intros Hin Hk. rewrite lastVisit_snoc. unfold lastStep. cbn [fst].
  destruct (groupKey g' =? k) eqn:E; [eauto|].
  apply in_app_or in Hin. destruct Hin as [Hin|[[= -> ->]|[]]].
  - apply IH; assumption.
  - apply String.eqb_neq in E. contradiction.
Qed.

(** The children after the visits: the non-empty children of the visits
    of the group, each once. *)
Lemma childrenAfter_spec k V :
  NoDup (childrenAfter k V) /\
  forall c, In c (childrenAfter k V) <->
            c <> "" /\ exists g, In (g, c) V /\ groupKey g = k.
Proof.
  induction V as [|[g' c'] V [IH1 IH2]] using rev_ind.
  - split; [constructor|]. intros c. split; [intros [] | intros [_ [g [[] _]]]].
  - rewrite childrenAfter_snoc. unfold childStep. cbn [fst snd].
    destruct (groupKey g' =? k) eqn:Ek; cbn [andb].
    + apply String.eqb_eq in Ek.
      destruct (c' =? "") eqn:Ec; cbn [negb andb].
      * apply String.eqb_eq in Ec. split; [exact IH1|].
        intros c. rewrite IH2. split; intros [Hc [g [Hin Hg]]];
          (split; [exact Hc|]).
        -- exists g. split; [apply in_or_app; left; exact Hin | exact Hg].
        -- apply in_app_or in Hin. destruct Hin as [Hin|[[= -> ->]|[]]];
             [eauto | congruence].
      * apply String.eqb_neq in Ec.
        destruct (existsb (String.eqb c') (childrenAfter k V)) eqn:Ex;
          cbn [negb].
        -- apply existsb_eqb_In in Ex. split; [exact IH1|].
           intros c. split.
           ++ intros H. apply IH2 in H. destruct H as [Hc [g [Hin Hg]]].
              split; [exact Hc|]. exists g.
              split; [apply in_or_app; left; exact Hin | exact Hg].
           ++ intros [Hc [g [Hin Hg]]].
              apply in_app_or in Hin. destruct Hin as [Hin|[[= -> ->]|[]]].
              ** apply IH2. eauto.
              ** exact Ex.
        -- assert (Hn : ~ In c' (childrenAfter k V)).
           { intros H. apply existsb_eqb_In in H. congruence. }
           split.
           ++ apply NoDup_app; [exact IH1 | repeat constructor; simpl; tauto|].
              intros x Hx [<-|[]]. contradiction.
           ++ intros c. rewrite in_app_iff, IH2. split.
              ** intros [[Hc [g [Hin Hg]]]|[<-|[]]].
                 --- split; [exact Hc|]. exists g.
                     split; [apply in_or_app; left; exact Hin | exact Hg].
                 --- split; [exact Ec|]. exists g'.
                     split; [apply in_or_app; right; left; reflexivity | exact Ek].
              ** intros [Hc [g [Hin Hg]]].
                 apply in_app_or in Hin. destruct Hin as [Hin|[[= -> ->]|[]]].
                 --- left. eauto.
                 --- right. left. reflexivity.
    + split; [exact IH1|]. intros c. rewrite IH2.
      apply String.eqb_neq in Ek.
      split; intros [Hc [g [Hin Hg]]]; (split; [exact Hc|]).
      * exists g. split; [apply in_or_app; left; exact Hin | exact Hg].
      * apply in_app_or in Hin. destruct Hin as [Hin|[[= -> ->]|[]]];
          [eauto | contradiction].
Qed.

Section GroupEntries.

Variable sanitize : string -> string.
Variable GK : string -> Prop.

Lemma groupEntry_pre fs g cs :
  groupShape g -> groupEntry fs g cs ->
  forall f va, In f scalarFields -> lookup f fs = Some va -> isObject va = false.
Proof.
  intros [name [idv [parent [d [ic [r [-> Hp]]]]]]] [_ [_ Hf]] f va Hin L.
  rewrite (Hf f Hin) in L.
  destruct Hin as [<-|[<-|[<-|[<-|[<-|[<-|[]]]]]]]; injection L as <-;
    try reflexivity.
  destruct Hp as [->|[p ->]]; reflexivity.
Qed.

Lemma visit_step V acc g c :
  groupsAfter GK V acc ->
  Forall (fun v => groupShape (fst v)) V -> groupShape g ->
  (N.of_nat (List.length V) < 4294967295)%N ->
  groupsAfter GK (V ++ [(g, c)]) (visitStep acc (g, c)).
Proof.
  intros Inv HV Hg B k Hk. specialize (Inv k Hk).
  rewrite lastVisit_snoc, childrenAfter_snoc.
  unfold lastStep, childStep, visitStep. cbn [fst snd].
  destruct (groupKey g =? k) eqn:E.
  - apply String.eqb_eq in E. subst k. cbn [andb].
    rewrite lookup_obj_set_eq.
    assert (Bc : (N.of_nat (List.length (childrenAfter (groupKey g) V))
                  < 4294967295)%N).
    { pose proof (childrenAfter_length (groupKey g) V). lia. }
    destruct (lastVisit (groupKey g) V) as [g0|] eqn:L.
    + destruct Inv as [fs [Lk GE]].
      unfold prop. rewrite Lk. cbn [orEmpty truthy].
      destruct (lastVisit_In _ _ _ L) as [_ [c0 Hin]].
      rewrite Forall_forall in HV. pose proof (HV _ Hin) as Hg0. cbn [fst] in Hg0.
      destruct (merge_visit fs (childrenAfter (groupKey g) V) g c Hg
                  (proj1 GE) (or_introl (proj1 (proj2 GE)))
                  (groupEntry_pre fs g0 _ Hg0 GE) Bc) as [fs' [E' GE']].
      exists fs'. split; [f_equal; exact E' | exact GE'].
    + unfold prop. rewrite Inv. cbn [orEmpty truthy].
      rewrite (lastVisit_None _ _ L) in *.
      destruct (merge_visit [] [] g c Hg (NoDup_nil _)
                  (or_intror (conj eq_refl eq_refl))
                  ltac:(intros f va _ H; discriminate H) Bc) as [fs' [E' GE']].
      exists fs'. split; [f_equal; exact E' | exact GE'].
  - cbn [andb]. apply String.eqb_neq in E.
    rewrite lookup_obj_set_ne by congruence. exact Inv.
Qed.

Lemma visits_fold W : forall V acc,
  groupsAfter GK V acc ->
  Forall (fun v => groupShape (fst v)) V ->
  Forall (fun v => groupShape (fst v)) W ->
  (N.of_nat (List.length (V ++ W)) < 4294967295)%N ->
  groupsAfter GK (V ++ W) (fold_left visitStep W acc).
Proof.
  induction W as [|[g c] W IH]; intros V acc Inv HV HW B.
  - rewrite app_nil_r. exact Inv.
  - cbn [fold_left]. inversion HW as [|? ? Hg HW']; subst. cbn [fst] in Hg.
    replace (V ++ (g, c) :: W) with ((V ++ [(g, c)]) ++ W)
      by (rewrite <- app_assoc; reflexivity).
    apply IH.
    + apply visit_step; try assumption.
      rewrite length_app in B. lia.
    + apply Forall_app. split; [assumption | repeat constructor; assumption].
    + assumption.
    + rewrite <- app_assoc. exact B.
Qed.

Lemma story_step V acc k v :
  groupsAfter GK V acc -> ~ GK k -> groupsAfter GK V (obj_set k v acc).
Proof.
  intros Inv Hk k' Hk'. specialize (Inv k' Hk').
  rewrite lookup_obj_set_ne; [exact Inv|]. intros ->. contradiction.
Qed.

(** The [forEach] over a chain is the fold over its visits. *)
Lemma addGroups_visits (idv : string) todo : forall pre acc,
  (forall g, In g (pre ++ todo) -> exists s, prop g "id" = VStr s) ->
  addGroups (map (fun g => prop g "id") (pre ++ todo) ++ [VStr idv]) todo
    (List.length pre) acc
  = fold_left visitStep (combine todo (tl (map groupKey todo) ++ [idv])) acc.
Proof.
  induction todo as [|g rest IH]; intros pre acc Hid; [reflexivity|].
  cbn [addGroups]. cbv zeta.
  assert (Hc : nth (List.length pre + 1)
                 (map (fun g => prop g "id") (pre ++ g :: rest) ++ [VStr idv])
                 VUndefined
               = VStr (hd idv (map groupKey rest))).
  { rewrite map_app, <- app_assoc, app_nth2 by (rewrite length_map; lia).
    rewrite length_map. replace (List.length pre + 1 - List.length pre)%nat
      with 1%nat by lia.
    destruct rest as [|g' rest']; [reflexivity|]. cbn [map app nth hd].
    destruct (Hid g') as [s Hs];
      [apply in_or_app; right; right; left; reflexivity|].
    unfold groupKey. rewrite Hs. reflexivity. }
  rewrite Hc.
  replace (pre ++ g :: rest) with ((pre ++ [g]) ++ rest)
    by (rewrite <- app_assoc; reflexivity).
  replace (S (List.length pre)) with (List.length (pre ++ [g]))
    by (rewrite length_app; simpl; lia).
  rewrite IH by (rewrite <- app_assoc; exact Hid).
  cbn [map tl]. destruct rest as [|g' rest']; reflexivity.
Qed.

Lemma chain_parent root gs g :
  In g (rootAndGroups sanitize root gs) ->
  prop g "parent" = VBool false \/ exists p, prop g "parent" = VStr p.
Proof.
  intros H. apply In_nth_error in H. destruct H as [i Hi].
  unfold rootAndGroups in Hi.
  set (names := (if truthy_str root then [or_else root ""] else []) ++ gs) in *.
  destruct (reduceGroups_spec sanitize root (map toGroup names)
              (map toGroup names) 0 [] eq_refl) as [L [_ N]].
  cbv zeta in L, N. cbn [Nat.add] in L, N. rewrite length_map in L.
  set (res := reduceGroups sanitize root (map toGroup names)
                (map toGroup names) 0 []) in *.
  assert (Hlt : (i < List.length names)%nat)
    by (rewrite <- L; apply nth_error_Some; congruence).
  destruct (nth_error names i) as [name|] eqn:E;
    [|apply nth_error_None in E; lia].
  specialize (N i (toGroup name) (map_nth_error toGroup i _ E)).
  rewrite N in Hi. injection Hi as <-.
  rewrite extendGroup_toGroup. cbv zeta.
  destruct i as [|j]; [left; reflexivity|]. right.
  change (0 <? S j)%nat with true. cbv iota.
  cbn [prop lookup String.eqb Ascii.eqb Bool.eqb].
  rewrite nth_firstn_lt by lia.
  replace (S j - 1)%nat with j by lia.
  assert (Hj : In (nth j res []) (rootAndGroups sanitize root gs)).
  { change (rootAndGroups sanitize root gs) with res. apply nth_In. lia. }
  destruct (chain_shape sanitize _ _ _ Hj) as [n0 [idv [p0 [d [c [r ->]]]]]].
  exists idv. reflexivity.
Qed.

Lemma chain_groupShape root gs g :
  In g (rootAndGroups sanitize root gs) -> groupShape g.
Proof.
  intros H. pose proof (chain_parent root gs g H) as P.
  destruct (chain_shape sanitize _ _ _ H) as [n0 [idv [p0 [d [c [r ->]]]]]].
  exists n0, idv, p0, d, c, r. split; [reflexivity|]. exact P.
Qed.

Lemma visitsOf_shape item :
  Forall (fun v => groupShape (fst v)) (visitsOf sanitize item).
Proof.
  apply Forall_forall. intros [g c] Hin. apply in_combine_l in Hin.
  cbn [fst]. unfold chainOf in Hin. cbv zeta in Hin.
  eapply chain_groupShape. exact Hin.
Qed.

Lemma addStory_visits acc item acc' :
  addStory sanitize acc item = Return acc' ->
  exists story,
    acc' = obj_set (id item) story
             (fold_left visitStep (visitsOf sanitize item) acc).
Proof.
  intros H. destruct (addStory_return sanitize acc item acc' H) as [g [_ ->]].
  eexists. f_equal. unfold visitsOf. cbv zeta.
  apply (addGroups_visits (id item) (chainOf sanitize item) [] acc).
  intros g' Hg'. cbn [app] in Hg'. unfold chainOf in Hg'. cbv zeta in Hg'.
  destruct (chain_shape sanitize _ _ _ Hg') as [n0 [idv [p0 [d [c [r ->]]]]]].
  exists idv. reflexivity.
Qed.

Lemma reduce_addStory_groups batch : forall V acc h,
  reduceO (addStory sanitize) batch acc = Return h ->
  groupsAfter GK V acc ->
  Forall (fun v => groupShape (fst v)) V ->
  (forall item, In item batch -> ~ GK (id item)) ->
  (N.of_nat (List.length (V ++ visits sanitize batch)) < 4294967295)%N ->
  groupsAfter GK (V ++ visits sanitize batch) h.
Proof.
  induction batch as [|item rest IH]; intros V acc h H Inv HV Hid B.
  - injection H as <-. cbn [visits flat_map]. rewrite app_nil_r. exact Inv.
  - cbn [reduceO] in H.
    destruct (addStory sanitize acc item) as [acc'|e] eqn:E; [|discriminate].
    cbn [obind] in H.
    destruct (addStory_visits acc item acc' E) as [story ->].
    cbn [visits flat_map] in *. fold (visits sanitize rest) in *.
    rewrite app_assoc in *.
    apply (IH _ _ h H).
    + apply story_step; [|apply Hid; left; reflexivity].
      apply visits_fold; try assumption; [apply visitsOf_shape|].
      rewrite length_app in B. lia.
    + apply Forall_app. split; [assumption | apply visitsOf_shape].
    + intros it Hit. apply Hid. right. exact Hit.
    + exact B.
Qed.

End GroupEntries.

Section GroupEntriesOfBatch.

Variable sanitize : string -> string.

Lemma in_combine_left {A B} (x : A) (l1 : list A) : forall (l2 : list B),
  (List.length l1 <= List.length l2)%nat -> In x l1 ->
  exists y, In (x, y) (combine l1 l2).
Proof.
  induction l1 as [|a l1 IH]; intros l2 L Hin; [destruct Hin|].
  destruct l2 as [|b l2]; [simpl in L; lia|].
  destruct Hin as [->|Hin].
  - exists b. left. reflexivity.
  - destruct (IH l2 ltac:(simpl in L; lia) Hin) as [y Hy].
    exists y. right. exact Hy.
Qed.

Lemma In_tl {A} (x : A) l : In x (tl l) -> In x l.
Proof. destruct l; [intros [] | intros H; right; exact H]. Qed.

Lemma chain_visited item g :
  In g (chainOf sanitize item) -> exists c, In (g, c) (visitsOf sanitize item).
Proof.
  intros H. unfold visitsOf. cbv zeta. apply in_combine_left; [|exact H].
  rewrite length_app. cbn [List.length].
  destruct (chainOf sanitize item); simpl; [lia|]. rewrite length_map. lia.
Qed.

Lemma visit_child_key item g c :
  In (g, c) (visitsOf sanitize item) -> In c (itemKeys sanitize item).
Proof.
  intros H. unfold visitsOf in H. cbv zeta in H. apply in_combine_r in H.
  change (itemKeys sanitize item)
    with (map groupKey (chainOf sanitize item) ++ [id item]).
  apply in_app_or in H. apply in_or_app.
  destruct H as [H|H]; [left; apply In_tl; exact H | right; exact H].
Qed.

(** X22: the entries of the groups, for a batch in which no story
    identifier is the identifier of a group and no identifier is
    ["__proto__"] (and whose visits are fewer than an array can hold):
    every group of every chain
    has an entry under its identifier; the entry carries the fields of
    the group of the last visit (so [isComponent] tells whether the
    last record that passed had the group as the last of its chain),
    its [id] is its key, and its [children] are the non-empty children
    of all its visits, in the order of their first visit and each once;
    every child is a key of the mapping. *)
Theorem setStories_group_entries (batch : list StoryInput) (h : obj) :
  buildHash sanitize batch = Return h ->
  plainKeys sanitize batch ->
  (forall item item' g,
      In item batch -> In item' batch -> In g (chainOf sanitize item') ->
      id item <> groupKey g) ->
  (N.of_nat (List.length (visits sanitize batch)) < 4294967295)%N ->
  forall item g, In item batch -> In g (chainOf sanitize item) ->
    let k := groupKey g in
    let cs := childrenAfter k (visits sanitize batch) in
    exists fs last,
      lookup k h = Some (VObj fs) /\
      lastVisit k (visits sanitize batch) = Some last /\
      (forall f, In f scalarFields -> prop fs f = prop last f) /\
      prop fs "id" = VStr k /\
      prop fs "children" = VArr (map VStr cs) /\
      NoDup cs /\
      (forall c, In c cs <->
                 c <> "" /\
                 exists g', In (g', c) (visits sanitize batch) /\
                            groupKey g' = k) /\
      (forall c, In c cs -> In c (keys h)).
Proof.
  intros H _ NoColl B item g Hitem Hg k cs.
  set (GK := fun k => exists item g, In item batch /\
                                     In g (chainOf sanitize item) /\
                                     k = groupKey g).
  assert (Inv : groupsAfter GK (visits sanitize batch) h).
  { apply (reduce_addStory_groups sanitize GK batch [] [] h H).
    - intros k' _. reflexivity.
    - constructor.
    - intros it Hit [it' [g' [Hit' [Hg' E]]]].
      exact (NoColl it it' g' Hit Hit' Hg' E).
    - exact B. }
  assert (HV : forall g' c, In (g', c) (visits sanitize batch) ->
                 groupShape g' /\
                 exists it, In it batch /\ In (g', c) (visitsOf sanitize it)).
  { intros g' c Hin. unfold visits in Hin. apply in_flat_map in Hin.
    destruct Hin as [it [Hit Hin]].
    pose proof (visitsOf_shape sanitize it) as S. rewrite Forall_forall in S.
    split; [exact (S _ Hin) | eauto]. }
  destruct (chain_visited item g Hg) as [c0 Hc0].
  assert (Hin : In (g, c0) (visits sanitize batch)).
  { unfold visits. apply in_flat_map. eauto. }
  destruct (lastVisit_Some k _ g c0 Hin eq_refl) as [last L].
  specialize (Inv k (ex_intro _ item (ex_intro _ g (conj Hitem (conj Hg eq_refl))))).
  rewrite L in Inv. destruct Inv as [fs [Lk [ND [Lc Lf]]]].
  destruct (childrenAfter_spec k (visits sanitize batch)) as [NDc Sc].
  exists fs, last. split; [exact Lk|]. split; [exact L|].
  assert (Pf : forall f, In f scalarFields -> prop fs f = prop last f).
  { intros f Hf. unfold prop. rewrite (Lf f Hf). reflexivity. }
  split; [exact Pf|]. split; [|split; [|split; [exact NDc | split; [exact Sc|]]]].
  - rewrite Pf by (right; left; reflexivity).
    destruct (lastVisit_In _ _ _ L) as [Kl [c1 Hl]].
    destruct (proj1 (HV _ _ Hl)) as [n0 [idv [p0 [d [c [r [-> _]]]]]]].
    exact (f_equal VStr Kl).
  - unfold prop. rewrite Lc. reflexivity.
  - intros c Hc. apply Sc in Hc. destruct Hc as [_ [g' [Hg' _]]].
    destruct (proj2 (HV _ _ Hg')) as [it [Hit Hv]].
    apply (proj2 (buildHash_keys sanitize batch h c H)).
    exists it. split; [exact Hit|]. exact (visit_child_key it g' c Hv).
Qed.

End GroupEntriesOfBatch.

Lemma setStories_group_entries_witness :
  exists h fs,
    buildHash sanitize_sample
      [storyOf "ui-button--default" "UI/Button";
       storyOf "ui-input--default" "UI/Input"] = Return h /\
    lookup "ui" h = Some (VObj fs) /\
    prop fs "children" = VArr [VStr "ui-button"; VStr "ui-input"] /\
    prop fs "isComponent" = VBool false.
Proof.
  destruct (setStories_group_entries sanitize_sample
              [storyOf "ui-button--default" "UI/Button";
               storyOf "ui-input--default" "UI/Input"] _ eq_refl)
    with (item := storyOf "ui-button--default" "UI/Button")
         (g := [("name", VStr "UI"); ("id", VStr "ui"); ("parent", VBool false);
                ("depth", VNum 0); ("children", VArr []);
                ("isComponent", VBool false); ("isRoot", VBool false)])
    as [fs [last [L [Hl [Pf [_ [C _]]]]]]].
  - plain_keys.
  - intros item item' g [<-|[<-|[]]] [<-|[<-|[]]] Hg; vm_compute in Hg;
      destruct Hg as [<-|[<-|[]]]; discriminate.
  - vm_compute. reflexivity.
  - left. reflexivity.
  - vm_compute. left. reflexivity.
  - eexists. exists fs. split; [reflexivity|]. split; [exact L|].
    split; [exact C|].
    rewrite Pf by (do 4 right; left; reflexivity).
    vm_compute in Hl. injection Hl as <-. reflexivity.
Defined.

(** ** The entries of the stories of a batch *)

Section StoryEntries.

Variable sanitize : string -> string.

Lemma lookup_addGroups_other paths todo k : forall index acc,
  ~ In k (map groupKey todo) ->
  lookup k (addGroups paths todo index acc) = lookup k acc.
Proof.
  induction todo as [|g rest IH]; intros index acc Hk; [reflexivity|].
  cbn [addGroups]. cbv zeta. rewrite IH by (intros H; apply Hk; right; exact H).
  apply lookup_obj_set_ne. intros ->. apply Hk. left. reflexivity.
Qed.

Lemma addStory_entry acc item acc' :
  addStory sanitize acc item = Return acc' ->
  lookup (id item) acc' = Some (storyEntry sanitize item) /\
  forall k, k <> id item -> ~ In k (map groupKey (chainOf sanitize item)) ->
            lookup k acc' = lookup k acc.
Proof.
  intros H. destruct (addStory_return sanitize acc item acc' H) as [g [G ->]].
  split.
  - rewrite lookup_obj_set_eq. unfold storyEntry. cbv zeta.
    repeat f_equal. symmetry. exact (nth_error_nth _ _ _ G).
  - intros k Hk Hg. rewrite lookup_obj_set_ne by exact Hk.
    apply lookup_addGroups_other. exact Hg.
Qed.

Lemma lastWithId_snoc k batch item :
  lastWithId k (batch ++ [item]) =
  if id item =? k then Some item else lastWithId k batch.
Proof. unfold lastWithId. rewrite fold_left_app. reflexivity. Qed.

Lemma lastWithId_Some k batch item :
  In item batch -> id item = k ->
  exists last, lastWithId k batch = Some last /\ In last batch /\ id last = k.
Proof.
  induction batch as [|it batch IH] using rev_ind; [intros []|].
  intros Hin Hk. rewrite lastWithId_snoc.
  destruct (id it =? k) eqn:E.
  - apply String.eqb_eq in E. exists it.
    split; [reflexivity|]. split; [apply in_or_app; right; left; reflexivity|].
    exact E.
  - apply in_app_or in Hin. destruct Hin as [Hin|[->|[]]].
    + destruct (IH Hin Hk) as [last [L [Hl Kl]]]. exists last.
      split; [exact L|]. split; [apply in_or_app; left; exact Hl | exact Kl].
    + apply String.eqb_neq in E. contradiction.
Qed.

Lemma reduce_addStory_stories (GK : string -> Prop) batch : forall done acc h,
  reduceO (addStory sanitize) batch acc = Return h ->
  (forall item g, In item batch -> In g (chainOf sanitize item) ->
                  GK (groupKey g)) ->
  (forall k, ~ GK k ->
     lookup k acc = option_map (storyEntry sanitize) (lastWithId k done)) ->
  forall k, ~ GK k ->
    lookup k h = option_map (storyEntry sanitize) (lastWithId k (done ++ batch)).
Proof.
  induction batch as [|item rest IH]; intros done acc h H HG Inv k Hk.
  - injection H as <-. rewrite app_nil_r. apply Inv. exact Hk.
  - cbn [reduceO] in H.
    destruct (addStory sanitize acc item) as [acc'|e] eqn:E; [|discriminate].
    cbn [obind] in H.
    replace (done ++ item :: rest) with ((done ++ [item]) ++ rest)
      by (rewrite <- app_assoc; reflexivity).
    apply (IH (done ++ [item]) acc' h H).
    + intros it g Hit. apply HG. right. exact Hit.
    + intros k' Hk'. rewrite lastWithId_snoc.
      destruct (addStory_entry acc item acc' E) as [L1 L2].
      destruct (id item =? k') eqn:Ek.
      * apply String.eqb_eq in Ek. subst k'. exact L1.
      * apply String.eqb_neq in Ek. rewrite L2.
        -- apply Inv. exact Hk'.
        -- congruence.
        -- intros Hin. apply in_map_iff in Hin. destruct Hin as [g [<- Hg]].
           apply Hk'. apply (HG item g); [left; reflexivity | exact Hg].
    + exact Hk.
Qed.

(** X23: the entries of the stories, for a batch in which no story
    identifier is the identifier of a group and no identifier is
    ["__proto__"]: under the identifier of
    each record the mapping holds the last record of the batch that has
    this identifier, with the identifier of the last group of its chain
    as [parent]; an earlier record of the same identifier is
    replaced. *)
Theorem setStories_story_entries (batch : list StoryInput) (h : obj) :
  buildHash sanitize batch = Return h ->
  plainKeys sanitize batch ->
  (forall item item' g,
      In item batch -> In item' batch -> In g (chainOf sanitize item') ->
      id item <> groupKey g) ->
  forall item, In item batch ->
    exists last,
      lastWithId (id item) batch = Some last /\
      In last batch /\ id last = id item /\
      lookup (id item) h = Some (storyEntry sanitize last) /\
      get (storyEntry sanitize last) "parameters"
      = parameters_value (parameters last) /\
      exists g, In g (chainOf sanitize last) /\
                get (storyEntry sanitize last) "parent" = VStr (groupKey g).
Proof.
  intros H _ NoColl item Hitem.
  set (GK := fun k => exists item g, In item batch /\
                                     In g (chainOf sanitize item) /\
                                     k = groupKey g).
  destruct (lastWithId_Some (id item) batch item Hitem eq_refl)
    as [last [L [Hl Kl]]].
  exists last. split; [exact L|]. split; [exact Hl|]. split; [exact Kl|].
  split; [|split].
  - rewrite (reduce_addStory_stories GK batch [] [] h H).
    + cbn [app]. rewrite L. reflexivity.
    + intros it g Hit Hg. exists it, g. auto.
    + intros k _. reflexivity.
    + intros [it [g [Hit [Hg E]]]]. exact (NoColl item it g Hitem Hit Hg E).
  - unfold storyEntry, item_obj. cbv zeta.
    destruct (children last); reflexivity.
  - assert (N : chainOf sanitize last <> []).
    { intros E.
      pose proof (reduce_addStory_outcome sanitize batch []) as O.
      fold (buildHash sanitize batch) in O. rewrite H in O.
      destruct (existsb noSegment batch) eqn:Ex; [discriminate|].
      assert (Hn : noSegment last = true) by (apply chainOf_nil with sanitize; exact E).
      assert (Ht : existsb noSegment batch = true)
        by (apply existsb_exists; eauto).
      congruence. }
    exists (nth (List.length (chainOf sanitize last) - 1)
                (chainOf sanitize last) []).
    split.
    + apply nth_In. destruct (chainOf sanitize last); [congruence | simpl; lia].
    + unfold storyEntry, item_obj. cbv zeta.
      destruct (children last); reflexivity.
Qed.

End StoryEntries.

Lemma setStories_story_entries_witness :
  exists h,
    buildHash sanitize_sample
      [storyOf "ui-button--default" "UI/Button";
       storyOf "ui-button--default" "UI/Input"] = Return h /\
    lookup "ui-button--default" h
    = Some (storyEntry sanitize_sample (storyOf "ui-button--default" "UI/Input")).
Proof.
  destruct (setStories_story_entries sanitize_sample
              [storyOf "ui-button--default" "UI/Button";
               storyOf "ui-button--default" "UI/Input"] _ eq_refl)
    with (item := storyOf "ui-button--default" "UI/Button")
    as [last [L [_ [_ [E _]]]]].
  - plain_keys.
  - intros item item' g [<-|[<-|[]]] [<-|[<-|[]]] Hg; vm_compute in Hg;
      destruct Hg as [<-|[<-|[]]]; discriminate.
  - left. reflexivity.
  - eexists. split; [reflexivity|].
    vm_compute in L. injection L as <-. exact E.
Defined.

(** ** The initial state *)

(** X24: on the state the module starts from, whose mapping is empty,
    whatever the initial selection and view mode: [jumpToStory] is a
    silent no-op and [getParameters] gives [null]; [jumpToComponent] is
    a silent no-op when the selection is no name of a member of
    [Object.prototype], and [getData] gives [undefined] for an
    identifier that is no such name. *)
Theorem initial_state_is_inert (vm sid : option string) (nav : list string)
    (direction : Z) (k : string) (name : option string) :
  let w := worldOf [] vm sid nav in
  jumpToStory direction w = (Return tt, w) /\
  ((forall s, sid = Some s -> inherited s = false) ->
   jumpToComponent direction w = (Return tt, w)) /\
  (inherited k = false -> getData k w = (Return VUndefined, w)) /\
  getParameters k name w = (Return VNull, w).
Proof.
  intros w. unfold w, worldOf, jumpToStory, jumpToComponent, getParameters,
              getData, bind, getState, ret.
  cbn [store storiesHash viewMode storyId prop lookup truthy negb].
  destruct sid as [s|]; [rewrite !Bool.orb_true_r|]; repeat split.
Qed.

(** ** The order of the keys *)

Lemma has_existsb k o : has k o = existsb (String.eqb k) (keys o).
Proof.
  unfold has. induction o as [|[k' v'] r IH]; simpl; [reflexivity|].
  destruct (k =? k'); [reflexivity | exact IH].
Qed.

(** A key that is no array index is added at the end. *)
Lemma keys_obj_set_order k v o :
  array_index k = None -> keys (obj_set k v o) = keyStep (keys o) k.
Proof.
  intros A. unfold obj_set, keyStep. rewrite <- has_existsb.
  destruct (has k o); [apply keys_replace_prop|].
  rewrite A. unfold keys. rewrite map_app. reflexivity.
Qed.

Lemma keys_addGroups_order paths todo : forall index acc,
  (forall g, In g todo -> array_index (groupKey g) = None) ->
  keys (addGroups paths todo index acc)
  = fold_left keyStep (map groupKey todo) (keys acc).
Proof.
  induction todo as [|g rest IH]; intros index acc H; [reflexivity|].
  cbn [addGroups map fold_left]. cbv zeta.
  rewrite IH by (intros g' Hg'; apply H; right; exact Hg').
  fold (groupKey g).
  rewrite keys_obj_set_order by (apply H; left; reflexivity).
  reflexivity.
Qed.

Lemma filter_keyStep (p : string -> bool) acc k :
  filter p (keyStep acc k) =
  if p k then keyStep (filter p acc) k else filter p acc.
Proof.
  unfold keyStep.
  assert (E : p k = true ->
              existsb (String.eqb k) (filter p acc) = existsb (String.eqb k) acc).
  { intros Hp. apply Bool.eq_iff_eq_true. rewrite !existsb_exists.
    split; intros [x [Hin Hx]]; exists x; (split; [|exact Hx]).
    - apply filter_In in Hin. tauto.
    - apply filter_In. split; [exact Hin|].
      apply String.eqb_eq in Hx. congruence. }
  destruct (p k) eqn:Hp.
  - rewrite (E eq_refl). destruct (existsb (String.eqb k) acc); [reflexivity|].
    rewrite filter_app. simpl. rewrite Hp. reflexivity.
  - destruct (existsb (String.eqb k) acc); [reflexivity|].
    rewrite filter_app. simpl. rewrite Hp. apply app_nil_r.
Qed.

Lemma filter_fold_keyStep (p : string -> bool) l : forall acc,
  filter p (fold_left keyStep l acc)
  = fold_left keyStep (filter p l) (filter p acc).
Proof.
  induction l as [|k r IH]; intros acc; [reflexivity|].
  cbn [fold_left filter]. rewrite IH, filter_keyStep.
  destruct (p k); reflexivity.
Qed.

Lemma leafKeys_filter (p : string -> bool) (m : obj) :
  (forall kv, In kv m -> isLeaf (snd kv) = p (fst kv)) ->
  leafKeys m = filter p (keys m).
Proof.
  unfold leafKeys, keys. induction m as [|kv r IH]; intros H; [reflexivity|].
  cbn [filter map]. rewrite (H kv (or_introl eq_refl)).
  destruct (p (fst kv)); cbn [map]; rewrite IH; auto;
    intros kv' Hkv'; apply H; right; exact Hkv'.
Qed.

Section KeyOrder.

Variable sanitize : string -> string.

Lemma keys_addStory_order acc item acc' :
  addStory sanitize acc item = Return acc' ->
  (forall k, In k (itemKeys sanitize item) -> array_index k = None) ->
  keys acc' = fold_left keyStep (itemKeys sanitize item) (keys acc).
Proof.
  intros H A. destruct (addStory_return sanitize acc item acc' H) as [g [_ ->]].
  change (itemKeys sanitize item)
    with (map groupKey (chainOf sanitize item) ++ [id item]) in *.
  rewrite fold_left_app. cbn [fold_left].
  rewrite keys_obj_set_order
    by (apply A; apply in_or_app; right; left; reflexivity).
  rewrite keys_addGroups_order; [reflexivity|].
  intros g' Hg'. apply A. apply in_or_app. left. apply in_map. exact Hg'.
Qed.

Lemma keys_reduce_order batch : forall acc h,
  reduceO (addStory sanitize) batch acc = Return h ->
  (forall item k, In item batch -> In k (itemKeys sanitize item) ->
                  array_index k = None) ->
  keys h = fold_left keyStep (flat_map (itemKeys sanitize) batch) (keys acc).
Proof.
  induction batch as [|item rest IH]; intros acc h H A.
  - injection H as <-. reflexivity.
  - cbn [reduceO] in H.
    destruct (addStory sanitize acc item) as [acc'|e] eqn:E; [|discriminate].
    cbn [obind] in H. cbn [flat_map]. rewrite fold_left_app.
    rewrite (IH acc' h H) by (intros it k Hit; apply A; right; exact Hit).
    rewrite (keys_addStory_order acc item acc' E)
      by (intros k; apply A; left; reflexivity).
    reflexivity.
Qed.

(** The entries of the groups are no leaves, when no story takes the
    key of a group. *)
Lemma addGroups_not_leaf (GK : string -> Prop) paths root gs todo :
  forall index acc,
  incl todo (rootAndGroups sanitize root gs) ->
  Forall entry_ok acc ->
  (forall k v, GK k -> lookup k acc = Some v -> isLeaf v = false) ->
  forall k v, GK k -> lookup k (addGroups paths todo index acc) = Some v ->
              isLeaf v = false.
Proof.
  induction todo as [|g rest IH]; intros index acc Hin Hok Inv; [exact Inv|].
  cbn [addGroups]. cbv zeta.
  assert (Hg : In g (rootAndGroups sanitize root gs)) by (apply Hin; left; reflexivity).
  apply IH.
  - intros x Hx. apply Hin. right. exact Hx.
  - apply Forall_obj_set; [|assumption].
    apply (merged_group_ok sanitize); [assumption|].
    apply (chain_shape sanitize root gs). assumption.
  - intros k v Hk. fold (groupKey g).
    destruct (string_dec k (groupKey g)) as [->|N].
    + rewrite lookup_obj_set_eq. intros [= <-].
      destruct (merged_group_children sanitize acc g root gs Hok Hg
                  (nth (index + 1) paths VUndefined)) as [fs [xs [E L]]].
      rewrite E. simpl. unfold has. rewrite L. reflexivity.
    + rewrite lookup_obj_set_ne by exact N. apply Inv. exact Hk.
Qed.

Lemma reduce_addStory_not_leaf (GK : string -> Prop) batch : forall acc h,
  reduceO (addStory sanitize) batch acc = Return h ->
  (forall item, In item batch -> ~ GK (id item)) ->
  Forall entry_ok acc ->
  (forall k v, GK k -> lookup k acc = Some v -> isLeaf v = false) ->
  forall k v, GK k -> lookup k h = Some v -> isLeaf v = false.
Proof.
  induction batch as [|item rest IH]; intros acc h H Hid Hok Inv.
  - injection H as <-. exact Inv.
  - cbn [reduceO] in H.
    destruct (addStory sanitize acc item) as [acc'|e] eqn:E; [|discriminate].
    cbn [obind] in H.
    apply (IH acc' h H).
    + intros it Hit. apply Hid. right. exact Hit.
    + eapply addStory_ok; eassumption.
    + destruct (addStory_return sanitize acc item acc' E) as [g [_ ->]].
      intros k v Hk.
      rewrite lookup_obj_set_ne
        by (intros ->; exact (Hid item (or_introl eq_refl) Hk)).
      apply (addGroups_not_leaf GK _ _ _ (chainOf sanitize item) 0 acc
               (incl_refl _) Hok Inv k v Hk).
Qed.

Lemma filter_ids_itemKeys (ids : list string) item :
  In (id item) ids ->
  (forall g, In g (chainOf sanitize item) -> ~ In (groupKey g) ids) ->
  filter (fun k => existsb (String.eqb k) ids) (itemKeys sanitize item)
  = [id item].
Proof.
  intros Hid Hg.
  change (itemKeys sanitize item)
    with (map groupKey (chainOf sanitize item) ++ [id item]).
  rewrite filter_app. cbn [filter].
  replace (existsb (String.eqb (id item)) ids) with true
    by (symmetry; apply existsb_eqb_In; exact Hid).
  replace (filter _ (map groupKey (chainOf sanitize item))) with (@nil string);
    [reflexivity|].
  symmetry. induction (chainOf sanitize item) as [|g r IH]; [reflexivity|].
  cbn [map filter].
  destruct (existsb (String.eqb (groupKey g)) ids) eqn:E.
  - apply existsb_eqb_In in E. destruct (Hg g (or_introl eq_refl) E).
  - apply IH. intros g' Hg'. apply Hg. right. exact Hg'.
Qed.

(** The order of the leaves of the mapping of a batch. *)
Lemma buildHash_leaf_order (batch : list StoryInput) (h : obj) :
  buildHash sanitize batch = Return h ->
  keys h = firstOccurrences (flat_map (itemKeys sanitize) batch) ->
  (forall item item' g,
      In item batch -> In item' batch -> In g (chainOf sanitize item') ->
      id item <> groupKey g) ->
  (forall item, In item batch -> children item = None) ->
  leafKeys h = firstOccurrences (map id batch).
Proof.
  intros H K NoColl NoCh.
  set (ids := map id batch).
  set (p := fun k => existsb (String.eqb k) ids).
  set (GK := fun k => exists item g, In item batch /\
                                     In g (chainOf sanitize item) /\
                                     k = groupKey g).
  assert (HGK : forall k, GK k -> ~ In k ids).
  { intros k [it [g [Hit [Hg ->]]]] Hin. unfold ids in Hin.
    apply in_map_iff in Hin. destruct Hin as [it' [E Hit']].
    exact (NoColl it' it g Hit' Hit Hg E). }
  rewrite (leafKeys_filter p).
  - rewrite K. unfold firstOccurrences. rewrite filter_fold_keyStep.
    cbn [filter]. f_equal.
    assert (G : forall l, incl l batch ->
                  filter p (flat_map (itemKeys sanitize) l) = map id l).
    { induction l as [|it l IH]; intros Hl; [reflexivity|].
      cbn [flat_map map]. rewrite filter_app, IH
        by (intros x Hx; apply Hl; right; exact Hx).
      unfold p. rewrite filter_ids_itemKeys; [reflexivity| |].
      - unfold ids. apply in_map. apply Hl. left. reflexivity.
      - intros g Hg. apply HGK. exists it, g.
        split; [apply Hl; left; reflexivity|]. split; [exact Hg | reflexivity]. }
    apply G. apply incl_refl.
  - intros [k v] Hkv. cbn [fst snd].
    pose proof (buildHash_typed sanitize batch h H) as [ND _].
    pose proof (NoDup_keys_lookup k v h ND Hkv) as L.
    unfold p. destruct (existsb (String.eqb k) ids) eqn:E.
    + apply existsb_eqb_In in E. unfold ids in E. apply in_map_iff in E.
      destruct E as [it [<- Hit]].
      destruct (lastWithId_Some (id it) batch it Hit eq_refl)
        as [last [Ll [Hl Kl]]].
      rewrite (reduce_addStory_stories sanitize GK batch [] [] h H) in L.
      * cbn [app] in L. rewrite Ll in L. injection L as <-.
        unfold storyEntry, item_obj. cbv zeta. rewrite (NoCh last Hl).
        reflexivity.
      * intros it' g Hit' Hg. exists it', g. auto.
      * intros k' _. reflexivity.
      * intros Hk. apply (HGK _ Hk). unfold ids. apply in_map. exact Hit.
    + assert (Hk : GK k).
      { assert (Hin : In k (keys h)) by (apply lookup_In_keys; congruence).
        apply (buildHash_keys sanitize batch h k H) in Hin.
        destruct Hin as [it [Hit Hk]].
        change (itemKeys sanitize it)
          with (map groupKey (chainOf sanitize it) ++ [id it]) in Hk.
        apply in_app_or in Hk. destruct Hk as [Hk|[<-|[]]].
        - apply in_map_iff in Hk. destruct Hk as [g [<- Hg]].
          exists it, g. auto.
        - assert (T : existsb (String.eqb (id it)) ids = true)
            by (apply existsb_eqb_In; unfold ids; apply in_map; exact Hit).
          congruence. }
      apply (reduce_addStory_not_leaf GK batch [] h H) with (k := k).
      * intros it Hit Hg. apply (HGK _ Hg). unfold ids. apply in_map. exact Hit.
      * constructor.
      * intros k' v' _ L'. discriminate L'.
      * exact Hk.
      * exact L.
Qed.

Lemma fold_keyStep_head l : forall a acc,
  hd_error (fold_left keyStep l (a :: acc)) = Some a.
Proof.
  induction l as [|k r IH]; intros a acc; [reflexivity|].
  cbn [fold_left]. unfold keyStep at 2.
  destruct (existsb (String.eqb k) (a :: acc)); apply IH.
Qed.

(** X25: the order of the mapping, when no key is an array index (a
    canonical numeric string, which [Object.keys] would list first) and
    none is ["__proto__"]:
    the keys are in the order in which the batch first mentions them,
    record by record the groups of the chain and then the story.  When
    moreover no story identifier is the identifier of a group and no
    record has [children], the leaves, which [jumpToStory] walks, are
    the story identifiers in the order of their first registration. *)
Theorem setStories_key_order (batch : list StoryInput) (h : obj) :
  buildHash sanitize batch = Return h ->
  plainKeys sanitize batch ->
  (forall item k, In item batch -> In k (itemKeys sanitize item) ->
                  array_index k = None) ->
  keys h = firstOccurrences (flat_map (itemKeys sanitize) batch) /\
  ((forall item item' g,
       In item batch -> In item' batch -> In g (chainOf sanitize item') ->
       id item <> groupKey g) ->
   (forall item, In item batch -> children item = None) ->
   leafKeys h = firstOccurrences (map id batch)).
Proof.
  intros H _ A.
  assert (K : keys h = firstOccurrences (flat_map (itemKeys sanitize) batch))
    by apply (keys_reduce_order batch [] h H A).
  split; [exact K|]. intros NoColl NoCh.
  apply buildHash_leaf_order; assumption.
Qed.

(** X26: registering a batch on a manager without a valid selection
    selects the first story: for a batch whose keys are neither array
    indices nor ["__proto__"], in which no story identifier is the
    identifier of a group and no record has [children], [setStories]
    returns, persists the mapping and, when a view mode is set and the
    current selection is unset, empty or no key of the new mapping (and
    no name of a member of [Object.prototype]), issues exactly one
    navigation, to the identifier of the first record of the batch. *)
Theorem setStories_selects_first_story (first : StoryInput)
    (rest : list StoryInput) (h : obj) (vm : string) (w : World) :
  let batch := first :: rest in
  buildHash sanitize batch = Return h ->
  plainKeys sanitize batch ->
  (forall s, storyId (store w) = Some s -> inherited s = false) ->
  (forall item k, In item batch -> In k (itemKeys sanitize item) ->
                  array_index k = None) ->
  (forall item item' g,
      In item batch -> In item' batch -> In g (chainOf sanitize item') ->
      id item <> groupKey g) ->
  (forall item, In item batch -> children item = None) ->
  viewMode (store w) = Some vm -> vm <> "" ->
  selectionAbsent h (storyId (store w)) = true ->
  setStories sanitize batch w =
  (Return tt,
   worldOf h (Some vm) (storyId (store w))
     (navigated w ++ [pathTo vm (id first)])).
Proof.
  intros batch H _ _ A NoColl NoCh Hvm Hne Habs.
  rewrite (setStories_spec sanitize batch h w H).
  unfold recoveryCalls. rewrite Habs, Hvm.
  rewrite (buildHash_leaf_order batch h H
             (keys_reduce_order batch [] h H A) NoColl NoCh).
  unfold batch, firstOccurrences. cbn [map fold_left].
  change (keyStep [] (id first)) with [id first].
  rewrite fold_keyStep_head.
  destruct vm as [|c vm']; [congruence|]. reflexivity.
Qed.

End KeyOrder.

Lemma setStories_key_order_witness :
  leafKeys (storiesHash
              (store (snd (setStories sanitize_sample
                             [storyOf "ui-input--default" "UI/Input";
                              storyOf "ui-button--default" "UI/Button"]
                             (emptyWorld None None)))))
  = ["ui-input--default"; "ui-button--default"].
Proof.
  set (h := storiesHash _).
  assert (H : buildHash sanitize_sample
                [storyOf "ui-input--default" "UI/Input";
                 storyOf "ui-button--default" "UI/Button"] = Return h)
    by (vm_compute; reflexivity).
  refine (proj2 (setStories_key_order sanitize_sample _ h H _ _) _ _).
  - plain_keys.
  - intros item k [<-|[<-|[]]] Hk; vm_compute in Hk;
      destruct Hk as [<-|[<-|[<-|[]]]]; reflexivity.
  - intros item item' g [<-|[<-|[]]] [<-|[<-|[]]] Hg; vm_compute in Hg;
      destruct Hg as [<-|[<-|[]]]; discriminate.
  - intros item [<-|[<-|[]]]; reflexivity.
Defined.

Lemma setStories_selects_first_story_witness :
  setStories sanitize_sample
    [storyOf "ui-input--default" "UI/Input";
     storyOf "ui-button--default" "UI/Button"]
    (emptyWorld (Some "story") None)
  = (Return tt,
     worldOf
       (storiesHash
          (store (snd (setStories sanitize_sample
                         [storyOf "ui-input--default" "UI/Input";
                          storyOf "ui-button--default" "UI/Button"]
                         (emptyWorld None None)))))
       (Some "story") None ["/story/ui-input--default"]).
Proof.
  set (h := storiesHash _).
  assert (H : buildHash sanitize_sample
                [storyOf "ui-input--default" "UI/Input";
                 storyOf "ui-button--default" "UI/Button"] = Return h)
    by (vm_compute; reflexivity).
  refine (setStories_selects_first_story sanitize_sample _ _ h "story"
            (emptyWorld (Some "story") None) H _ _ _ _ _ eq_refl _ eq_refl).
  - plain_keys.
  - intros s Hs. discriminate Hs.
  - intros item k [<-|[<-|[]]] Hk; vm_compute in Hk;
      destruct Hk as [<-|[<-|[<-|[]]]]; reflexivity.
  - intros item item' g [<-|[<-|[]]] [<-|[<-|[]]] Hg; vm_compute in Hg;
      destruct Hg as [<-|[<-|[]]]; discriminate.
  - intros item [<-|[<-|[]]]; reflexivity.
  - discriminate.
Defined.
